(** * Galaxies-Server: game-state engine, market simulation and broadcast hub

    A shallow embedding of the Go sources
    - [internal/game] models, mechanics ([GetPlanet], [CalculateDistance],
      [CalculateTotalMass], [CalculateCurrentBurn]), economy ([InitMarket],
      [MarketTick], [ReplenishMarket], [generateCargoJobs],
      [generatePassengerJobs], [RecordAcceptance], [RecordDelivery]) and
      state ([LoadConfig]);
    - [internal/api] handlers ([HandleGetPlanets], [HandleGetShip],
      [HandleGetContracts], [HandleGetModules], [HandleAcceptContract],
      [HandleTravel], [HandleRefuel], [HandleBuyModule],
      [HandleTravelQuote], [HandleDropContract]) and hub ([NewHub],
      [Hub.Run], [ServeWs]).

    Conventions.
    - Go [int] and [int64] are 64-bit two's complement: values are [Z] and
      every arithmetic result goes through [Int64.wrap].
    - [float64] market heat is idealised as an exact rational ([Q]); the
      constants 0.01, 0.02, 0.05, 1.5 are the rationals they denote.
    - The globals guarded by [DataLock] are the fields of one [World] value
      that each handler receives and returns; a handler body runs under the
      exclusive lock, so it is one atomic function on [World].
    - [math/rand] and the clock are an explicit tape of raw draws.  *)

From Stdlib Require Import ZArith QArith Qminmax Qabs Qround Lia Lqa Bool.
From Stdlib Require Import PrimFloat.
From stdpp Require Import gmap strings list fin_maps pretty.

Local Open Scope Z_scope.

(* Decimal float literals denote the nearest binary64 value, as in Go. *)
Set Warnings "-inexact-float".

(** ** 64-bit integers *)

Module Int64.

Definition min_int : Z := - 2 ^ 63.
Definition max_int : Z := 2 ^ 63 - 1.

(** Two's-complement wrap-around of a mathematical integer. *)
Definition wrap (z : Z) : Z := (z + 2 ^ 63) mod 2 ^ 64 - 2 ^ 63.

Definition in_range (z : Z) : Prop := min_int <= z <= max_int.

Definition add (a b : Z) : Z := wrap (a + b).
Definition sub (a b : Z) : Z := wrap (a - b).
Definition mul (a b : Z) : Z := wrap (a * b).

(** Go's [/] truncates toward zero and panics on a zero divisor. *)
Definition div (a b : Z) : option Z :=
  if b =? 0 then None else Some (wrap (Z.quot a b)).

End Int64.

(** ** Data model (models.go) *)

Module GameBalance.
Record t := mk {
  StartingCredits : Z;
  FuelCostPerUnit : Z;
  FuelMassPerUnit : Z;
  DistancePayoutMult : Z
}.
End GameBalance.

Module ShipModule.
Record t := mk {
  Key : string;
  Name : string;
  Description : string;
  Cost : Z;
  StatModifier : string;
  StatValue : Z
}.
End ShipModule.

Module Contract.
Record t := mk {
  ID : string;
  Type_ : string;
  ItemName : string;
  ItemKey : string;
  Quantity : Z;
  MassPerUnit : Z;
  OriginKey : string;
  DestinationKey : string;
  Payout : Z
}.
End Contract.

Module Planet.
Record t := mk {
  Key : string;
  Name : string;
  Coordinates : list Z;
  Production : list string;
  Demand : list string;
  MinCargo : Z;
  MaxCargo : Z;
  MinPassengers : Z;
  MaxPassengers : Z
}.
End Planet.

Module Ship.
Record t := mk {
  Name : string;
  LocationKey : string;
  Credits : Z;
  Fuel : Z;
  MaxFuel : Z;
  BaseBurnRate : Z;
  BurnDamping : Z;
  BaseMass : Z;
  CargoCapacity : Z;
  PassengerSlots : Z;
  MaxModuleSlots : Z;
  InstalledModules : list ShipModule.t;
  ActiveContracts : list Contract.t
}.
End Ship.

Module PassengerConfig.
Record t := mk {
  BaseTicketPrice : Z;
  MassPerPassenger : Z
}.
End PassengerConfig.

Module Commodity.
Record t := mk {
  Key : string;
  Name : string;
  BaseValue : Z;
  Mass : Z
}.
End Commodity.

Module Universe.
Record t := mk {
  BalanceConfig : GameBalance.t;
  PlayerShipConfig : Ship.t;
  Commodities : list Commodity.t;
  Planets : list Planet.t;
  ShipModules : list ShipModule.t;
  PassengerConfig : PassengerConfig.t
}.
End Universe.

Module MarketState.
Record t := mk {
  SourceHeat : gmap string (gmap string Q);
  DestHeat : gmap string (gmap string Q)
}.
End MarketState.

(** The globals of state.go. *)
Record World := mkWorld {
  CurrentUniverse : Universe.t;
  PlayerShip : Ship.t;
  AvailableContracts : gmap string (list Contract.t);
  Market : MarketState.t
}.

(** ** Mechanics (mechanics.go) *)

(** [GetPlanet]: first planet with the key, [None] for Go's nil. *)
Definition GetPlanet (u : Universe.t) (key : string) : option Planet.t :=
  List.find (fun p => bool_decide (Planet.Key p = key)) (Universe.Planets u).

Definition GetCommodity (u : Universe.t) (key : string) : option Commodity.t :=
  List.find (fun c => bool_decide (Commodity.Key c = key)) (Universe.Commodities u).

Definition GetModule (u : Universe.t) (key : string) : option ShipModule.t :=
  List.find (fun m => bool_decide (ShipModule.Key m = key)) (Universe.ShipModules u).

(** [CalculateDistance]: Euclidean distance rounded to the nearest integer.
    [math.Round (math.Sqrt n)] for a non-negative integer [n] is the [k] with
    k − 1/2 <= sqrt n < k + 1/2, that is [(Z.sqrt (4n) + 1) / 2]; a square
    root of an integer is never exactly half-way between two integers, so
    the tie rule of [math.Round] never applies.  The float64 computation
    gives this value for coordinates of any realistic magnitude (squared
    distances below 2^52). *)
Definition CalculateDistance (p1 p2 : list Z) : Z :=
  match p1, p2 with
  | x1 :: y1 :: _, x2 :: y2 :: _ =>
      let dx := Int64.sub x2 x1 in
      let dy := Int64.sub y2 y1 in
      Int64.wrap ((Z.sqrt (4 * (dx * dx + dy * dy)) + 1) / 2)
  | _, _ => 0
  end.

(** [CalculateTotalMass]: the loop over the active contracts, then fuel. *)
Definition contractMass (u : Universe.t) (c : Contract.t) : Z :=
  if bool_decide (Contract.Type_ c = "cargo")
  then Int64.mul (Contract.MassPerUnit c) (Contract.Quantity c)
  else Int64.mul (PassengerConfig.MassPerPassenger (Universe.PassengerConfig u))
                 (Contract.Quantity c).

Definition CalculateTotalMass (w : World) : Z :=
  let u := CurrentUniverse w in
  let s := PlayerShip w in
  let total :=
    fold_left (fun total c => Int64.add total (contractMass u c))
              (Ship.ActiveContracts s) (Ship.BaseMass s) in
  let fuelMass :=
    Int64.mul (Ship.Fuel s) (GameBalance.FuelMassPerUnit (Universe.BalanceConfig u)) in
  Int64.add total fuelMass.

(** [CalculateCurrentBurn]; [None] is the division-by-zero panic of
    [massDiff / PlayerShip.BurnDamping]. *)
Definition CalculateCurrentBurn (w : World) : option Z :=
  let u := CurrentUniverse w in
  let s := PlayerShip w in
  let currentMass := CalculateTotalMass w in
  let halfFuel := Z.quot (Ship.MaxFuel s) 2 in
  let halfFuelMass :=
    Int64.mul halfFuel (GameBalance.FuelMassPerUnit (Universe.BalanceConfig u)) in
  let referenceMass := Int64.add (Ship.BaseMass s) halfFuelMass in
  let massDiff := Int64.sub currentMass referenceMass in
  match Int64.div massDiff (Ship.BurnDamping s) with
  | None => None
  | Some burnAdjustment =>
      let finalBurn := Int64.add (Ship.BaseBurnRate s) burnAdjustment in
      if finalBurn <? 100 then Some 100 else Some finalBurn
  end.

(** ** Market heat (economy.go) *)

Definition Qltb (x y : Q) : bool := negb (Qle_bool y x).

(** [m.SourceHeat[originKey][itemKey] += impact]: a missing inner key reads
    as Go's zero value. *)
Definition addHeat (heat : gmap string (gmap string Q))
    (pKey cKey : string) (impact : Q) : gmap string (gmap string Q) :=
  match heat !! pKey with
  | None => heat
  | Some commodities =>
      <[pKey := <[cKey := (default 0 (commodities !! cKey) + impact)%Q]> commodities]> heat
  end.

Definition RecordAcceptance (m : MarketState.t)
    (originKey itemKey : string) (qty : Z) : MarketState.t :=
  let impact := (inject_Z qty * (1 # 100))%Q in
  MarketState.mk (addHeat (MarketState.SourceHeat m) originKey itemKey impact)
                 (MarketState.DestHeat m).

Definition RecordDelivery (m : MarketState.t)
    (destKey itemKey : string) (qty : Z) : MarketState.t :=
  let impact := (inject_Z qty * (2 # 100))%Q in
  MarketState.mk (MarketState.SourceHeat m)
                 (addHeat (MarketState.DestHeat m) destKey itemKey impact).

Definition recoveryRate : Q := 5 # 100.

(** The body of both loops of [MarketTick] for one stored heat value. *)
Definition tickHeat (heat : Q) : Q :=
  if Qltb 1 heat then Qmax 1 (heat - recoveryRate)
  else if Qltb heat 1 then Qmin 1 (heat + recoveryRate)
  else heat.

(** [MarketTick] rewrites every entry of both maps; entries are updated
    independently, so the iteration order of the Go maps is immaterial. *)
Definition tickAll (heat : gmap string (gmap string Q)) : gmap string (gmap string Q) :=
  (fun commodities : gmap string Q => tickHeat <$> commodities) <$> heat.

Definition MarketTick (w : World) : World :=
  let m := Market w in
  mkWorld (CurrentUniverse w) (PlayerShip w) (AvailableContracts w)
    (MarketState.mk (tickAll (MarketState.SourceHeat m))
                    (tickAll (MarketState.DestHeat m))).

(** *** The same loop body on IEEE binary64

    [tickHeat] above computes with exact rationals.  [Binary64.tickHeat] is
    the same code on the machine's float64, with [math.Max] and [math.Min]
    and their special cases, to check the idealisation on concrete values. *)

Module Binary64.

Definition Max (x y : float) : float :=
  if (is_infinity x && PrimFloat.ltb 0 x) || (is_infinity y && PrimFloat.ltb 0 y)
  then infinity
  else if is_nan x || is_nan y then nan
  else if PrimFloat.eqb x 0 && PrimFloat.eqb y 0
  then (if get_sign x then y else x)
  else if PrimFloat.ltb y x then x else y.

Definition Min (x y : float) : float :=
  if (is_infinity x && PrimFloat.ltb x 0) || (is_infinity y && PrimFloat.ltb y 0)
  then neg_infinity
  else if is_nan x || is_nan y then nan
  else if PrimFloat.eqb x 0 && PrimFloat.eqb y 0
  then (if get_sign x then x else y)
  else if PrimFloat.ltb x y then x else y.

Definition recoveryRate : float := 0.05%float.

Definition tickHeat (heat : float) : float :=
  if PrimFloat.ltb 1 heat then Max 1 (PrimFloat.sub heat recoveryRate)
  else if PrimFloat.ltb heat 1 then Min 1 (PrimFloat.add heat recoveryRate)
  else heat.

(** "5% of the current distance toward 1.0", on float64. *)
Definition proportionalStep (h : float) : float :=
  PrimFloat.sub h (PrimFloat.mul 0.05%float (PrimFloat.sub h 1)).

End Binary64.

(** ** Request handlers (handlers.go) *)

Inductive Status :=
  | StatusBadRequest        (* 400 *)
  | StatusPaymentRequired   (* 402 *)
  | StatusForbidden         (* 403 *)
  | StatusNotFound          (* 404 *)
  | StatusConflict.         (* 409 *)

Record TravelQuoteResponse := mkQuote {
  Distance : Z;
  FuelCost : Z;
  CanAfford : bool;
  BurnRate : Z
}.

(** What a handler leaves behind: a JSON body, [http.Error], or a panic of
    the handler goroutine. *)
Inductive Response :=
  | RespShip (s : Ship.t)
  | RespQuote (q : TravelQuoteResponse)
  | RespError (msg : string) (code : Status)
  | RespPanic.

Definition setShip (w : World) (s : Ship.t) : World :=
  mkWorld (CurrentUniverse w) s (AvailableContracts w) (Market w).

(** A Go map read of a missing key gives the nil slice. *)
Definition board (w : World) (location : string) : list Contract.t :=
  default [] (AvailableContracts w !! location).

(** The search loop shared by accept and drop: first index whose ID matches. *)
Fixpoint findByID (id : string) (cs : list Contract.t) (i : nat)
    : option (nat * Contract.t) :=
  match cs with
  | [] => None
  | c :: rest =>
      if bool_decide (Contract.ID c = id) then Some (i, c)
      else findByID id rest (S i)
  end.

(** [append(s[:i], s[i+1:]...)]. *)
Definition removeAt {A} (i : nat) (s : list A) : list A :=
  take i s ++ drop (S i) s.

(** The capacity loop of [HandleAcceptContract]: (currentCargo, currentPass). *)
Definition currentLoad (active : list Contract.t) : Z * Z :=
  fold_left (fun acc ac =>
               if bool_decide (Contract.Type_ ac = "cargo")
               then (Int64.add (fst acc) (Contract.Quantity ac), snd acc)
               else (fst acc, Int64.add (snd acc) (Contract.Quantity ac)))
            active (0, 0).

(** A request body is [None] when the JSON decoder rejects it. *)
Definition HandleAcceptContract (req : option string) (w : World)
    : Response * World :=
  match req with
  | None => (RespError "Bad Request" StatusBadRequest, w)
  | Some ContractID =>
      let ship := PlayerShip w in
      let location := Ship.LocationKey ship in
      let brd := board w location in
      match findByID ContractID brd 0 with
      | None => (RespError "Contract not found" StatusNotFound, w)
      | Some (foundIdx, target) =>
          let '(currentCargo, currentPass) := currentLoad (Ship.ActiveContracts ship) in
          if bool_decide (Contract.Type_ target = "cargo")
             && (Ship.CargoCapacity ship <? Int64.add currentCargo (Contract.Quantity target))
          then (RespError "Insufficient Cargo Space" StatusConflict, w)
          else if bool_decide (Contract.Type_ target = "passenger")
             && (Ship.PassengerSlots ship <? Int64.add currentPass (Contract.Quantity target))
          then (RespError "Insufficient Passenger Slots" StatusConflict, w)
          else
            let ship' :=
              Ship.mk (Ship.Name ship) (Ship.LocationKey ship) (Ship.Credits ship)
                (Ship.Fuel ship) (Ship.MaxFuel ship) (Ship.BaseBurnRate ship)
                (Ship.BurnDamping ship) (Ship.BaseMass ship)
                (Ship.CargoCapacity ship) (Ship.PassengerSlots ship)
                (Ship.MaxModuleSlots ship) (Ship.InstalledModules ship)
                (Ship.ActiveContracts ship ++ [target]) in
            let boards' := <[location := removeAt foundIdx brd]> (AvailableContracts w) in
            let market' :=
              RecordAcceptance (Market w) (Contract.OriginKey target)
                (Contract.ItemKey target) (Contract.Quantity target) in
            (RespShip ship', mkWorld (CurrentUniverse w) ship' boards' market')
      end
  end.

(** The delivery loop of [HandleTravel]:
    (remainingContracts, payoutTotal, Market). *)
Definition deliver (location : string) (active : list Contract.t)
    (m : MarketState.t) : list Contract.t * Z * MarketState.t :=
  fold_left (fun acc c =>
               let '(remaining, payoutTotal, mk) := acc in
               if bool_decide (Contract.DestinationKey c = location)
               then (remaining, Int64.add payoutTotal (Contract.Payout c),
                     RecordDelivery mk (Contract.DestinationKey c)
                       (Contract.ItemKey c) (Contract.Quantity c))
               else (remaining ++ [c], payoutTotal, mk))
            active ([], 0, m).

Definition HandleTravel (req : option string) (w : World) : Response * World :=
  match req with
  | None => (RespError "Invalid Request" StatusBadRequest, w)
  | Some DestinationKey =>
      let u := CurrentUniverse w in
      let ship := PlayerShip w in
      match GetPlanet u DestinationKey with
      | None => (RespError "Destination invalid" StatusNotFound, w)
      | Some dest =>
          match GetPlanet u (Ship.LocationKey ship) with
          | None => (RespPanic, w)   (* current.Coordinates on a nil pointer *)
          | Some current =>
              let dist := CalculateDistance (Planet.Coordinates current)
                                            (Planet.Coordinates dest) in
              match CalculateCurrentBurn w with
              | None => (RespPanic, w)   (* integer divide by zero *)
              | Some currentBurn =>
                  let fuelNeeded := Int64.mul dist currentBurn in
                  if Ship.Fuel ship <? fuelNeeded
                  then (RespError "Insufficient Fuel for current mass"
                                  StatusPaymentRequired, w)
                  else
                    let location := Planet.Key dest in
                    let '(remaining, payoutTotal, market') :=
                      deliver location (Ship.ActiveContracts ship) (Market w) in
                    let ship' :=
                      Ship.mk (Ship.Name ship) location
                        (Int64.add (Ship.Credits ship) payoutTotal)
                        (Int64.sub (Ship.Fuel ship) fuelNeeded)
                        (Ship.MaxFuel ship) (Ship.BaseBurnRate ship)
                        (Ship.BurnDamping ship) (Ship.BaseMass ship)
                        (Ship.CargoCapacity ship) (Ship.PassengerSlots ship)
                        (Ship.MaxModuleSlots ship) (Ship.InstalledModules ship)
                        remaining in
                    (RespShip ship',
                     mkWorld u ship' (AvailableContracts w) market')
              end
          end
      end
  end.

Definition HandleRefuel (w : World) : Response * World :=
  let ship := PlayerShip w in
  let fuelNeeded := Int64.sub (Ship.MaxFuel ship) (Ship.Fuel ship) in
  if fuelNeeded <=? 0
  then (RespError "Tank is already full" StatusBadRequest, w)
  else
    let cost :=
      Int64.mul (Z.quot fuelNeeded 100)
        (GameBalance.FuelCostPerUnit (Universe.BalanceConfig (CurrentUniverse w))) in
    if Ship.Credits ship <? cost
    then (RespError "Insufficient credits" StatusForbidden, w)
    else
      let ship' :=
        Ship.mk (Ship.Name ship) (Ship.LocationKey ship)
          (Int64.sub (Ship.Credits ship) cost) (Ship.MaxFuel ship)
          (Ship.MaxFuel ship) (Ship.BaseBurnRate ship) (Ship.BurnDamping ship)
          (Ship.BaseMass ship) (Ship.CargoCapacity ship)
          (Ship.PassengerSlots ship) (Ship.MaxModuleSlots ship)
          (Ship.InstalledModules ship) (Ship.ActiveContracts ship) in
      (RespShip ship', setShip w ship').

Definition HandleBuyModule (req : option string) (w : World) : Response * World :=
  match req with
  | None => (RespError "Bad Request" StatusBadRequest, w)
  | Some ModuleKey =>
      let ship := PlayerShip w in
      if negb (bool_decide (Ship.LocationKey ship = "planet_prime"))
      then (RespError "Upgrade service unavailable at this location"
                      StatusForbidden, w)
      else if Ship.MaxModuleSlots ship <=? Z.of_nat (length (Ship.InstalledModules ship))
      then (RespError "No module slots available" StatusConflict, w)
      else
        match GetModule (CurrentUniverse w) ModuleKey with
        | None => (RespError "Module not found" StatusNotFound, w)
        | Some mod_ =>
            if Ship.Credits ship <? ShipModule.Cost mod_
            then (RespError "Insufficient Credits" StatusPaymentRequired, w)
            else
              let cargo' :=
                if bool_decide (ShipModule.StatModifier mod_ = "cargo_capacity")
                then Int64.add (Ship.CargoCapacity ship) (ShipModule.StatValue mod_)
                else Ship.CargoCapacity ship in
              let slots' :=
                if bool_decide (ShipModule.StatModifier mod_ = "cargo_capacity")
                then Ship.PassengerSlots ship
                else if bool_decide (ShipModule.StatModifier mod_ = "passenger_slots")
                then Int64.add (Ship.PassengerSlots ship) (ShipModule.StatValue mod_)
                else Ship.PassengerSlots ship in
              let ship' :=
                Ship.mk (Ship.Name ship) (Ship.LocationKey ship)
                  (Int64.sub (Ship.Credits ship) (ShipModule.Cost mod_))
                  (Ship.Fuel ship) (Ship.MaxFuel ship) (Ship.BaseBurnRate ship)
                  (Ship.BurnDamping ship) (Ship.BaseMass ship) cargo' slots'
                  (Ship.MaxModuleSlots ship)
                  (Ship.InstalledModules ship ++ [mod_])
                  (Ship.ActiveContracts ship) in
              (RespShip ship', setShip w ship')
        end
  end.

(** Read-only under the shared lock: no world is returned. *)
Definition HandleTravelQuote (req : option string) (w : World) : Response :=
  match req with
  | None => RespError "Invalid Request" StatusBadRequest
  | Some DestinationKey =>
      let u := CurrentUniverse w in
      let ship := PlayerShip w in
      match GetPlanet u DestinationKey with
      | None => RespError "Destination invalid" StatusNotFound
      | Some dest =>
          match GetPlanet u (Ship.LocationKey ship) with
          | None => RespPanic
          | Some current =>
              let dist := CalculateDistance (Planet.Coordinates current)
                                            (Planet.Coordinates dest) in
              match CalculateCurrentBurn w with
              | None => RespPanic
              | Some currentBurn =>
                  let fuelNeeded := Int64.mul dist currentBurn in
                  RespQuote (mkQuote dist fuelNeeded
                               (fuelNeeded <=? Ship.Fuel ship) currentBurn)
              end
          end
      end
  end.

Definition HandleDropContract (req : option string) (w : World) : Response * World :=
  match req with
  | None => (RespError "Bad Request" StatusBadRequest, w)
  | Some ContractID =>
      let ship := PlayerShip w in
      match findByID ContractID (Ship.ActiveContracts ship) 0 with
      | None => (RespError "Contract not found on ship" StatusNotFound, w)
      | Some (foundIdx, _) =>
          let ship' :=
            Ship.mk (Ship.Name ship) (Ship.LocationKey ship) (Ship.Credits ship)
              (Ship.Fuel ship) (Ship.MaxFuel ship) (Ship.BaseBurnRate ship)
              (Ship.BurnDamping ship) (Ship.BaseMass ship)
              (Ship.CargoCapacity ship) (Ship.PassengerSlots ship)
              (Ship.MaxModuleSlots ship) (Ship.InstalledModules ship)
              (removeAt foundIdx (Ship.ActiveContracts ship)) in
          (RespShip ship', setShip w ship')
      end
  end.

(** ** Randomness and the clock

    [math/rand] and [time.Now] are the only sources of nondeterminism of the
    generator.  They are a tape of raw draws consumed left to right: each
    call takes the next raw value and reduces it into its range. *)

Inductive Outcome (A : Type) :=
  | Done (a : A)
  | Panicked      (* run-time panic: [rand.Intn] of a non-positive bound, bad index *)
  | Exhausted.    (* the tape ran out before the code finished *)
Arguments Done {A} a.
Arguments Panicked {A}.
Arguments Exhausted {A}.

Definition Gen (A : Type) : Type := list Z -> Outcome (A * list Z).

#[global] Instance Gen_ret : MRet Gen := fun A a tape => Done (a, tape).
#[global] Instance Gen_bind : MBind Gen := fun A B k c tape =>
  match c tape with
  | Done (a, tape') => k a tape'
  | Panicked => Panicked
  | Exhausted => Exhausted
  end.

Definition panic {A} : Gen A := fun _ => Panicked.

Definition draw : Gen Z := fun tape =>
  match tape with
  | [] => Exhausted
  | x :: rest => Done (x, rest)
  end.

(** [rand.Intn n]: uniform in [0, n); panics when [n <= 0]. *)
Definition Intn (n : Z) : Gen Z :=
  if n <=? 0 then panic else x ← draw; mret (x mod n).

(** [rand.Float64]: [Int63n(1<<53) / (1<<53)], in [0, 1). *)
Definition Float64 : Gen Q :=
  x ← draw; mret (Qmake (x mod 2 ^ 53) (2 ^ 53)).

(** [rand.Float32]: [Int31n(1<<24) / (1<<24)], in [0, 1). *)
Definition Float32 : Gen Q :=
  x ← draw; mret (Qmake (x mod 2 ^ 24) (2 ^ 24)).

(** [time.Now().UnixNano() % 1000]. *)
Definition UnixNanoMod1000 : Gen Z :=
  x ← draw; mret (x mod 1000).

(** Slice indexing with Go's bounds check. *)
Definition index {A} (s : list A) (i : Z) : Gen A :=
  if i <? 0 then panic
  else match s !! Z.to_nat i with
       | Some a => mret a
       | None => panic
       end.

(** ** Contract generation (economy.go) *)

(** A nested map read; a missing key at either level reads as 0. *)
Definition heatAt (heat : gmap string (gmap string Q)) (pKey cKey : string) : Q :=
  match heat !! pKey with
  | None => 0%Q
  | Some commodities => default 0%Q (commodities !! cKey)
  end.

(** Conversion of a float to [int]: truncation toward zero. *)
Definition Qtrunc (q : Q) : Z := Z.quot (Qnum q) (Zpos (Qden q)).

(** The resampling loop
    [dest := Planets[rand.Intn(n)]; for dest.Key == origin.Key { dest = ... }];
    each round consumes one draw. *)
Fixpoint pickDestination (planets : list Planet.t) (originKey : string)
    (tape : list Z) : Outcome (Planet.t * list Z) :=
  if Z.of_nat (length planets) <=? 0 then Panicked
  else
    match tape with
    | [] => Exhausted
    | x :: rest =>
        match planets !! Z.to_nat (x mod Z.of_nat (length planets)) with
        | None => Panicked
        | Some dest =>
            if bool_decide (Planet.Key dest = originKey)
            then pickDestination planets originKey rest
            else Done (dest, rest)
        end
    end.

Definition randomCommodity (u : Universe.t) : Gen Commodity.t :=
  i ← Intn (Z.of_nat (length (Universe.Commodities u)));
  index (Universe.Commodities u) i.

(** Step 1 of the cargo loop body: 80% local production, 20% global. *)
Definition pickCommodity (u : Universe.t) (origin : Planet.t) : Gen Commodity.t :=
  match Planet.Production origin with
  | [] => randomCommodity u
  | _ :: _ =>
      r ← Float32;
      if Qltb r (8 # 10) then
        i ← Intn (Z.of_nat (length (Planet.Production origin)));
        prodKey ← index (Planet.Production origin) i;
        match GetCommodity u prodKey with
        | Some comm => mret comm
        | None => randomCommodity u
        end
      else randomCommodity u
  end.

(** Step 2: [sourceHeat > 1.0 && rand.Float64()*sourceHeat > 1.5]; the draw
    happens only when the first conjunct holds. *)
Definition scarcitySkip (sourceHeat : Q) : Gen bool :=
  if Qltb 1 sourceHeat then
    r ← Float64; mret (Qltb (15 # 10) (r * sourceHeat))
  else mret false.

(** One iteration of the loop of [generateCargoJobs]: [None] is [continue]. *)
Definition cargoJob (u : Universe.t) (m : MarketState.t) (origin : Planet.t)
    : Gen (option Contract.t) :=
  comm ← pickCommodity u origin;
  let sourceHeat := heatAt (MarketState.SourceHeat m) (Planet.Key origin) (Commodity.Key comm) in
  skip ← scarcitySkip sourceHeat;
  if (skip : bool) then mret None
  else
    dest ← pickDestination (Universe.Planets u) (Planet.Key origin);
    r ← Intn 21;
    let qty := Int64.add r 5 in
    let dist := CalculateDistance (Planet.Coordinates origin) (Planet.Coordinates dest) in
    let destHeat := heatAt (MarketState.DestHeat m) (Planet.Key dest) (Commodity.Key comm) in
    let priceMod := (1 / destHeat)%Q in
    let basePayout :=
      Int64.add
        (Int64.mul dist (GameBalance.DistancePayoutMult (Universe.BalanceConfig u)))
        (Z.quot (Int64.mul (Commodity.BaseValue comm) qty) 2) in
    let finalPayout := Qtrunc (inject_Z basePayout * priceMod) in
    n ← Intn 99999;
    t ← UnixNanoMod1000;
    mret (Some (Contract.mk ("CRG-" +:+ pretty n +:+ "-" +:+ pretty t)
                  "cargo" (Commodity.Name comm) (Commodity.Key comm) qty
                  (Commodity.Mass comm) (Planet.Key origin) (Planet.Key dest)
                  finalPayout)).

Definition appendJob (boards : gmap string (list Contract.t)) (key : string)
    (job : Contract.t) : gmap string (list Contract.t) :=
  <[key := default [] (boards !! key) ++ [job]]> boards.

Fixpoint generateCargoJobs (u : Universe.t) (m : MarketState.t) (origin : Planet.t)
    (count : nat) (boards : gmap string (list Contract.t))
    : Gen (gmap string (list Contract.t)) :=
  match count with
  | O => mret boards
  | S count' =>
      job ← cargoJob u m origin;
      match job with
      | None => generateCargoJobs u m origin count' boards
      | Some j => generateCargoJobs u m origin count' (appendJob boards (Planet.Key origin) j)
      end
  end.

Definition passengerJob (u : Universe.t) (origin : Planet.t) : Gen Contract.t :=
  dest ← pickDestination (Universe.Planets u) (Planet.Key origin);
  let dist := CalculateDistance (Planet.Coordinates origin) (Planet.Coordinates dest) in
  let payout :=
    Int64.add (Int64.mul dist 15)
      (PassengerConfig.BaseTicketPrice (Universe.PassengerConfig u)) in
  n ← Intn 99999;
  t ← UnixNanoMod1000;
  mret (Contract.mk ("PAX-" +:+ pretty n +:+ "-" +:+ pretty t)
          "passenger" "Passenger" "passenger" 1
          (PassengerConfig.MassPerPassenger (Universe.PassengerConfig u))
          (Planet.Key origin) (Planet.Key dest) payout).

Fixpoint generatePassengerJobs (u : Universe.t) (origin : Planet.t)
    (count : nat) (boards : gmap string (list Contract.t))
    : Gen (gmap string (list Contract.t)) :=
  match count with
  | O => mret boards
  | S count' =>
      j ← passengerJob u origin;
      generatePassengerJobs u origin count' (appendJob boards (Planet.Key origin) j)
  end.

(** Number of offers of one type on a board. *)
Definition countType (ty : string) (cs : list Contract.t) : Z :=
  Z.of_nat (length (filter (fun c => Contract.Type_ c = ty) cs)).

(** Board targets with the defaults applied when the maximum is unset. *)
Definition cargoTargets (origin : Planet.t) : Z * Z :=
  if Planet.MaxCargo origin =? 0 then (5, 15)
  else (Planet.MinCargo origin, Planet.MaxCargo origin).

Definition passengerTargets (origin : Planet.t) : Z * Z :=
  if Planet.MaxPassengers origin =? 0 then (2, 8)
  else (Planet.MinPassengers origin, Planet.MaxPassengers origin).

(** The cargo check of the planet loop of [ReplenishMarket]:
    state is (AvailableContracts, updatedPlanets). *)
Definition replenishCargo (u : Universe.t) (m : MarketState.t) (origin : Planet.t)
    (st : gmap string (list Contract.t) * list string)
    : Gen (gmap string (list Contract.t) * list string) :=
  let '(boards, updatedPlanets) := st in
  let '(minCargo, maxCargo) := cargoTargets origin in
  let currentCargoCount := countType "cargo" (default [] (boards !! Planet.Key origin)) in
  if currentCargoCount <? minCargo then
    r ← Intn (Int64.add (Int64.sub maxCargo minCargo) 1);
    let target := Int64.add r minCargo in
    let needed := Int64.sub target currentCargoCount in
    if 0 <? needed then
      boards' ← generateCargoJobs u m origin (Z.to_nat needed) boards;
      mret (boards', updatedPlanets ++ [Planet.Key origin])
    else mret (boards, updatedPlanets)
  else mret (boards, updatedPlanets).

(** The passenger check, with the deduplication of the returned keys. *)
Definition replenishPassengers (u : Universe.t) (origin : Planet.t)
    (st : gmap string (list Contract.t) * list string)
    : Gen (gmap string (list Contract.t) * list string) :=
  let '(boards, updatedPlanets) := st in
  let '(minPax, maxPax) := passengerTargets origin in
  let currentPaxCount := countType "passenger" (default [] (boards !! Planet.Key origin)) in
  if currentPaxCount <? minPax then
    r ← Intn (Int64.add (Int64.sub maxPax minPax) 1);
    let target := Int64.add r minPax in
    let needed := Int64.sub target currentPaxCount in
    if 0 <? needed then
      boards' ← generatePassengerJobs u origin (Z.to_nat needed) boards;
      mret (boards',
            if bool_decide (Planet.Key origin ∈ updatedPlanets) then updatedPlanets
            else updatedPlanets ++ [Planet.Key origin])
    else mret (boards, updatedPlanets)
  else mret (boards, updatedPlanets).

(** The body of the planet loop: cargo check, then passenger check. *)
Definition replenishPlanet (u : Universe.t) (m : MarketState.t) (origin : Planet.t)
    (st : gmap string (list Contract.t) * list string)
    : Gen (gmap string (list Contract.t) * list string) :=
  st1 ← replenishCargo u m origin st;
  replenishPassengers u origin st1.

Fixpoint replenishPlanets (u : Universe.t) (m : MarketState.t)
    (planets : list Planet.t)
    (st : gmap string (list Contract.t) * list string)
    : Gen (gmap string (list Contract.t) * list string) :=
  match planets with
  | [] => mret st
  | origin :: rest =>
      st' ← replenishPlanet u m origin st;
      replenishPlanets u m rest st'
  end.

(** [ReplenishMarket]: tick, then top up every planet's board. *)
Definition ReplenishMarket (w : World) : Gen (list string * World) :=
  let w1 := MarketTick w in
  st ← replenishPlanets (CurrentUniverse w1) (Market w1)
         (Universe.Planets (CurrentUniverse w1)) (AvailableContracts w1, []);
  mret (snd st,
        mkWorld (CurrentUniverse w1) (PlayerShip w1) (fst st) (Market w1)).

(** ** The broadcast hub (hub.go) *)

Module Hub.

(** A buffered Go channel of messages: pending messages, whether it has
    been closed, and its capacity. *)
Record Chan := mkChan {
  buf : list (list Byte.byte);
  closed : bool;
  cap : nat
}.

(** Clients are identified by their address; [chans] is the heap of their
    [send] channels, [clients] the key set of [h.clients]. *)
Record t := mk {
  clients : gset nat;
  chans : gmap nat Chan
}.

Inductive Event :=
  | Register (client : nat)
  | Unregister (client : nat)
  | Broadcast (message : list Byte.byte).

(** [close(ch)]; closing a closed channel panics ([None]). *)
Definition close (ch : Chan) : option Chan :=
  if closed ch then None else Some (mkChan (buf ch) true (cap ch)).

(** The body of the broadcast loop for one client:
    [select { case client.send <- message: default: close; delete }].
    A send on a closed channel panics ([None]). *)
Definition offer (message : list Byte.byte) (h : t) (client : nat) : option t :=
  match chans h !! client with
  | None => None
  | Some ch =>
      if closed ch then None
      else if (length (buf ch) <? cap ch)%nat then
        Some (mk (clients h)
                 (<[client := mkChan (buf ch ++ [message]) false (cap ch)]> (chans h)))
      else
        match close ch with
        | None => None
        | Some ch' => Some (mk (clients h ∖ {[client]}) (<[client := ch']> (chans h)))
        end
  end.

Fixpoint offerAll (message : list Byte.byte) (cs : list nat) (h : t) : option t :=
  match cs with
  | [] => Some h
  | client :: rest =>
      match offer message h client with
      | None => None
      | Some h' => offerAll message rest h'
      end
  end.

(** One iteration of the [select] loop of [Hub.Run]. *)
Definition Run (ev : Event) (h : t) : option t :=
  match ev with
  | Register client => Some (mk (clients h ∪ {[client]}) (chans h))
  | Unregister client =>
      if bool_decide (client ∈ clients h) then
        match chans h !! client with
        | None => None
        | Some ch =>
            match close ch with
            | None => None
            | Some ch' => Some (mk (clients h ∖ {[client]}) (<[client := ch']> (chans h)))
            end
        end
      else Some h
  | Broadcast message => offerAll message (elements (clients h)) h
  end.

(** [ServeWs]: a fresh client with a queue of capacity 256, registered. *)
Definition ServeWs (client : nat) (h : t) : option t :=
  Run (Register client) (mk (clients h) (<[client := mkChan [] false 256]> (chans h))).

End Hub.

(** ** Example worlds

    Two planets at (0,0) and (3,4), one commodity, and the reference ship of
    the travel scenario: base burn 100, damping 1000, base mass 1000, tank
    1000, fuel mass 1 per unit. *)

Module Example.

Definition alpha : Planet.t :=
  Planet.mk "planet_prime" "Prime" [0; 0] ["ore"] [] 1 2 1 1.
Definition beta : Planet.t :=
  Planet.mk "planet_beta" "Beta" [3; 4] [] ["ore"] 0 1 0 1.

Definition ore : Commodity.t := Commodity.mk "ore" "Ore" 10 2.

Definition bay : ShipModule.t :=
  ShipModule.mk "mod_cargo_bay" "Cargo Bay" "More room" 100 "cargo_capacity" 20.

Definition shipWith (location : string) (credits fuel : Z)
    (active : list Contract.t) : Ship.t :=
  Ship.mk "Rocinante" location credits fuel 1000 100 1000 1000 50 2 2 [] active.

Definition universe : Universe.t :=
  Universe.mk (GameBalance.mk 500 10 1 5) (shipWith "" 0 0 [])
    [ore] [alpha; beta] [bay] (PassengerConfig.mk 50 80).

Definition neutral : gmap string (gmap string Q) :=
  {[ "planet_prime" := {[ "ore" := 1%Q ]}; "planet_beta" := {[ "ore" := 1%Q ]} ]}.

Definition market : MarketState.t := MarketState.mk neutral neutral.

Definition world (ship : Ship.t) (boards : gmap string (list Contract.t)) : World :=
  mkWorld universe ship boards market.

Definition cargo (id : string) (qty : Z) (dest : string) (payout : Z) : Contract.t :=
  Contract.mk id "cargo" "Ore" "ore" qty 2 "planet_prime" dest payout.

Definition pax (id : string) (dest : string) (payout : Z) : Contract.t :=
  Contract.mk id "passenger" "Passenger" "passenger" 1 80 "planet_prime" dest payout.

(** Docked with an empty wallet and 99 units short of a full tank. *)
Definition nearlyFull : World := world (shipWith "planet_prime" 0 901 []) ∅.

(** The reference ship at half fuel with nothing aboard. *)
Definition halfFuel : World := world (shipWith "planet_prime" 0 500 []) ∅.

(** Docked at Prime with one cargo and one passenger contract for Beta and
    a cargo contract for Prime itself. *)
Definition aboard : list Contract.t :=
  [cargo "CRG-1-1" 10 "planet_beta" 100; pax "PAX-7-3" "planet_beta" 125;
   cargo "CRG-2-2" 5 "planet_prime" 40].

Definition loaded : World := world (shipWith "planet_prime" 30 600 aboard) ∅.

(** The ship's location names no planet of the catalog. *)
Definition adrift : World := world (shipWith "deep_space" 30 600 aboard) ∅.

End Example.

(** ** The physics formulas as the specification words them *)

Definition Zsum (l : list Z) : Z := foldr Z.add 0 l.

Module Spec.

(** Σ(active cargo mass). *)
Definition cargoMass (w : World) : Z :=
  Zsum (map (fun c => Contract.MassPerUnit c * Contract.Quantity c)
            (filter (fun c => Contract.Type_ c = "cargo")
                    (Ship.ActiveContracts (PlayerShip w)))).

(** Σ(active passenger mass, using the passenger-config mass). *)
Definition passengerMass (w : World) : Z :=
  Zsum (map (fun c => PassengerConfig.MassPerPassenger
                        (Universe.PassengerConfig (CurrentUniverse w))
                      * Contract.Quantity c)
            (filter (fun c => Contract.Type_ c = "passenger")
                    (Ship.ActiveContracts (PlayerShip w)))).

Definition fuelMassPerUnit (w : World) : Z :=
  GameBalance.FuelMassPerUnit (Universe.BalanceConfig (CurrentUniverse w)).

(** base mass + Σ cargo mass + Σ passenger mass + fuel·fuelMassPerUnit. *)
Definition totalMass (w : World) : Z :=
  Ship.BaseMass (PlayerShip w) + cargoMass w + passengerMass w
  + Ship.Fuel (PlayerShip w) * fuelMassPerUnit w.

(** base mass + (maxFuel/2)·fuelMassPerUnit, with the integer half. *)
Definition referenceMass (w : World) : Z :=
  Ship.BaseMass (PlayerShip w)
  + Z.quot (Ship.MaxFuel (PlayerShip w)) 2 * fuelMassPerUnit w.

(** baseBurnRate + (totalMass − referenceMass)/burnDamping with the
    integer quotient, floor-clamped at 100. *)
Definition currentBurnRate (w : World) : Z :=
  Z.max 100
    (Ship.BaseBurnRate (PlayerShip w)
     + Z.quot (totalMass w - referenceMass w) (Ship.BurnDamping (PlayerShip w))).

(** "5% of the current distance toward 1.0": h − 0.05·(h − 1.0). *)
Definition proportionalStep (h : Q) : Q := (h - (5 # 100) * (h - 1))%Q.

End Spec.

(** The ship state is one on which the 64-bit arithmetic of the mass and
    burn computation is exact: masses and quantities are not negative, every
    contract is cargo or passenger, and the totals are 64-bit values. *)
Record BurnFits (w : World) : Prop := {
  fits_types :
    Forall (fun c => Contract.Type_ c = "cargo" \/ Contract.Type_ c = "passenger")
           (Ship.ActiveContracts (PlayerShip w));
  fits_contracts :
    Forall (fun c => 0 <= Contract.Quantity c /\ 0 <= Contract.MassPerUnit c)
           (Ship.ActiveContracts (PlayerShip w));
  fits_passenger :
    0 <= PassengerConfig.MassPerPassenger (Universe.PassengerConfig (CurrentUniverse w));
  fits_base : 0 <= Ship.BaseMass (PlayerShip w);
  fits_fuel : 0 <= Ship.Fuel (PlayerShip w);
  fits_tank : 0 <= Ship.MaxFuel (PlayerShip w);
  fits_fuel_mass : 0 <= Spec.fuelMassPerUnit w;
  fits_total : Spec.totalMass w <= Int64.max_int;
  fits_reference : Spec.referenceMass w <= Int64.max_int;
  fits_damping : Ship.BurnDamping (PlayerShip w) <> 0;
  fits_burn :
    Int64.in_range
      (Ship.BaseBurnRate (PlayerShip w)
       + Z.quot (Spec.totalMass w - Spec.referenceMass w)
                (Ship.BurnDamping (PlayerShip w)))
}.

(** ** Delivery on arrival, as the specification words it *)

Module Delivery.

(** The active contracts whose destination is the new location. *)
Definition delivered (location : string) (active : list Contract.t) : list Contract.t :=
  filter (fun c => Contract.DestinationKey c = location) active.

(** The contracts with another destination: they stay aboard. *)
Definition remaining (location : string) (active : list Contract.t) : list Contract.t :=
  filter (fun c => Contract.DestinationKey c <> location) active.

(** [recordDelivery] called once per delivered contract, in order. *)
Definition recorded (cs : list Contract.t) (m : MarketState.t) : MarketState.t :=
  fold_left (fun mk c =>
               RecordDelivery mk (Contract.DestinationKey c) (Contract.ItemKey c)
                 (Contract.Quantity c))
            cs m.

Definition payouts (cs : list Contract.t) : Z := Zsum (map Contract.Payout cs).

End Delivery.

(** The 64-bit arithmetic of a journey of [dist] at [burn] to [location] is
    exact: the fuel cost, the remaining fuel and the credited payouts are
    64-bit values, and no delivered contract has a negative payout. *)
Record TravelFits (w : World) (dist burn : Z) (location : string) : Prop := {
  fits_cost : 0 <= dist * burn <= Int64.max_int;
  fits_tank_level : Int64.in_range (Ship.Fuel (PlayerShip w));
  fits_payouts :
    Forall (fun c => 0 <= Contract.Payout c)
           (Delivery.delivered location (Ship.ActiveContracts (PlayerShip w)));
  fits_credits :
    0 <= Ship.Credits (PlayerShip w)
    /\ Ship.Credits (PlayerShip w)
       + Delivery.payouts (Delivery.delivered location (Ship.ActiveContracts (PlayerShip w)))
       <= Int64.max_int
}.

(** ** The request surface *)

Inductive Request :=
  | AcceptContract (body : option string)
  | DropContract (body : option string)
  | Travel (body : option string)
  | TravelQuote (body : option string)
  | Refuel
  | BuyModule (body : option string).

(** One request served under the state lock: the world it leaves behind. *)
Definition serve (r : Request) (w : World) : Response * World :=
  match r with
  | AcceptContract body => HandleAcceptContract body w
  | DropContract body => HandleDropContract body w
  | Travel body => HandleTravel body w
  | TravelQuote body => (HandleTravelQuote body w, w)
  | Refuel => HandleRefuel w
  | BuyModule body => HandleBuyModule body w
  end.

(** ** The error taxonomy of the specification, read off a reply *)

Inductive ErrorClass := ValidationError | NotFound | PreconditionFailed.

Definition classify (r : Response) : option ErrorClass :=
  match r with
  | RespError msg StatusNotFound => Some NotFound
  | RespError msg StatusBadRequest =>
      if bool_decide (msg = "Tank is already full") then Some PreconditionFailed
      else Some ValidationError
  | RespError msg _ => Some PreconditionFailed
  | _ => None
  end.

(** ** Load aboard, as the specification words it *)

Module Load.

Definition quantities (ty : string) (cs : list Contract.t) : Z :=
  Zsum (map Contract.Quantity (filter (fun c => Contract.Type_ c = ty) cs)).

(** Sum of quantities of active cargo contracts. *)
Definition cargo (s : Ship.t) : Z := quantities "cargo" (Ship.ActiveContracts s).

(** Sum of active passenger contract quantities. *)
Definition passengers (s : Ship.t) : Z := quantities "passenger" (Ship.ActiveContracts s).

Definition within (s : Ship.t) : Prop :=
  cargo s <= Ship.CargoCapacity s /\ passengers s <= Ship.PassengerSlots s.

End Load.

(** Magnitudes on which the capacity arithmetic is exact: every contract
    aboard is cargo or passenger, quantities offered or aboard and module
    deltas are between 0 and 2^31, capacities are at most 2^62. *)
Record ShipFits (w : World) : Prop := {
  fits_aboard :
    Forall (fun c => (Contract.Type_ c = "cargo" \/ Contract.Type_ c = "passenger")
                     /\ 0 <= Contract.Quantity c)
           (Ship.ActiveContracts (PlayerShip w));
  fits_offers :
    forall location cs, AvailableContracts w !! location = Some cs ->
      Forall (fun c => 0 <= Contract.Quantity c <= 2 ^ 31) cs;
  fits_capacity :
    Ship.CargoCapacity (PlayerShip w) <= 2 ^ 62
    /\ Ship.PassengerSlots (PlayerShip w) <= 2 ^ 62;
  fits_modules :
    Forall (fun m => 0 <= ShipModule.StatValue m <= 2 ^ 31)
           (Universe.ShipModules (CurrentUniverse w))
}.


Module CapacityExample.

(** Docked at Prime with 48 of 50 cargo units and both passenger seats
    taken; the board offers five more units of cargo and one passenger. *)
Definition aboard : list Contract.t :=
  [Example.cargo "CRG-1-1" 48 "planet_beta" 100;
   Example.pax "PAX-7-3" "planet_beta" 125;
   Example.pax "PAX-8-1" "planet_beta" 125].

Definition offers : gmap string (list Contract.t) :=
  {[ "planet_prime" := [Example.cargo "CRG-9-9" 5 "planet_beta" 70;
                        Example.pax "PAX-4-4" "planet_beta" 125] ]}.

Definition crowded : World :=
  Example.world (Example.shipWith "planet_prime" 30 600 aboard) offers.

End CapacityExample.

(** ** Stored heat *)

Inductive HeatMap := SourceHeat | DestHeat.

Definition heatMap (k : HeatMap) (w : World) : gmap string (gmap string Q) :=
  match k with
  | SourceHeat => MarketState.SourceHeat (Market w)
  | DestHeat => MarketState.DestHeat (Market w)
  end.

(** The value stored for (location, commodity), if any. *)
Definition stored (k : HeatMap) (w : World) (pKey cKey : string) : option Q :=
  match heatMap k w !! pKey with
  | None => None
  | Some commodities => commodities !! cKey
  end.


Module HeatExample.

(** Ore is scarce at Prime: source heat 1.2, everything else neutral. *)
Definition hotMarket : MarketState.t :=
  MarketState.mk
    {[ "planet_prime" := {[ "ore" := 12 # 10 ]}; "planet_beta" := {[ "ore" := 1%Q ]} ]}
    Example.neutral.

Definition hot : World :=
  mkWorld Example.universe (Example.shipWith "planet_prime" 0 500 []) ∅ hotMarket.

End HeatExample.

(** ** What a broadcast does to one queue *)

Module HubSpec.

(** Every registered client owns an open queue. *)
Definition registered_open (h : Hub.t) : Prop :=
  forall client, client ∈ Hub.clients h ->
    exists ch, Hub.chans h !! client = Some ch /\ Hub.closed ch = false.

Definition has_space (ch : Hub.Chan) : Prop :=
  (length (Hub.buf ch) < Hub.cap ch)%nat.

(** The queue after receiving [message]. *)
Definition received (message : list Byte.byte) (ch : Hub.Chan) : Hub.Chan :=
  Hub.mkChan (Hub.buf ch ++ [message]) false (Hub.cap ch).

(** The queue closed with its pending messages untouched. *)
Definition shut (ch : Hub.Chan) : Hub.Chan :=
  Hub.mkChan (Hub.buf ch) true (Hub.cap ch).

End HubSpec.

Module HubExample.

Definition hello : list Byte.byte := [Byte.x68; Byte.x69].

Definition idle : Hub.Chan := Hub.mkChan [] false 256.
Definition busy : Hub.Chan := Hub.mkChan [hello] false 256.
Definition stuck : Hub.Chan := Hub.mkChan (replicate 256 hello) false 256.

(** Four registered observers; the queue of the fourth is full. *)
Definition hub : Hub.t :=
  Hub.mk {[ 1%nat; 2%nat; 3%nat; 4%nat ]}
         {[ 1%nat := idle; 2%nat := busy; 3%nat := idle; 4%nat := stuck ]}.

End HubExample.

(** ** Board counts around a replenishment *)

(** The offers at a location key in a board map. *)
Definition offers (boards : gmap string (list Contract.t)) (key : string)
    : list Contract.t :=
  default [] (boards !! key).

(** Board targets of realistic magnitude: within 2^31 of zero. *)
Definition TargetsFit (p : Planet.t) : Prop :=
  Forall (fun t => - 2 ^ 31 <= t <= 2 ^ 31)
         [fst (cargoTargets p); snd (cargoTargets p);
          fst (passengerTargets p); snd (passengerTargets p)].

(** What one replenishment does to the counts at planet [p], from board map
    [b] to board map [b']: a count at or above its minimum is unchanged; a
    passenger count below its minimum ends within the targets; a cargo count
    below its minimum does not shrink and ends at or below the maximum. *)
Definition Replenished (p : Planet.t)
    (b b' : gmap string (list Contract.t)) : Prop :=
  let before ty := countType ty (offers b (Planet.Key p)) in
  let after ty := countType ty (offers b' (Planet.Key p)) in
  (fst (cargoTargets p) <= before "cargo" -> after "cargo" = before "cargo")
  /\ (before "cargo" < fst (cargoTargets p) ->
      before "cargo" <= after "cargo" <= snd (cargoTargets p))
  /\ (fst (passengerTargets p) <= before "passenger" ->
      after "passenger" = before "passenger")
  /\ (before "passenger" < fst (passengerTargets p) ->
      fst (passengerTargets p) <= after "passenger" <= snd (passengerTargets p)).

(** A universe in which the generator can run to completion: there is a
    commodity to pick, every planet has a destination with another key, and
    no planet's minimum exceeds its maximum. *)
Record Runnable (u : Universe.t) : Prop := {
  run_commodities : Universe.Commodities u <> [];
  run_elsewhere :
    forall p, p ∈ Universe.Planets u ->
      exists q, q ∈ Universe.Planets u /\ Planet.Key q <> Planet.Key p;
  run_targets :
    Forall (fun p => fst (cargoTargets p) <= snd (cargoTargets p)
                     /\ fst (passengerTargets p) <= snd (passengerTargets p))
           (Universe.Planets u)
}.

(** The computation returns, with a result satisfying [P], on some draws,
    whatever follows them on the tape. *)
Definition RunsTo {A} (c : Gen A) (P : A -> Prop) : Prop :=
  exists pre a, P a /\ forall rest, c (pre ++ rest) = Done (a, rest).

Definition Runs {A} (c : Gen A) : Prop := RunsTo c (fun _ => True).

Module ReplenishExample.

(** Prime wants exactly two cargo offers and one passenger offer; Beta
    wants nothing.  Ore is scarce at Prime (source heat 2.0). *)
Definition prime : Planet.t :=
  Planet.mk "planet_prime" "Prime" [0; 0] ["ore"] [] 2 2 1 1.
Definition beta : Planet.t :=
  Planet.mk "planet_beta" "Beta" [3; 4] [] ["ore"] 0 1 0 1.

Definition universe : Universe.t :=
  Universe.mk (GameBalance.mk 500 10 1 5) (Example.shipWith "" 0 0 [])
    [Example.ore] [prime; beta] [Example.bay] (PassengerConfig.mk 50 80).

Definition scarce : World :=
  mkWorld universe (Example.shipWith "planet_prime" 0 500 []) ∅
    (MarketState.mk
       {[ "planet_prime" := {[ "ore" := 2%Q ]}; "planet_beta" := {[ "ore" := 1%Q ]} ]}
       Example.neutral).

(** Draws, in order: cargo target; first cargo job (local production, index,
    scarcity roll just below 1: skipped); second cargo job (local production,
    index, scarcity roll 0, destination Beta, quantity 5, id 7, clock 3);
    passenger target, destination Beta, id 8, clock 4. *)
Definition tape : list Z :=
  [0; 0; 0; 2 ^ 53 - 1; 0; 0; 0; 1; 0; 7; 3; 0; 1; 8; 4].

End ReplenishExample.

(** ** Ownership of contracts *)

Module Ownership.

Definition ids (cs : list Contract.t) : list string := Contract.ID <$> cs.

Definition aboard (w : World) : list Contract.t := Ship.ActiveContracts (PlayerShip w).

Definition offered (w : World) (key : string) : list Contract.t :=
  offers (AvailableContracts w) key.

(** No contract of the ship's active set is also on a board. *)
Definition Exclusive (w : World) : Prop :=
  forall c key, c ∈ aboard w -> c ∉ offered w key.

(** Contract ids are unique within the running process: no id occurs twice
    aboard, twice on a board, on two boards, or both aboard and on a board. *)
Record Distinct (w : World) : Prop := {
  distinct_aboard : NoDup (ids (aboard w));
  distinct_board : forall key, NoDup (ids (offered w key));
  distinct_boards :
    forall k1 k2 id, k1 <> k2 -> id ∈ ids (offered w k1) -> id ∉ ids (offered w k2);
  distinct_owner :
    forall key id, id ∈ ids (aboard w) -> id ∉ ids (offered w key)
}.

(** The world a replenishment leaves behind, when it returns. *)
Definition replenished (w : World) (tape : list Z) : option World :=
  match ReplenishMarket w tape with
  | Done (_, w', _) => Some w'
  | _ => None
  end.

End Ownership.

Module OwnershipExample.

(** Prime wants exactly one passenger offer and no cargo; Beta wants
    nothing. *)
Definition prime : Planet.t :=
  Planet.mk "planet_prime" "Prime" [0; 0] ["ore"] [] 0 1 1 1.

Definition universe : Universe.t :=
  Universe.mk (GameBalance.mk 500 10 1 5) (Example.shipWith "" 0 0 [])
    [Example.ore] [prime; ReplenishExample.beta] [Example.bay]
    (PassengerConfig.mk 50 80).

(** A fresh game: nothing aboard, nothing offered. *)
Definition fresh : World :=
  mkWorld universe (Example.shipWith "planet_prime" 0 500 []) ∅ Example.market.

(** Draws, in order: passenger target, destination Beta, id 7, clock 3. *)
Definition tape : list Z := [0; 1; 7; 3].

Definition passenger : Contract.t :=
  Contract.mk "PAX-7-3" "passenger" "Passenger" "passenger" 1 80
    "planet_prime" "planet_beta" 125.

(** Docked at Prime with ten units of cargo aboard; the board offers a
    passenger and five units of cargo. *)
Definition docked : World :=
  Example.world
    (Example.shipWith "planet_prime" 30 600 [Example.cargo "CRG-1-1" 10 "planet_beta" 100])
    {[ "planet_prime" := [Example.pax "PAX-4-4" "planet_beta" 125;
                          Example.cargo "CRG-9-9" 5 "planet_beta" 70] ]}.

End OwnershipExample.

(** ** The read-only endpoints (handlers.go)

    Each returns the value it hands to the JSON encoder; the world is only
    read, under the shared lock.  A nil slice and an empty slice are both
    the empty list. *)

Definition HandleGetPlanets (w : World) : list Planet.t :=
  Universe.Planets (CurrentUniverse w).

Definition HandleGetShip (w : World) : Ship.t := PlayerShip w.

(** Only the board of the planet the ship is on. *)
Definition HandleGetContracts (w : World) : list Contract.t :=
  let location := Ship.LocationKey (PlayerShip w) in
  board w location.

(** The catalog of modules, but only at planet_prime. *)
Definition HandleGetModules (w : World) : list ShipModule.t :=
  if negb (bool_decide (Ship.LocationKey (PlayerShip w) = "planet_prime"))
  then []
  else Universe.ShipModules (CurrentUniverse w).

(** ** Requests over time *)

(** Requests served one after another, each under the state lock.  A
    handler that panics has changed nothing and released the lock, and the
    server goes on with the next request. *)
Definition serveAll (rs : list Request) (w : World) : World :=
  fold_left (fun w r => snd (serve r w)) rs w.

(** The ship with another list of active contracts and nothing else
    changed. *)
Definition withActiveContracts (s : Ship.t) (active : list Contract.t) : Ship.t :=
  Ship.mk (Ship.Name s) (Ship.LocationKey s) (Ship.Credits s) (Ship.Fuel s)
    (Ship.MaxFuel s) (Ship.BaseBurnRate s) (Ship.BurnDamping s) (Ship.BaseMass s)
    (Ship.CargoCapacity s) (Ship.PassengerSlots s) (Ship.MaxModuleSlots s)
    (Ship.InstalledModules s) active.

(** [c] is at index [i] of [cs], has the id, and no earlier entry has it. *)
Definition firstWithID (id : string) (cs : list Contract.t) (i : nat) (c : Contract.t)
    : Prop :=
  cs !! i = Some c /\ Contract.ID c = id
  /\ forall j c', (j < i)%nat -> cs !! j = Some c' -> Contract.ID c' <> id.

Module ShopExample.

(** Docked at Prime with 500 credits, half a tank and two free module
    slots. *)
Definition rich : World :=
  Example.world (Example.shipWith "planet_prime" 500 500 []) ∅.

(** The same ship with 150 credits. *)
Definition modest : World :=
  Example.world (Example.shipWith "planet_prime" 150 500 []) ∅.

End ShopExample.

(** ** Heat bookkeeping *)

(** A nested read of one heat map. *)
Definition heatIn (heat : gmap string (gmap string Q)) (pKey cKey : string) : option Q :=
  match heat !! pKey with
  | None => None
  | Some commodities => commodities !! cKey
  end.

(** Total quantity of one item among contracts. *)
Definition deliveredQuantity (item : string) (cs : list Contract.t) : Z :=
  Zsum (map Contract.Quantity (filter (fun c => Contract.ItemKey c = item) cs)).

(** ** Start-up and reload (economy.go, state.go) *)

(** [heat[pKey][cKey] = v], on an inner map that exists: [InitMarket] has
    made it just before. *)
Definition setHeat (heat : gmap string (gmap string Q))
    (pKey cKey : string) (v : Q) : gmap string (gmap string Q) :=
  alter (insert cKey v) pKey heat.

(** The body of the planet loop of [InitMarket]: both heat maps get a fresh
    inner map for the planet, then 1.0 for every commodity. *)
Definition initPlanet (commodities : list Commodity.t)
    (m : MarketState.t) (p : Planet.t) : MarketState.t :=
  fold_left
    (fun m c =>
       MarketState.mk
         (setHeat (MarketState.SourceHeat m) (Planet.Key p) (Commodity.Key c) 1)
         (setHeat (MarketState.DestHeat m) (Planet.Key p) (Commodity.Key c) 1))
    commodities
    (MarketState.mk (<[Planet.Key p := ∅]> (MarketState.SourceHeat m))
                    (<[Planet.Key p := ∅]> (MarketState.DestHeat m))).

Definition InitMarket (w : World) : World :=
  let u := CurrentUniverse w in
  mkWorld u (PlayerShip w) (AvailableContracts w)
    (fold_left (initPlanet (Universe.Commodities u)) (Universe.Planets u) (Market w)).

(** [LoadConfig].  Reading and parsing universe.yaml is the environment's
    part: [parsed] is [None] when the file cannot be read or is not a valid
    universe, and the function then returns the error before it has touched
    a global.  The boolean is [true] for a nil error.  Seeding [math/rand]
    has no counterpart here: the draws are the tape's. *)
Definition LoadConfig (parsed : option Universe.t) (w : World) : bool * World :=
  match parsed with
  | None => (false, w)
  | Some newUni =>
      let w1 :=
        InitMarket (mkWorld newUni (PlayerShip w) (AvailableContracts w) (Market w)) in
      if bool_decide (Ship.LocationKey (PlayerShip w1) = "")
      then
        let cfg := Universe.PlayerShipConfig newUni in
        let ship :=
          Ship.mk (Ship.Name cfg) "planet_prime"
            (GameBalance.StartingCredits (Universe.BalanceConfig newUni))
            (Ship.MaxFuel cfg) (Ship.MaxFuel cfg) (Ship.BaseBurnRate cfg)
            (Ship.BurnDamping cfg) (Ship.BaseMass cfg) (Ship.CargoCapacity cfg)
            (Ship.PassengerSlots cfg) (Ship.MaxModuleSlots cfg) [] [] in
        (true, setShip w1 ship)
      else (true, w1)
  end.

(** The inner heat map of a planet after [InitMarket]. *)
Definition neutralHeat (commodities : list Commodity.t) : gmap string Q :=
  fold_left (fun inner c => <[Commodity.Key c := 1%Q]> inner) commodities ∅.

(** The ship of a new game: the configured ship with a full tank, docked at
    planet_prime, with the starting credits and nothing aboard or
    installed. *)
Definition newGameShip (u : Universe.t) : Ship.t :=
  let cfg := Universe.PlayerShipConfig u in
  Ship.mk (Ship.Name cfg) "planet_prime"
    (GameBalance.StartingCredits (Universe.BalanceConfig u))
    (Ship.MaxFuel cfg) (Ship.MaxFuel cfg) (Ship.BaseBurnRate cfg)
    (Ship.BurnDamping cfg) (Ship.BaseMass cfg) (Ship.CargoCapacity cfg)
    (Ship.PassengerSlots cfg) (Ship.MaxModuleSlots cfg) [] [].

Module BootExample.

(** A catalog whose two planets are Alpha and Beta: none is called
    planet_prime. *)
Definition alpha : Planet.t :=
  Planet.mk "planet_alpha" "Alpha" [0; 0] ["ore"] [] 1 2 1 1.

Definition universe : Universe.t :=
  Universe.mk (GameBalance.mk 500 10 1 5) (Example.shipWith "" 0 0 [])
    [Example.ore] [alpha; Example.beta] [Example.bay] (PassengerConfig.mk 50 80).

(** The process before the first [LoadConfig]: zero values everywhere. *)
Definition zero : World :=
  mkWorld (Universe.mk (GameBalance.mk 0 0 0 0)
             (Ship.mk "" "" 0 0 0 0 0 0 0 0 0 [] []) [] [] [] (PassengerConfig.mk 0 0))
          (Ship.mk "" "" 0 0 0 0 0 0 0 0 0 [] []) ∅ (MarketState.mk ∅ ∅).

End BootExample.

(** ** Generated offers *)

(** An id as [fmt.Sprintf("<prefix>-%d-%d", rand.Intn(99999),
    time.Now().UnixNano()%1000)] makes it. *)
Definition issuedID (prefix : string) (id : string) : Prop :=
  exists n t, 0 <= n < 99999 /\ 0 <= t < 1000
    /\ id = prefix +:+ pretty n +:+ "-" +:+ pretty t.

(** What the generator promises of a contract it puts on the board of the
    planet with key [key]: it starts there and goes to another planet of
    the catalog; a cargo contract carries 5 to 25 units of a commodity of
    the catalog and has a CRG id, a passenger contract carries one
    passenger and has a PAX id. *)
Definition GeneratedAt (u : Universe.t) (key : string) (c : Contract.t) : Prop :=
  Contract.OriginKey c = key
  /\ Contract.DestinationKey c <> key
  /\ Contract.DestinationKey c ∈ Planet.Key <$> Universe.Planets u
  /\ ((Contract.Type_ c = "cargo"
       /\ issuedID "CRG-" (Contract.ID c)
       /\ 5 <= Contract.Quantity c <= 25
       /\ exists comm, comm ∈ Universe.Commodities u
            /\ Contract.ItemKey c = Commodity.Key comm
            /\ Contract.ItemName c = Commodity.Name comm
            /\ Contract.MassPerUnit c = Commodity.Mass comm)
      \/ (Contract.Type_ c = "passenger"
          /\ issuedID "PAX-" (Contract.ID c)
          /\ Contract.Quantity c = 1
          /\ Contract.ItemKey c = "passenger"
          /\ Contract.MassPerUnit c
             = PassengerConfig.MassPerPassenger (Universe.PassengerConfig u))).

(** How a generation step relates two board maps: only the board of [key]
    changes, by generated offers appended to it. *)
Definition appended (u : Universe.t) (key : string)
    (b b' : gmap string (list Contract.t)) (added : list Contract.t) : Prop :=
  (forall other, other <> key -> b' !! other = b !! other)
  /\ offers b' key = offers b key ++ added
  /\ Forall (GeneratedAt u key) added.

(** No commodity is scarce at the planet: every source heat the scarcity
    check can read there is at most 1.5. *)
Definition calmAt (u : Universe.t) (heat : gmap string (gmap string Q)) (key : string)
    : Prop :=
  forall comm, comm ∈ Universe.Commodities u ->
    (heatAt heat key (Commodity.Key comm) <= 3 # 2)%Q.

(** The cargo count at [p] is topped up: from below the minimum it ends
    between the minimum and the maximum. *)
Definition cargoToppedUp (p : Planet.t) (b b' : gmap string (list Contract.t)) : Prop :=
  let before := countType "cargo" (offers b (Planet.Key p)) in
  let after := countType "cargo" (offers b' (Planet.Key p)) in
  before < fst (cargoTargets p) ->
  fst (cargoTargets p) <= after <= snd (cargoTargets p).

Module CalmExample.

(** The catalog of [ReplenishExample] with a neutral market: Prime wants
    exactly two cargo offers and one passenger offer. *)
Definition calm : World :=
  mkWorld ReplenishExample.universe (Example.shipWith "planet_prime" 0 500 []) ∅
    Example.market.

(** Draws, in order: cargo target; two cargo jobs (local production, index,
    destination Beta, quantity, id, clock); passenger target, destination
    Beta, id, clock. *)
Definition tape : list Z :=
  [0; 0; 0; 1; 0; 7; 3; 0; 0; 1; 20; 9; 5; 0; 1; 8; 4].

End CalmExample.

(** ** The hub over time (hub.go) *)

(** [NewHub]: no client is registered. *)
Definition NewHub : Hub.t := Hub.mk ∅ ∅.

(** What reaches the event loop: a connection accepted by [ServeWs], the
    unregister that a client's [readPump] sends when its connection ends, or
    a message on the [Broadcast] channel. *)
Inductive HubInput :=
  | Connect (client : nat)
  | Disconnect (client : nat)
  | Publish (message : list Byte.byte).

Definition hubStep (i : HubInput) (h : Hub.t) : option Hub.t :=
  match i with
  | Connect client => Hub.ServeWs client h
  | Disconnect client => Hub.Run (Hub.Unregister client) h
  | Publish message => Hub.Run (Hub.Broadcast message) h
  end.

(** The loop of [Hub.Run] over a sequence of inputs; [None] is a panic of
    the hub goroutine. *)
Fixpoint hubRun (inputs : list HubInput) (h : Hub.t) : option Hub.t :=
  match inputs with
  | [] => Some h
  | i :: rest =>
      match hubStep i h with
      | None => None
      | Some h' => hubRun rest h'
      end
  end.

(** Queues and registration agree: every registered client owns a queue,
    and a queue is open exactly while its client is registered. *)
Definition tracked (h : Hub.t) : Prop :=
  (forall client, client ∈ Hub.clients h -> is_Some (Hub.chans h !! client))
  /\ forall client ch, Hub.chans h !! client = Some ch ->
       (client ∈ Hub.clients h <-> Hub.closed ch = false).

Module LonelyExample.

(** A catalog with Prime alone: it wants one passenger offer, and there is
    nowhere to send a passenger. *)
Definition universe : Universe.t :=
  Universe.mk (GameBalance.mk 500 10 1 5) (Example.shipWith "" 0 0 [])
    [Example.ore] [OwnershipExample.prime] [Example.bay] (PassengerConfig.mk 50 80).

Definition lonely : World :=
  mkWorld universe (Example.shipWith "planet_prime" 0 500 []) ∅ Example.market.

End LonelyExample.

(** * Properties *)

(** ** 64-bit arithmetic *)

Lemma wrap_in_range z : Int64.in_range z -> Int64.wrap z = z.
Proof.
  unfold Int64.in_range, Int64.wrap, Int64.min_int, Int64.max_int.
  intros H. rewrite Z.mod_small; lia.
Qed.

Lemma add_exact a b : Int64.in_range (a + b) -> Int64.add a b = a + b.
Proof. apply wrap_in_range. Qed.

Lemma sub_exact a b : Int64.in_range (a - b) -> Int64.sub a b = a - b.
Proof. apply wrap_in_range. Qed.

(** ** Distance *)

(** The integer formula of [CalculateDistance] is rounding to nearest: the
    result [k] for a squared distance [n] satisfies k − 1/2 <= sqrt n <
    k + 1/2, that is (2k−1)^2 <= 4n (when k is positive) and
    4n < (2k+1)^2. *)
Lemma round_sqrt_nearest (n : Z) :
  0 <= n ->
  let k := (Z.sqrt (4 * n) + 1) / 2 in
  0 <= k
  /\ (0 < k -> (2 * k - 1) * (2 * k - 1) <= 4 * n)
  /\ 4 * n < (2 * k + 1) * (2 * k + 1).
Proof.
  intros Hn k. pose proof (Z.sqrt_spec (4 * n) ltac:(lia)) as Hs.
  pose proof (Z.sqrt_nonneg (4 * n)) as H0. unfold Z.succ in Hs.
  set (s := Z.sqrt (4 * n)) in *.
  pose proof (Z.div_mod (s + 1) 2 ltac:(lia)) as Hd.
  pose proof (Z.mod_pos_bound (s + 1) 2 ltac:(lia)) as Hm.
  fold k in Hd. assert (Hk : 0 <= k) by (apply Z.div_pos; lia).
  split; [exact Hk|]. assert (Hcase : s = 2 * k - 1 \/ s = 2 * k) by lia.
  destruct Hcase as [E|E]; rewrite E in Hs; split; try intros Hpos; nia.
Qed.

Lemma CalculateDistance_rounds (x1 y1 x2 y2 : Z) :
  Forall (fun c => Z.abs c <= 2 ^ 30) [x1; y1; x2; y2] ->
  let n := (x2 - x1) * (x2 - x1) + (y2 - y1) * (y2 - y1) in
  let k := CalculateDistance [x1; y1] [x2; y2] in
  0 <= k
  /\ (0 < k -> (2 * k - 1) * (2 * k - 1) <= 4 * n)
  /\ 4 * n < (2 * k + 1) * (2 * k + 1).
Proof.
  intros Hc n k.
  apply Forall_cons in Hc as [H1 Hc]. apply Forall_cons in Hc as [H2 Hc].
  apply Forall_cons in Hc as [H3 Hc]. apply Forall_cons in Hc as [H4 _].
  cbv beta in H1, H2, H3, H4.
  assert (Hx : - 2 ^ 31 <= x2 - x1 <= 2 ^ 31) by lia.
  assert (Hy : - 2 ^ 31 <= y2 - y1 <= 2 ^ 31) by lia.
  assert (Hsq : forall d, - 2 ^ 31 <= d <= 2 ^ 31 -> 0 <= d * d <= 2 ^ 62).
  { intros d Hd. split; [apply Z.square_nonneg|].
    rewrite <- Z.abs_square. change (2 ^ 62) with (2 ^ 31 * 2 ^ 31).
    apply Z.mul_le_mono_nonneg; lia. }
  pose proof (Hsq _ Hx) as Hx2. pose proof (Hsq _ Hy) as Hy2.
  assert (Hn : 0 <= n <= 2 ^ 63) by (unfold n; lia).
  pose proof (round_sqrt_nearest n ltac:(lia)) as Hr. cbv zeta in Hr.
  assert (Hs : Z.sqrt (4 * n) <= 2 ^ 33).
  { change (2 ^ 33) with (Z.sqrt (2 ^ 66)). apply Z.sqrt_le_mono. lia. }
  pose proof (Z.sqrt_nonneg (4 * n)) as Hs0.
  assert (Hk : k = (Z.sqrt (4 * n) + 1) / 2).
  { unfold k, CalculateDistance.
    rewrite !sub_exact
      by (unfold Int64.in_range, Int64.min_int, Int64.max_int; lia).
    fold n. apply wrap_in_range.
    assert (0 <= (Z.sqrt (4 * n) + 1) / 2 <= 2 ^ 33).
    { split; [apply Z.div_pos; lia|]. apply Z.div_le_upper_bound; lia. }
    unfold Int64.in_range, Int64.min_int, Int64.max_int. lia. }
  rewrite Hk. exact Hr.
Qed.

Lemma CalculateDistance_example : CalculateDistance [0; 0] [3; 4] = 5.
Proof. reflexivity. Qed.

(** ** Mass and burn rate *)

Lemma Zsum_nonneg (l : list Z) : Forall (fun x => 0 <= x) l -> 0 <= Zsum l.
Proof. induction 1; simpl; lia. Qed.

Lemma Zsum_elem_le (l : list Z) (x : Z) :
  Forall (fun y => 0 <= y) l -> In x l -> x <= Zsum l.
Proof.
  induction 1 as [|y l Hy Hl IH]; simpl; [tauto|].
  pose proof (Zsum_nonneg l Hl). unfold Zsum in *.
  intros [->|Hin]; [lia|]. specialize (IH Hin). lia.
Qed.

Lemma fold_add_exact {A} (f : A -> Z) (l : list A) (a : Z) :
  0 <= a ->
  Forall (fun x => 0 <= f x) l ->
  a + Zsum (map f l) <= Int64.max_int ->
  fold_left (fun acc x => Int64.add acc (f x)) l a = a + Zsum (map f l).
Proof.
  intros Ha Hl. revert a Ha. induction Hl as [|x l Hx Hl IH]; intros a Ha Hb; simpl in *.
  - lia.
  - assert (0 <= Zsum (map f l)).
    { apply Zsum_nonneg. apply Forall_map. exact Hl. }
    assert (Hw : Int64.add a (f x) = a + f x).
    { apply wrap_in_range. unfold Int64.in_range, Int64.min_int, Int64.max_int in *. lia. }
    rewrite Hw, IH; lia.
Qed.

Lemma fold_left_ext_in {A B} (f g : B -> A -> B) (l : list A) (b : B) :
  (forall acc x, In x l -> f acc x = g acc x) ->
  fold_left f l b = fold_left g l b.
Proof.
  revert b. induction l as [|x l IH]; intros b H; simpl; [reflexivity|].
  rewrite H by (left; reflexivity). apply IH. intros; apply H; right; assumption.
Qed.

Lemma mass_split (pm : Z) (l : list Contract.t) :
  Forall (fun c => Contract.Type_ c = "cargo" \/ Contract.Type_ c = "passenger") l ->
  Zsum (map (fun c => if bool_decide (Contract.Type_ c = "cargo")
                      then Contract.MassPerUnit c * Contract.Quantity c
                      else pm * Contract.Quantity c) l)
  = Zsum (map (fun c => Contract.MassPerUnit c * Contract.Quantity c)
              (filter (fun c => Contract.Type_ c = "cargo") l))
    + Zsum (map (fun c => pm * Contract.Quantity c)
                (filter (fun c => Contract.Type_ c = "passenger") l)).
Proof.
  induction 1 as [|c l Hc Hl IH]; [reflexivity|].
  rewrite !filter_cons. cbn [map Zsum foldr].
  change (foldr Z.add 0) with Zsum. rewrite IH.
  destruct Hc as [Hc|Hc]; rewrite Hc;
    repeat (case_bool_decide || case_decide); try congruence;
    cbn [map Zsum foldr]; change (foldr Z.add 0) with Zsum; lia.
Qed.

Lemma quot_abs_le a b : b <> 0 -> Z.abs (Z.quot a b) <= Z.abs a.
Proof.
  intros Hb. rewrite <- Z.quot_abs by exact Hb.
  assert (0 < Z.abs b) by lia.
  apply Z.quot_le_upper_bound; [lia|]. nia.
Qed.

Lemma CalculateCurrentBurn_exact (w : World) :
  BurnFits w -> CalculateCurrentBurn w = Some (Spec.currentBurnRate w).
Proof.
  intros [Hty Hc Hpm Hbase Hfuel Htank Hfm Htot Href Hdamp Hburn].
  set (u := CurrentUniverse w) in *. set (s := PlayerShip w) in *.
  set (pm := PassengerConfig.MassPerPassenger (Universe.PassengerConfig u)) in *.
  set (exact := fun c : Contract.t =>
         if bool_decide (Contract.Type_ c = "cargo")
         then Contract.MassPerUnit c * Contract.Quantity c
         else pm * Contract.Quantity c).
  assert (Hnn : Forall (fun c => 0 <= exact c) (Ship.ActiveContracts s)).
  { eapply Forall_impl; [exact Hc|]. intros c [Hq Hm]. unfold exact.
    case_bool_decide; nia. }
  assert (Hsplit : Zsum (map exact (Ship.ActiveContracts s))
                   = Spec.cargoMass w + Spec.passengerMass w).
  { unfold exact. rewrite mass_split by exact Hty. reflexivity. }
  assert (Hfuelnn : 0 <= Ship.Fuel s * Spec.fuelMassPerUnit w) by nia.
  assert (Hsum : 0 <= Zsum (map exact (Ship.ActiveContracts s))).
  { apply Zsum_nonneg, Forall_map. exact Hnn. }
  unfold Spec.totalMass in Htot. fold s in Htot.
  assert (Hmass : CalculateTotalMass w = Spec.totalMass w).
  { unfold CalculateTotalMass. fold u s.
    rewrite (fold_left_ext_in _ (fun acc c => Int64.add acc (exact c))).
    - rewrite fold_add_exact; [| lia | exact Hnn | lia].
      unfold Int64.mul, Int64.add.
      change (GameBalance.FuelMassPerUnit (Universe.BalanceConfig u))
        with (Spec.fuelMassPerUnit w).
      rewrite (wrap_in_range (Ship.Fuel s * _)).
      + rewrite wrap_in_range.
        * unfold Spec.totalMass. fold s. lia.
        * unfold Int64.in_range, Int64.min_int. lia.
      + unfold Int64.in_range, Int64.min_int. lia.
    - intros acc c Hin. f_equal. unfold contractMass, exact. fold pm.
      assert (Hle : exact c <= Zsum (map exact (Ship.ActiveContracts s))).
      { apply Zsum_elem_le; [apply Forall_map; exact Hnn | apply in_map; exact Hin]. }
      assert (He : 0 <= exact c).
      { rewrite Forall_forall in Hnn. apply Hnn. apply list_elem_of_In. exact Hin. }
      assert (Hub : exact c <= Int64.max_int) by lia. clear Hle.
      unfold exact in Hub, He. unfold Int64.mul.
      destruct (bool_decide (Contract.Type_ c = "cargo")); apply wrap_in_range;
        unfold Int64.in_range, Int64.min_int; lia. }
  unfold CalculateCurrentBurn. rewrite Hmass. fold u s.
  change (GameBalance.FuelMassPerUnit (Universe.BalanceConfig u))
    with (Spec.fuelMassPerUnit w).
  assert (Hhalf : 0 <= Z.quot (Ship.MaxFuel s) 2) by (apply Z.quot_pos; lia).
  unfold Spec.referenceMass in Href. fold s in Href.
  assert (Hhm : Int64.mul (Z.quot (Ship.MaxFuel s) 2) (Spec.fuelMassPerUnit w)
                = Z.quot (Ship.MaxFuel s) 2 * Spec.fuelMassPerUnit w).
  { apply wrap_in_range. unfold Int64.in_range, Int64.min_int. nia. }
  rewrite Hhm.
  assert (Hrm : Int64.add (Ship.BaseMass s)
                  (Z.quot (Ship.MaxFuel s) 2 * Spec.fuelMassPerUnit w)
                = Spec.referenceMass w).
  { unfold Spec.referenceMass. fold s. apply wrap_in_range.
    unfold Int64.in_range, Int64.min_int. nia. }
  rewrite Hrm.
  assert (Htot0 : 0 <= Spec.totalMass w <= Int64.max_int).
  { unfold Spec.totalMass. fold s. lia. }
  assert (Href0 : 0 <= Spec.referenceMass w <= Int64.max_int).
  { unfold Spec.referenceMass. fold s. nia. }
  assert (Hd : Int64.sub (Spec.totalMass w) (Spec.referenceMass w)
               = Spec.totalMass w - Spec.referenceMass w).
  { apply wrap_in_range. unfold Int64.in_range, Int64.min_int, Int64.max_int in *. lia. }
  rewrite Hd. unfold Int64.div.
  destruct (Z.eqb_spec (Ship.BurnDamping s) 0) as [?|_]; [contradiction|].
  pose proof (quot_abs_le (Spec.totalMass w - Spec.referenceMass w)
                (Ship.BurnDamping s) Hdamp) as Hq.
  rewrite (wrap_in_range (Z.quot _ _)).
  2:{ unfold Int64.in_range, Int64.min_int, Int64.max_int in *. lia. }
  unfold Int64.add. rewrite !(wrap_in_range _ Hburn).
  unfold Spec.currentBurnRate. fold s.
  destruct (Z.ltb_spec (Ship.BaseBurnRate s
             + Z.quot (Spec.totalMass w - Spec.referenceMass w) (Ship.BurnDamping s)) 100);
    f_equal; lia.
Qed.

Lemma CalculateCurrentBurn_floor (w : World) :
  Ship.BurnDamping (PlayerShip w) <> 0 ->
  exists burn, CalculateCurrentBurn w = Some burn /\ 100 <= burn.
Proof.
  intros Hd. unfold CalculateCurrentBurn, Int64.div.
  destruct (Z.eqb_spec (Ship.BurnDamping (PlayerShip w)) 0) as [?|_]; [contradiction|].
  match goal with |- context [if ?x <? 100 then _ else _] =>
    destruct (Z.ltb_spec x 100); eexists; split; try reflexivity; lia end.
Qed.

Lemma BurnFits_loaded : BurnFits Example.loaded.
Proof.
  constructor; simpl;
    repeat (apply Forall_cons; split); try apply Forall_nil;
    try (left; reflexivity); try (right; reflexivity);
    try (vm_compute; intuition discriminate).
Qed.

(** C6. Whenever the ship's burn damping is not zero, [CalculateCurrentBurn]
    returns a burn rate of at least 100, so never zero or negative; on every
    state whose masses are 64-bit values that rate is
    baseBurnRate + (totalMass − referenceMass)/burnDamping clamped below at
    100, with referenceMass = baseMass + (maxFuel/2)·fuelMassPerUnit and
    totalMass = baseMass + Σ cargo mass + Σ passenger mass +
    fuel·fuelMassPerUnit.  The reference ship at half fuel with no contracts
    burns exactly 100. *)
Theorem burn_rate_formula_and_floor (w : World) :
  Ship.BurnDamping (PlayerShip w) <> 0 ->
  (exists burn,
      CalculateCurrentBurn w = Some burn
      /\ 100 <= burn
      /\ (BurnFits w -> burn = Spec.currentBurnRate w))
  /\ CalculateCurrentBurn Example.halfFuel = Some 100.
Proof.
  intros Hd. split; [|reflexivity].
  destruct (CalculateCurrentBurn_floor w Hd) as (burn & Hb & Hle).
  exists burn. repeat split; [exact Hb | exact Hle |].
  intros Hfits. pose proof (CalculateCurrentBurn_exact w Hfits) as He.
  congruence.
Qed.

Lemma burn_rate_formula_and_floor_witness :
  Ship.BurnDamping (PlayerShip Example.loaded) <> 0
  /\ BurnFits Example.loaded
  /\ CalculateCurrentBurn Example.loaded = Some (Spec.currentBurnRate Example.loaded)
  /\ Spec.currentBurnRate Example.loaded = 100.
Proof.
  assert (Hd : Ship.BurnDamping (PlayerShip Example.loaded) <> 0) by discriminate.
  split; [exact Hd|]. split; [exact BurnFits_loaded|]. split; [|reflexivity].
  destruct (burn_rate_formula_and_floor Example.loaded Hd)
    as ((burn & Hb & _ & Hf) & _).
  rewrite Hb. f_equal. apply Hf. exact BurnFits_loaded.
Defined.

(** ** Travel *)

Lemma GetPlanet_Key (u : Universe.t) (key : string) (p : Planet.t) :
  GetPlanet u key = Some p -> Planet.Key p = key.
Proof.
  unfold GetPlanet. intros H. apply find_some in H as [_ H].
  apply bool_decide_eq_true in H. exact H.
Qed.

Lemma deliver_acc (location : string) (active : list Contract.t)
    (r0 : list Contract.t) (p0 : Z) (m0 : MarketState.t) :
  fold_left (fun acc c =>
               let '(remaining, payoutTotal, mk) := acc in
               if bool_decide (Contract.DestinationKey c = location)
               then (remaining, Int64.add payoutTotal (Contract.Payout c),
                     RecordDelivery mk (Contract.DestinationKey c)
                       (Contract.ItemKey c) (Contract.Quantity c))
               else (remaining ++ [c], payoutTotal, mk))
            active (r0, p0, m0)
  = (r0 ++ Delivery.remaining location active,
     fold_left (fun acc c => Int64.add acc (Contract.Payout c))
               (Delivery.delivered location active) p0,
     Delivery.recorded (Delivery.delivered location active) m0).
Proof.
  revert r0 p0 m0. induction active as [|c active IH]; intros r0 p0 m0.
  - simpl. rewrite app_nil_r. reflexivity.
  - cbn [fold_left]. unfold Delivery.remaining, Delivery.delivered in *.
    rewrite !filter_cons.
    case_bool_decide as Hc; repeat case_decide; try contradiction; rewrite IH.
    + reflexivity.
    + rewrite <- app_assoc. reflexivity.
Qed.

Lemma deliver_spec (location : string) (active : list Contract.t) (m : MarketState.t) :
  deliver location active m
  = (Delivery.remaining location active,
     fold_left (fun acc c => Int64.add acc (Contract.Payout c))
               (Delivery.delivered location active) 0,
     Delivery.recorded (Delivery.delivered location active) m).
Proof. unfold deliver. rewrite deliver_acc. reflexivity. Qed.

(** C2. A travel request to a known destination, from a known location and
    with a burn rate [burn] (the journey's arithmetic being exact): when the
    fuel is below distance × burn the world is returned unchanged with
    "Insufficient Fuel" (402, a failed precondition); otherwise the fuel is
    debited by exactly distance × burn, the ship is at the destination, the
    payout of every active contract bound for it is credited, those contracts
    leave the active list while all others stay aboard in order, and
    [RecordDelivery] is applied once for each delivered contract.  Boards and
    universe are untouched. *)
Theorem travel_spec (w : World) (key : string) (dest current : Planet.t) (burn : Z) :
  let u := CurrentUniverse w in
  let ship := PlayerShip w in
  let dist := CalculateDistance (Planet.Coordinates current) (Planet.Coordinates dest) in
  let active := Ship.ActiveContracts ship in
  GetPlanet u key = Some dest ->
  GetPlanet u (Ship.LocationKey ship) = Some current ->
  CalculateCurrentBurn w = Some burn ->
  TravelFits w dist burn key ->
  (Ship.Fuel ship < dist * burn ->
     HandleTravel (Some key) w
     = (RespError "Insufficient Fuel for current mass" StatusPaymentRequired, w)
     /\ classify (fst (HandleTravel (Some key) w)) = Some PreconditionFailed)
  /\ (dist * burn <= Ship.Fuel ship ->
      exists ship',
        HandleTravel (Some key) w
        = (RespShip ship',
           mkWorld u ship' (AvailableContracts w)
             (Delivery.recorded (Delivery.delivered key active) (Market w)))
        /\ Ship.Fuel ship' = Ship.Fuel ship - dist * burn
        /\ Ship.LocationKey ship' = key
        /\ Ship.Credits ship'
           = Ship.Credits ship + Delivery.payouts (Delivery.delivered key active)
        /\ Ship.ActiveContracts ship' = Delivery.remaining key active).
Proof.
  intros u ship dist active Hdest Hcur Hburn [Hcost Hfuel Hpay [Hcred Hsum]].
  fold ship active in Hfuel, Hpay, Hcred, Hsum.
  pose proof (GetPlanet_Key _ _ _ Hdest) as Hkey.
  assert (Hneed : Int64.mul dist burn = dist * burn).
  { apply wrap_in_range. unfold Int64.in_range, Int64.min_int. lia. }
  unfold HandleTravel. fold u ship. rewrite Hdest, Hcur. fold dist.
  rewrite Hburn, Hneed. split; intros Hcmp.
  - destruct (Z.ltb_spec (Ship.Fuel ship) (dist * burn)); [split; reflexivity | lia].
  - destruct (Z.ltb_spec (Ship.Fuel ship) (dist * burn)) as [?|_]; [lia|].
    rewrite Hkey. fold active. rewrite deliver_spec.
    rewrite (fold_add_exact Contract.Payout) by (try exact Hpay; unfold Delivery.payouts in Hsum; lia).
    rewrite Z.add_0_l. fold (Delivery.payouts (Delivery.delivered key active)).
    pose proof (Zsum_nonneg _ (proj2 (Forall_map _ _ _) Hpay)) as Hnn.
    fold (Delivery.payouts (Delivery.delivered key active)) in Hnn.
    eexists. split; [reflexivity|]. cbn [Ship.Fuel Ship.LocationKey Ship.Credits Ship.ActiveContracts].
    repeat split.
    + apply wrap_in_range. unfold Int64.in_range, Int64.min_int, Int64.max_int in *. lia.
    + apply wrap_in_range. unfold Int64.in_range, Int64.min_int, Int64.max_int in *. lia.
Qed.

Lemma travel_spec_witness :
  exists ship',
    HandleTravel (Some "planet_beta") Example.loaded
    = (RespShip ship',
       mkWorld Example.universe ship' ∅
         (Delivery.recorded
            (Delivery.delivered "planet_beta" Example.aboard) Example.market))
    /\ Ship.Fuel ship' = 100
    /\ Ship.LocationKey ship' = "planet_beta"
    /\ Ship.Credits ship' = 255
    /\ Ship.ActiveContracts ship' = [Example.cargo "CRG-2-2" 5 "planet_prime" 40].
Proof.
  destruct (travel_spec Example.loaded "planet_beta" Example.beta Example.alpha 100)
    as [_ H].
  - reflexivity.
  - reflexivity.
  - reflexivity.
  - constructor; simpl.
    + vm_compute. split; discriminate.
    + vm_compute. split; discriminate.
    + repeat constructor; vm_compute; discriminate.
    + vm_compute. split; discriminate.
  - destruct H as (ship' & H1 & H2 & H3 & H4 & H5).
    + vm_compute. discriminate.
    + exists ship'. repeat split; assumption.
Defined.

(** ** Travel from an unknown location *)

(** C9. Travel and travel-quote validate the destination key only.  For a
    request naming a known destination: when the ship's location matches no
    planet both handlers panic on the nil planet (travel leaves the world as
    it was) instead of answering with a classified error; and when the
    location is known (and the burn damping is not zero) neither panics. *)
Theorem travel_panics_when_location_unknown (w : World) (key : string) :
  let u := CurrentUniverse w in
  let ship := PlayerShip w in
  is_Some (GetPlanet u key) ->
  (GetPlanet u (Ship.LocationKey ship) = None ->
     HandleTravel (Some key) w = (RespPanic, w)
     /\ HandleTravelQuote (Some key) w = RespPanic)
  /\ (is_Some (GetPlanet u (Ship.LocationKey ship)) ->
      Ship.BurnDamping ship <> 0 ->
      fst (HandleTravel (Some key) w) <> RespPanic
      /\ HandleTravelQuote (Some key) w <> RespPanic).
Proof.
  intros u ship [dest Hdest]. split.
  - intros Hcur. unfold HandleTravel, HandleTravelQuote. fold u ship.
    rewrite Hdest, Hcur. split; reflexivity.
  - intros [current Hcur] Hd.
    destruct (CalculateCurrentBurn_floor w Hd) as (burn & Hb & _).
    unfold HandleTravel, HandleTravelQuote. fold u ship.
    rewrite Hdest, Hcur, Hb. split.
    + destruct (_ <? _); [discriminate|].
      destruct (deliver _ _ _) as [[? ?] ?]. discriminate.
    + discriminate.
Qed.

Lemma travel_panics_when_location_unknown_witness :
  (HandleTravel (Some "planet_beta") Example.adrift = (RespPanic, Example.adrift)
   /\ HandleTravelQuote (Some "planet_beta") Example.adrift = RespPanic)
  /\ (fst (HandleTravel (Some "planet_beta") Example.loaded) <> RespPanic
      /\ HandleTravelQuote (Some "planet_beta") Example.loaded <> RespPanic).
Proof.
  split.
  - apply (travel_panics_when_location_unknown Example.adrift "planet_beta").
    + exists Example.beta. reflexivity.
    + reflexivity.
  - apply (travel_panics_when_location_unknown Example.loaded "planet_beta").
    + exists Example.beta. reflexivity.
    + exists Example.alpha. reflexivity.
    + discriminate.
Defined.

(** ** Market heat *)

Section Heat.

Local Open Scope Q_scope.

Lemma Qltb_lt x y : Qltb x y = true <-> x < y.
Proof.
  unfold Qltb. rewrite negb_true_iff. split.
  - intros H. apply Qnot_le_lt. intros Hle. apply Qle_bool_iff in Hle. congruence.
  - intros H. destruct (Qle_bool y x) eqn:E; [|reflexivity].
    apply Qle_bool_iff in E. lra.
Qed.

Lemma Qltb_ge x y : Qltb x y = false <-> y <= x.
Proof.
  unfold Qltb. rewrite negb_false_iff. apply Qle_bool_iff.
Qed.

Lemma tickHeat_cases (h : Q) :
  (1 < h /\ tickHeat h = Qmax 1 (h - recoveryRate))
  \/ (h < 1 /\ tickHeat h = Qmin 1 (h + recoveryRate))
  \/ (h == 1 /\ tickHeat h = h).
Proof.
  unfold tickHeat. destruct (Qltb 1 h) eqn:E1.
  - left. apply Qltb_lt in E1. auto.
  - apply Qltb_ge in E1. destruct (Qltb h 1) eqn:E2.
    + right; left. apply Qltb_lt in E2. auto.
    + right; right. apply Qltb_ge in E2. split; [lra | reflexivity].
Qed.

Lemma tickHeat_distance (h : Q) :
  Qabs (tickHeat h - 1) == Qmax 0 (Qabs (h - 1) - recoveryRate).
Proof.
  unfold recoveryRate.
  destruct (tickHeat_cases h) as [[Hh ->]|[[Hh ->]|[Hh ->]]]; unfold recoveryRate.
  - rewrite (Qabs_pos (h - 1)) by lra.
    destruct (Q.max_spec 1 (h - (5 # 100))) as [[? ->]|[? ->]];
      destruct (Q.max_spec 0 (h - 1 - (5 # 100))) as [[? ->]|[? ->]];
      try lra; rewrite Qabs_pos; lra.
  - rewrite (Qabs_neg (h - 1)) by lra.
    destruct (Q.min_spec 1 (h + (5 # 100))) as [[? ->]|[? ->]];
      destruct (Q.max_spec 0 (- (h - 1) - (5 # 100))) as [[? ->]|[? ->]];
      try lra; rewrite Qabs_neg; lra.
  - rewrite Hh. rewrite Qabs_pos by lra.
    destruct (Q.max_spec 0 (1 - 1 - (5 # 100))) as [[? ->]|[? ->]]; lra.
Qed.

Lemma tickHeat_side (h : Q) :
  (1 <= h -> 1 <= tickHeat h <= h) /\ (h <= 1 -> h <= tickHeat h <= 1).
Proof.
  destruct (tickHeat_cases h) as [[Hh ->]|[[Hh ->]|[Hh ->]]]; unfold recoveryRate.
  - destruct (Q.max_spec 1 (h - (5 # 100))) as [[? ->]|[? ->]]; split; intros; lra.
  - destruct (Q.min_spec 1 (h + (5 # 100))) as [[? ->]|[? ->]]; split; intros; lra.
  - split; intros; lra.
Qed.

Lemma tickHeat_closer (h : Q) : Qabs (tickHeat h - 1) <= Qabs (h - 1).
Proof.
  rewrite tickHeat_distance. unfold recoveryRate.
  pose proof (Qabs_nonneg (h - 1)).
  destruct (Q.max_spec 0 (Qabs (h - 1) - (5 # 100))) as [[? ->]|[? ->]]; lra.
Qed.

Lemma tickHeat_neutral_iter (n : nat) (h : Q) : h == 1 -> Nat.iter n tickHeat h == 1.
Proof.
  intros Hh. induction n as [|n IH]; [exact Hh|]. simpl.
  destruct (tickHeat_cases (Nat.iter n tickHeat h)) as [[H _]|[[H _]|[_ ->]]];
    [lra | lra | exact IH].
Qed.

Lemma tickHeat_reaches (k : nat) (h : Q) :
  Qabs (h - 1) <= inject_Z (Z.of_nat k) * recoveryRate ->
  Nat.iter k tickHeat h == 1.
Proof.
  revert h. induction k as [|k IH]; intros h Hd.
  - unfold recoveryRate in Hd. change (inject_Z (Z.of_nat 0)) with 0 in Hd.
    assert (Hz : Qabs (h - 1) <= 0) by lra.
    apply Qabs_Qle_condition in Hz. simpl. lra.
  - rewrite Nat.iter_succ_r. apply IH.
    rewrite tickHeat_distance.
    rewrite Nat2Z.inj_succ in Hd. unfold Z.succ in Hd. rewrite inject_Z_plus in Hd.
    assert (0 <= inject_Z (Z.of_nat k)).
    { change 0 with (inject_Z 0). rewrite <- Zle_Qle. lia. }
    change (inject_Z 1) with 1 in Hd. unfold recoveryRate in *.
    destruct (Q.max_spec 0 (Qabs (h - 1) - (5 # 100))) as [[? ->]|[? ->]]; lra.
Qed.

Lemma tickHeat_converges (h : Q) :
  exists n, forall m, (n <= m)%nat -> Nat.iter m tickHeat h == 1.
Proof.
  set (k := Z.to_nat (Qceiling (Qabs (h - 1) * 20))).
  exists k. intros m Hm.
  replace m with ((m - k) + k)%nat by lia. rewrite Nat.iter_add.
  apply tickHeat_neutral_iter. apply tickHeat_reaches.
  pose proof (Qabs_nonneg (h - 1)).
  pose proof (Qle_ceiling (Qabs (h - 1) * 20)) as Hc.
  assert (Hk : inject_Z (Z.of_nat k) == inject_Z (Qceiling (Qabs (h - 1) * 20))).
  { unfold k. rewrite Z2Nat.id; [reflexivity|].
    assert (0 <= Qabs (h - 1) * 20) by lra.
    assert (Hz : (Qceiling 0 <= Qceiling (Qabs (h - 1) * 20))%Z)
      by (apply Qceiling_resp_le; assumption).
    exact Hz. }
  rewrite Hk. unfold recoveryRate. lra.
Qed.

Lemma stored_MarketTick (k : HeatMap) (w : World) (pKey cKey : string) :
  stored k (MarketTick w) pKey cKey = tickHeat <$> stored k w pKey cKey.
Proof.
  unfold stored, MarketTick, tickAll.
  destruct k; cbn [heatMap Market MarketState.SourceHeat MarketState.DestHeat];
    rewrite lookup_fmap;
    match goal with |- context [?m !! pKey] => destruct (m !! pKey) end;
    simpl; try reflexivity; apply lookup_fmap.
Qed.

Lemma stored_MarketTick_iter (n : nat) (k : HeatMap) (w : World) (pKey cKey : string) :
  stored k (Nat.iter n MarketTick w) pKey cKey
  = Nat.iter n tickHeat <$> stored k w pKey cKey.
Proof.
  induction n as [|n IH]; simpl.
  - destruct (stored k w pKey cKey); reflexivity.
  - rewrite stored_MarketTick, IH. destruct (stored k w pKey cKey); reflexivity.
Qed.



(** On binary64 the run of the example is the same up to rounding: 1.2,
    1.1499999999999999, 1.0999999999999999, 1.0499999999999998, then 1.0 by
    the clamp, and 1.0 from then on. *)
Lemma binary64_example_run :
  map (fun n => Nat.iter n Binary64.tickHeat 1.2%float) (seq 0 6)
  = [1.2; 1.1499999999999999; 1.0999999999999999; 1.0499999999999998; 1; 1]%float.
Proof. vm_compute. reflexivity. Qed.


(** The same on binary64: one tick of 1.2 gives 1.1499999999999999, a move
    of 5% of the distance would give 1.1899999999999999. *)
Lemma binary64_tick_is_not_five_percent_of_distance :
  Binary64.tickHeat 1.2%float = 1.1499999999999999%float
  /\ Binary64.proportionalStep 1.2%float = 1.1899999999999999%float.
Proof. split; vm_compute; reflexivity. Qed.



End Heat.

(** ** Refuelling *)

(** C10. Refuelling costs [(fuelNeeded / 100) * FuelCostPerUnit] with a
    truncating division.  Whenever the tank lacks between 1 and 99 units and
    the credit balance is non-negative, [HandleRefuel] succeeds, charges
    nothing and fills the tank: the ship returned differs from the old one
    only in [Fuel], which becomes [MaxFuel]. *)
Theorem refuel_below_100_is_free (w : World) :
  let ship := PlayerShip w in
  0 < Ship.MaxFuel ship - Ship.Fuel ship < 100 ->
  0 <= Ship.Credits ship <= Int64.max_int ->
  exists ship',
    HandleRefuel w = (RespShip ship', setShip w ship')
    /\ Ship.Credits ship' = Ship.Credits ship
    /\ Ship.Fuel ship' = Ship.MaxFuel ship
    /\ ship' =
       Ship.mk (Ship.Name ship) (Ship.LocationKey ship) (Ship.Credits ship)
         (Ship.MaxFuel ship) (Ship.MaxFuel ship) (Ship.BaseBurnRate ship)
         (Ship.BurnDamping ship) (Ship.BaseMass ship) (Ship.CargoCapacity ship)
         (Ship.PassengerSlots ship) (Ship.MaxModuleSlots ship)
         (Ship.InstalledModules ship) (Ship.ActiveContracts ship).
Proof.
  intros ship Hfuel Hcred. unfold HandleRefuel. fold ship.
  assert (Hneed : Int64.sub (Ship.MaxFuel ship) (Ship.Fuel ship)
                  = Ship.MaxFuel ship - Ship.Fuel ship).
  { apply wrap_in_range. unfold Int64.in_range, Int64.min_int, Int64.max_int. lia. }
  rewrite Hneed.
  destruct (Z.leb_spec (Ship.MaxFuel ship - Ship.Fuel ship) 0) as [?|_]; [lia|].
  assert (Hq : Z.quot (Ship.MaxFuel ship - Ship.Fuel ship) 100 = 0)
    by (apply Z.quot_small; lia).
  rewrite Hq. change (Int64.mul 0 _) with 0.
  destruct (Z.ltb_spec (Ship.Credits ship) 0) as [?|_]; [lia|].
  assert (Hc : Int64.sub (Ship.Credits ship) 0 = Ship.Credits ship).
  { unfold Int64.sub. rewrite Z.sub_0_r. apply wrap_in_range.
    unfold Int64.in_range, Int64.min_int. lia. }
  rewrite Hc. eexists. repeat split; reflexivity.
Qed.

Lemma refuel_below_100_is_free_witness :
  exists ship',
    HandleRefuel Example.nearlyFull = (RespShip ship', setShip Example.nearlyFull ship')
    /\ Ship.Credits ship' = 0 /\ Ship.Fuel ship' = 1000.
Proof.
  destruct (refuel_below_100_is_free Example.nearlyFull)
    as (ship' & H1 & H2 & H3 & _).
  - simpl. lia.
  - simpl. unfold Int64.max_int. lia.
  - exists ship'. auto.
Defined.

(** ** Broadcast *)

Lemma offer_spec (message : list Byte.byte) (h : Hub.t) (client : nat) (ch : Hub.Chan) :
  Hub.chans h !! client = Some ch ->
  Hub.closed ch = false ->
  exists h',
    Hub.offer message h client = Some h'
    /\ (forall other, other <> client ->
          Hub.chans h' !! other = Hub.chans h !! other
          /\ (other ∈ Hub.clients h' ↔ other ∈ Hub.clients h))
    /\ (HubSpec.has_space ch ->
          (client ∈ Hub.clients h' ↔ client ∈ Hub.clients h)
          /\ Hub.chans h' !! client = Some (HubSpec.received message ch))
    /\ (~ HubSpec.has_space ch ->
          (client ∉ Hub.clients h')
          /\ Hub.chans h' !! client = Some (HubSpec.shut ch)).
Proof.
  intros Hch Hopen. unfold Hub.offer, Hub.close, HubSpec.has_space. rewrite Hch, Hopen.
  destruct (Nat.ltb_spec (length (Hub.buf ch)) (Hub.cap ch)) as [Hlt|Hge].
  - eexists. split; [reflexivity|]. cbn [Hub.chans Hub.clients]. repeat split.
    + rewrite lookup_insert_ne by congruence. reflexivity.
    + tauto.
    + tauto.
    + tauto.
    + tauto.
    + apply lookup_insert_eq.
    + lia.
    + lia.
  - eexists. split; [reflexivity|]. cbn [Hub.chans Hub.clients].
    split; [|split; [intros; lia|]].
    + intros other Hne. rewrite lookup_insert_ne by congruence.
      rewrite elem_of_difference, elem_of_singleton. tauto.
    + intros _. rewrite elem_of_difference, elem_of_singleton.
      split; [tauto | apply lookup_insert_eq].
Qed.

Lemma offerAll_spec (message : list Byte.byte) (cs : list nat) :
  NoDup cs ->
  forall h : Hub.t,
    (forall client, client ∈ cs ->
       exists ch, Hub.chans h !! client = Some ch /\ Hub.closed ch = false) ->
    exists h',
      Hub.offerAll message cs h = Some h'
      /\ (forall other, other ∉ cs ->
            Hub.chans h' !! other = Hub.chans h !! other
            /\ (other ∈ Hub.clients h' ↔ other ∈ Hub.clients h))
      /\ (forall client ch, client ∈ cs -> Hub.chans h !! client = Some ch ->
            (HubSpec.has_space ch ->
               (client ∈ Hub.clients h' ↔ client ∈ Hub.clients h)
               /\ Hub.chans h' !! client = Some (HubSpec.received message ch))
            /\ (~ HubSpec.has_space ch ->
                  (client ∉ Hub.clients h')
                  /\ Hub.chans h' !! client = Some (HubSpec.shut ch))).
Proof.
  induction 1 as [|c cs Hc Hnd IH]; intros h Hopen.
  - exists h. split; [reflexivity|]. split.
    + intros; split; [reflexivity | tauto].
    + intros client ch Hin. apply elem_of_nil in Hin. contradiction.
  - destruct (Hopen c) as (ch0 & Hch0 & Hop0); [left|].
    destruct (offer_spec message h c ch0 Hch0 Hop0) as (h1 & Ho & Hother & Hroom & Hfull).
    destruct (IH h1) as (h' & Hall & Hrest & Hcs).
    { intros client Hin. assert (client <> c) by (intros ->; contradiction).
      destruct (Hother client) as [Heq _]; [assumption|]. rewrite Heq.
      apply Hopen. right. exact Hin. }
    exists h'. split; [cbn [Hub.offerAll]; rewrite Ho; exact Hall|]. split.
    + intros other Hnot. apply not_elem_of_cons in Hnot as [Hne Hnot].
      destruct (Hrest other Hnot) as [E1 E2]. destruct (Hother other Hne) as [E3 E4].
      split; [congruence | tauto].
    + intros client ch Hin Hch. apply elem_of_cons in Hin as [->|Hin].
      * assert (ch = ch0) by congruence. subst ch0.
        destruct (Hrest c Hc) as [E1 E2]. rewrite E1, E2. split.
        -- intros Hs. apply Hroom. exact Hs.
        -- intros Hs. apply Hfull. exact Hs.
      * assert (Hne : client <> c) by (intros ->; contradiction).
        destruct (Hother client Hne) as [E3 E4].
        rewrite <- E3 in Hch. destruct (Hcs client ch Hin Hch) as [Ha Hb].
        split.
        -- intros Hs. destruct (Ha Hs) as [P Q]. split; [tauto | exact Q].
        -- exact Hb.
Qed.

(** C7. One broadcast event, in a hub whose registered observers all own
    an open queue, is processed without panic: every registered observer
    whose queue has space gets the message appended and stays registered;
    every registered observer whose queue is full gets nothing, has its
    queue closed and is out of the observer set when the step ends; nothing
    else changes, and the observers still registered still own open
    queues. *)
Theorem broadcast_delivers_or_drops (h : Hub.t) (message : list Byte.byte) :
  HubSpec.registered_open h ->
  exists h',
    Hub.Run (Hub.Broadcast message) h = Some h'
    /\ (forall client ch,
          client ∈ Hub.clients h -> Hub.chans h !! client = Some ch ->
          (HubSpec.has_space ch ->
             client ∈ Hub.clients h'
             /\ Hub.chans h' !! client = Some (HubSpec.received message ch))
          /\ (~ HubSpec.has_space ch ->
                (client ∉ Hub.clients h')
                /\ Hub.chans h' !! client = Some (HubSpec.shut ch)))
    /\ (forall other, (other ∉ Hub.clients h) ->
          (other ∉ Hub.clients h')
          /\ Hub.chans h' !! other = Hub.chans h !! other)
    /\ HubSpec.registered_open h'.
Proof.
  intros Hopen. cbn [Hub.Run].
  destruct (offerAll_spec message (elements (Hub.clients h)) (NoDup_elements _) h)
    as (h' & Hrun & Hrest & Hcs).
  { intros client Hin. apply Hopen. apply elem_of_elements. exact Hin. }
  assert (Hreg : forall client ch,
             client ∈ Hub.clients h -> Hub.chans h !! client = Some ch ->
             (HubSpec.has_space ch ->
                client ∈ Hub.clients h'
                /\ Hub.chans h' !! client = Some (HubSpec.received message ch))
             /\ (~ HubSpec.has_space ch ->
                   (client ∉ Hub.clients h')
                   /\ Hub.chans h' !! client = Some (HubSpec.shut ch))).
  { intros client ch Hin Hch.
    destruct (Hcs client ch) as [Ha Hb]; [apply elem_of_elements; exact Hin | exact Hch |].
    split.
    + intros Hs. destruct (Ha Hs) as [P Q]. split; [tauto | exact Q].
    + exact Hb. }
  assert (Hout : forall other, (other ∉ Hub.clients h) ->
             (other ∉ Hub.clients h')
             /\ Hub.chans h' !! other = Hub.chans h !! other).
  { intros other Hnot.
    destruct (Hrest other) as [E1 E2].
    { rewrite elem_of_elements. exact Hnot. }
    split; [tauto | exact E1]. }
  exists h'. split; [exact Hrun|]. split; [exact Hreg|]. split; [exact Hout|].
  intros client Hin'.
  destruct (decide (client ∈ Hub.clients h)) as [Hin|Hnot].
  - destruct (Hopen client Hin) as (ch & Hch & Hop).
    destruct (Hreg client ch Hin Hch) as [Ha Hb].
    destruct (lt_dec (length (Hub.buf ch)) (Hub.cap ch)) as [Hs|Hs].
    + destruct (Ha Hs) as [_ Hq]. eexists. split; [exact Hq | reflexivity].
    + destruct (Hb Hs) as [Hgone _]. contradiction.
  - destruct (Hout client Hnot) as [Hgone _]. contradiction.
Qed.

(** The hypothesis of the theorem is an invariant of the hub: a client
    registered by [ServeWs] comes with a fresh open queue, and an unregister
    event removes the client whose queue it closes. *)
Lemma ServeWs_registered_open (client : nat) (h h' : Hub.t) :
  HubSpec.registered_open h -> Hub.ServeWs client h = Some h' ->
  HubSpec.registered_open h'.
Proof.
  intros Hopen [= <-] c Hin. cbn [Hub.clients Hub.chans] in *.
  destruct (decide (c = client)) as [->|Hne].
  - rewrite lookup_insert_eq. eexists. split; reflexivity.
  - rewrite lookup_insert_ne by congruence. apply Hopen.
    rewrite elem_of_union, elem_of_singleton in Hin. tauto.
Qed.

Lemma Unregister_registered_open (client : nat) (h h' : Hub.t) :
  HubSpec.registered_open h -> Hub.Run (Hub.Unregister client) h = Some h' ->
  HubSpec.registered_open h'.
Proof.
  intros Hopen Hrun. cbn [Hub.Run] in Hrun. case_bool_decide as Hreg.
  - destruct (Hub.chans h !! client) as [ch|]; [|discriminate].
    destruct (Hub.close ch) as [ch'|]; [|discriminate].
    injection Hrun as <-. intros c Hin. cbn [Hub.clients Hub.chans] in *.
    rewrite elem_of_difference, elem_of_singleton in Hin. destruct Hin as [Hin Hne].
    rewrite lookup_insert_ne by congruence. apply Hopen. exact Hin.
  - injection Hrun as <-. exact Hopen.
Qed.

Lemma registered_open_example : HubSpec.registered_open HubExample.hub.
Proof.
  intros client Hin. unfold HubExample.hub in *. cbn [Hub.clients Hub.chans] in *.
  rewrite !elem_of_union, !elem_of_singleton in Hin.
  destruct Hin as [[[->| ->]| ->]| ->]; eexists; split; reflexivity.
Qed.

Lemma broadcast_delivers_or_drops_witness :
  exists h',
    Hub.Run (Hub.Broadcast HubExample.hello) HubExample.hub = Some h'
    /\ (1%nat ∈ Hub.clients h'
        /\ Hub.chans h' !! 1%nat = Some (HubSpec.received HubExample.hello HubExample.idle))
    /\ (2%nat ∈ Hub.clients h'
        /\ Hub.chans h' !! 2%nat = Some (HubSpec.received HubExample.hello HubExample.busy))
    /\ (3%nat ∈ Hub.clients h'
        /\ Hub.chans h' !! 3%nat = Some (HubSpec.received HubExample.hello HubExample.idle))
    /\ ((4%nat ∉ Hub.clients h')
        /\ Hub.chans h' !! 4%nat = Some (HubSpec.shut HubExample.stuck)).
Proof.
  destruct (broadcast_delivers_or_drops HubExample.hub HubExample.hello
              registered_open_example) as (h' & Hrun & Hcs & _).
  exists h'. split; [exact Hrun|].
  assert (Hin : forall c : nat, (c = 1 \/ c = 2 \/ c = 3 \/ c = 4)%nat ->
                           c ∈ Hub.clients HubExample.hub).
  { intros c Hc. unfold HubExample.hub. cbn [Hub.clients].
    rewrite !elem_of_union, !elem_of_singleton. tauto. }
  repeat split.
  - apply (Hcs 1%nat HubExample.idle); [apply Hin; tauto | reflexivity |].
    unfold HubSpec.has_space. simpl. lia.
  - apply (Hcs 1%nat HubExample.idle); [apply Hin; tauto | reflexivity |].
    unfold HubSpec.has_space. simpl. lia.
  - apply (Hcs 2%nat HubExample.busy); [apply Hin; tauto | reflexivity |].
    unfold HubSpec.has_space. simpl. lia.
  - apply (Hcs 2%nat HubExample.busy); [apply Hin; tauto | reflexivity |].
    unfold HubSpec.has_space. simpl. lia.
  - apply (Hcs 3%nat HubExample.idle); [apply Hin; tauto | reflexivity |].
    unfold HubSpec.has_space. simpl. lia.
  - apply (Hcs 3%nat HubExample.idle); [apply Hin; tauto | reflexivity |].
    unfold HubSpec.has_space. simpl. lia.
  - apply (Hcs 4%nat HubExample.stuck); [apply Hin; tauto | reflexivity |].
    unfold HubSpec.has_space. simpl. lia.
  - apply (Hcs 4%nat HubExample.stuck); [apply Hin; tauto | reflexivity |].
    unfold HubSpec.has_space. simpl. lia.
Defined.

(** ** Replenishment *)

Lemma bind_Done {A B} (c : Gen A) (k : A -> Gen B) (tape : list Z) (r : B * list Z) :
  (c ≫= k) tape = Done r ->
  exists a tape1, c tape = Done (a, tape1) /\ k a tape1 = Done r.
Proof.
  unfold mbind, Gen_bind. destruct (c tape) as [[a tape1]| |]; try discriminate.
  intros H. exists a, tape1. auto.
Qed.

Lemma ret_Done {A} (a : A) (tape : list Z) (r : A * list Z) :
  (mret a : Gen A) tape = Done r -> r = (a, tape).
Proof. unfold mret, Gen_ret. congruence. Qed.

Lemma Intn_Done (n : Z) (tape : list Z) (r : Z) (tape' : list Z) :
  Intn n tape = Done (r, tape') -> 0 < n /\ 0 <= r < n.
Proof.
  unfold Intn. destruct (Z.leb_spec n 0) as [Hn|Hn]; [discriminate|].
  intros H. apply bind_Done in H as (x & t1 & _ & H). apply ret_Done in H.
  injection H as -> _. split; [lia|]. apply Z.mod_pos_bound. lia.
Qed.

Ltac inv_bind H :=
  let a := fresh "a" in let t := fresh "t" in let H1 := fresh "Hstep" in
  apply bind_Done in H as (a & t & H1 & H).

Lemma cargoJob_type u m origin tape j tape' :
  cargoJob u m origin tape = Done (Some j, tape') -> Contract.Type_ j = "cargo".
Proof.
  unfold cargoJob. intros H. inv_bind H. inv_bind H.
  destruct a0.
  - apply ret_Done in H. discriminate.
  - inv_bind H. inv_bind H. inv_bind H. inv_bind H.
    apply ret_Done in H. injection H as -> _. reflexivity.
Qed.

Lemma passengerJob_type u origin tape j tape' :
  passengerJob u origin tape = Done (j, tape') -> Contract.Type_ j = "passenger".
Proof.
  unfold passengerJob. intros H. inv_bind H. inv_bind H. inv_bind H.
  apply ret_Done in H. injection H as -> _. reflexivity.
Qed.

Lemma offers_appendJob boards key job :
  offers (appendJob boards key job) key = offers boards key ++ [job].
Proof. unfold offers, appendJob. rewrite lookup_insert_eq. reflexivity. Qed.

Lemma lookup_appendJob_ne boards key job other :
  other <> key -> appendJob boards key job !! other = boards !! other.
Proof. intros. unfold appendJob. apply lookup_insert_ne. congruence. Qed.

Lemma generateCargoJobs_adds u m origin (count : nat) :
  forall boards tape boards' tape',
    generateCargoJobs u m origin count boards tape = Done (boards', tape') ->
    (forall other, other <> Planet.Key origin -> boards' !! other = boards !! other)
    /\ exists added,
         offers boards' (Planet.Key origin) = offers boards (Planet.Key origin) ++ added
         /\ (length added <= count)%nat
         /\ Forall (fun c => Contract.Type_ c = "cargo") added.
Proof.
  induction count as [|count IH]; intros boards tape boards' tape' H; cbn [generateCargoJobs] in H.
  - apply ret_Done in H. injection H as -> _. split; [reflexivity|].
    exists []. rewrite app_nil_r. repeat split; [simpl; lia | constructor].
  - inv_bind H. destruct a as [j|].
    + apply IH in H as (Hother & added & Hadd & Hlen & Hty).
      split.
      * intros other Hne. rewrite Hother by assumption.
        apply lookup_appendJob_ne. assumption.
      * exists (j :: added). rewrite Hadd, offers_appendJob, <- app_assoc.
        repeat split; [simpl; lia|]. constructor; [|assumption].
        eapply cargoJob_type. eassumption.
    + apply IH in H as (Hother & added & Hadd & Hlen & Hty).
      split; [assumption|]. exists added. repeat split; [assumption | lia | assumption].
Qed.

Lemma generatePassengerJobs_adds u origin (count : nat) :
  forall boards tape boards' tape',
    generatePassengerJobs u origin count boards tape = Done (boards', tape') ->
    (forall other, other <> Planet.Key origin -> boards' !! other = boards !! other)
    /\ exists added,
         offers boards' (Planet.Key origin) = offers boards (Planet.Key origin) ++ added
         /\ length added = count
         /\ Forall (fun c => Contract.Type_ c = "passenger") added.
Proof.
  induction count as [|count IH]; intros boards tape boards' tape' H;
    cbn [generatePassengerJobs] in H.
  - apply ret_Done in H. injection H as -> _. split; [reflexivity|].
    exists []. rewrite app_nil_r. repeat split. constructor.
  - inv_bind H.
    apply IH in H as (Hother & added & Hadd & Hlen & Hty).
    split.
    + intros other Hne. rewrite Hother by assumption.
      apply lookup_appendJob_ne. assumption.
    + exists (a :: added). rewrite Hadd, offers_appendJob, <- app_assoc.
      repeat split; [simpl; lia|]. constructor; [|assumption].
      eapply passengerJob_type. eassumption.
Qed.

Lemma countType_app ty (l1 l2 : list Contract.t) :
  countType ty (l1 ++ l2) = countType ty l1 + countType ty l2.
Proof. unfold countType. rewrite filter_app, length_app. lia. Qed.

Lemma countType_same ty (l : list Contract.t) :
  Forall (fun c => Contract.Type_ c = ty) l -> countType ty l = Z.of_nat (length l).
Proof.
  intros H. unfold countType. f_equal. f_equal.
  induction H as [|c l Hc Hl IH]; [reflexivity|].
  rewrite filter_cons, decide_True by assumption. simpl. f_equal. exact IH.
Qed.

Lemma countType_other ty ty' (l : list Contract.t) :
  ty' <> ty -> Forall (fun c => Contract.Type_ c = ty') l -> countType ty l = 0.
Proof.
  intros Hne H. unfold countType.
  induction H as [|c l Hc Hl IH]; [reflexivity|].
  rewrite filter_cons, decide_False by congruence. exact IH.
Qed.

Lemma countType_nonneg ty l : 0 <= countType ty l.
Proof. unfold countType. lia. Qed.

Lemma TargetsFit_bounds p :
  TargetsFit p ->
  (- 2 ^ 31 <= fst (cargoTargets p) <= 2 ^ 31)
  /\ (- 2 ^ 31 <= snd (cargoTargets p) <= 2 ^ 31)
  /\ (- 2 ^ 31 <= fst (passengerTargets p) <= 2 ^ 31)
  /\ (- 2 ^ 31 <= snd (passengerTargets p) <= 2 ^ 31).
Proof.
  unfold TargetsFit. intros H.
  apply Forall_cons in H as [H1 H]. apply Forall_cons in H as [H2 H].
  apply Forall_cons in H as [H3 H]. apply Forall_cons in H as [H4 _]. auto.
Qed.

Lemma replenishCargo_adds u m origin boards upd tape boards1 upd1 tape1 :
  TargetsFit origin ->
  replenishCargo u m origin (boards, upd) tape = Done ((boards1, upd1), tape1) ->
  (forall other, other <> Planet.Key origin -> boards1 !! other = boards !! other)
  /\ exists added,
       offers boards1 (Planet.Key origin) = offers boards (Planet.Key origin) ++ added
       /\ Forall (fun c => Contract.Type_ c = "cargo") added
       /\ (fst (cargoTargets origin)
             <= countType "cargo" (offers boards (Planet.Key origin)) -> added = [])
       /\ (countType "cargo" (offers boards (Planet.Key origin))
             < fst (cargoTargets origin) ->
           countType "cargo" (offers boards (Planet.Key origin))
             + Z.of_nat (length added) <= snd (cargoTargets origin)).
Proof.
  intros Hfit H. apply TargetsFit_bounds in Hfit as (Hmn & Hmx & _ & _).
  unfold replenishCargo in H.
  destruct (cargoTargets origin) as [mn mx] eqn:Ht. cbn [fst snd] in *.
  fold (offers boards (Planet.Key origin)) in H.
  pose proof (countType_nonneg "cargo" (offers boards (Planet.Key origin))) as Hc.
  set (count := countType "cargo" (offers boards (Planet.Key origin))) in *.
  destruct (Z.ltb_spec count mn) as [Hlt|Hge].
  - inv_bind H.
    rewrite sub_exact, add_exact in Hstep
      by (unfold Int64.in_range, Int64.min_int, Int64.max_int; lia).
    apply Intn_Done in Hstep as [Hn Hr].
    rewrite add_exact in H
      by (unfold Int64.in_range, Int64.min_int, Int64.max_int; lia).
    rewrite sub_exact in H
      by (unfold Int64.in_range, Int64.min_int, Int64.max_int; lia).
    destruct (Z.ltb_spec 0 (a + mn - count)) as [_|?]; [|lia].
    inv_bind H. apply ret_Done in H. injection H as -> -> ->.
    apply generateCargoJobs_adds in Hstep as (Hother & added & Hadd & Hlen & Hty).
    split; [exact Hother|]. exists added.
    repeat split; [exact Hadd | exact Hty | lia | lia].
  - apply ret_Done in H. injection H as -> -> ->.
    split; [reflexivity|]. exists []. rewrite app_nil_r.
    repeat split; [constructor | lia].
Qed.

Lemma replenishPassengers_adds u origin boards upd tape boards1 upd1 tape1 :
  TargetsFit origin ->
  replenishPassengers u origin (boards, upd) tape = Done ((boards1, upd1), tape1) ->
  (forall other, other <> Planet.Key origin -> boards1 !! other = boards !! other)
  /\ exists added,
       offers boards1 (Planet.Key origin) = offers boards (Planet.Key origin) ++ added
       /\ Forall (fun c => Contract.Type_ c = "passenger") added
       /\ (fst (passengerTargets origin)
             <= countType "passenger" (offers boards (Planet.Key origin)) -> added = [])
       /\ (countType "passenger" (offers boards (Planet.Key origin))
             < fst (passengerTargets origin) ->
           fst (passengerTargets origin)
           <= countType "passenger" (offers boards (Planet.Key origin))
              + Z.of_nat (length added)
           <= snd (passengerTargets origin)).
Proof.
  intros Hfit H. apply TargetsFit_bounds in Hfit as (_ & _ & Hmn & Hmx).
  unfold replenishPassengers in H.
  destruct (passengerTargets origin) as [mn mx] eqn:Ht. cbn [fst snd] in *.
  fold (offers boards (Planet.Key origin)) in H.
  pose proof (countType_nonneg "passenger" (offers boards (Planet.Key origin))) as Hc.
  set (count := countType "passenger" (offers boards (Planet.Key origin))) in *.
  destruct (Z.ltb_spec count mn) as [Hlt|Hge].
  - inv_bind H.
    rewrite sub_exact, add_exact in Hstep
      by (unfold Int64.in_range, Int64.min_int, Int64.max_int; lia).
    apply Intn_Done in Hstep as [Hn Hr].
    rewrite add_exact in H
      by (unfold Int64.in_range, Int64.min_int, Int64.max_int; lia).
    rewrite sub_exact in H
      by (unfold Int64.in_range, Int64.min_int, Int64.max_int; lia).
    destruct (Z.ltb_spec 0 (a + mn - count)) as [_|?]; [|lia].
    inv_bind H. apply ret_Done in H. injection H as -> _ ->.
    apply generatePassengerJobs_adds in Hstep as (Hother & added & Hadd & Hlen & Hty).
    split; [exact Hother|]. exists added.
    repeat split; [exact Hadd | exact Hty | lia | lia | lia].
  - apply ret_Done in H. injection H as -> -> ->.
    split; [reflexivity|]. exists []. rewrite app_nil_r.
    repeat split; [constructor | lia | lia].
Qed.

Lemma replenishPlanet_spec u m origin boards upd tape boards' upd' tape' :
  TargetsFit origin ->
  replenishPlanet u m origin (boards, upd) tape = Done ((boards', upd'), tape') ->
  (forall other, other <> Planet.Key origin -> boards' !! other = boards !! other)
  /\ Replenished origin boards boards'.
Proof.
  intros Hfit H. unfold replenishPlanet in H. inv_bind H. destruct a as [boards1 upd1].
  apply replenishCargo_adds in Hstep as (Ho1 & addedC & HaC & HtC & HkeepC & HfillC);
    [|exact Hfit].
  apply replenishPassengers_adds in H as (Ho2 & addedP & HaP & HtP & HkeepP & HfillP);
    [|exact Hfit].
  split.
  - intros other Hne. rewrite Ho2, Ho1 by assumption. reflexivity.
  - unfold Replenished. cbv zeta. rewrite HaP, HaC in *.
    rewrite !countType_app in *.
    rewrite (countType_same "cargo" addedC HtC) in *.
    rewrite (countType_same "passenger" addedP HtP) in *.
    rewrite (countType_other "cargo" "passenger" addedP) in * by (discriminate || assumption).
    rewrite (countType_other "passenger" "cargo" addedC) in * by (discriminate || assumption).
    rewrite ?Z.add_0_r in *.
    split; [|split; [|split]].
    + intros Hge. rewrite (HkeepC Hge). simpl. lia.
    + intros Hlt. specialize (HfillC Hlt). lia.
    + intros Hge. rewrite (HkeepP Hge). simpl. lia.
    + intros Hlt. specialize (HfillP Hlt). lia.
Qed.

Lemma Replenished_ext p (b1 b2 b1' b2' : gmap string (list Contract.t)) :
  b1 !! Planet.Key p = b2 !! Planet.Key p ->
  b1' !! Planet.Key p = b2' !! Planet.Key p ->
  Replenished p b1 b1' -> Replenished p b2 b2'.
Proof. unfold Replenished, offers. intros -> ->. tauto. Qed.

Lemma replenishPlanets_spec u m (planets : list Planet.t) :
  NoDup (map Planet.Key planets) ->
  Forall TargetsFit planets ->
  forall boards upd tape boards' upd' tape',
    replenishPlanets u m planets (boards, upd) tape = Done ((boards', upd'), tape') ->
    (forall other, other ∉ map Planet.Key planets -> boards' !! other = boards !! other)
    /\ Forall (fun p => Replenished p boards boards') planets.
Proof.
  induction planets as [|p rest IH]; intros Hnd Hfit boards upd tape boards' upd' tape' H;
    cbn [replenishPlanets] in H.
  - apply ret_Done in H. injection H as -> -> ->. split; [reflexivity | constructor].
  - cbn [map] in Hnd. apply NoDup_cons in Hnd as [Hp Hnd].
    apply Forall_cons in Hfit as [Hfp Hfit].
    inv_bind H. destruct a as [b1 u1].
    apply replenishPlanet_spec in Hstep as [Ho1 Hr1]; [|exact Hfp].
    apply IH in H as [Ho2 Hr2]; [|exact Hnd|exact Hfit].
    split.
    + intros other Hnot. cbn [map] in Hnot. apply not_elem_of_cons in Hnot as [Hne Hnot].
      rewrite Ho2, Ho1 by assumption. reflexivity.
    + constructor.
      * apply (Replenished_ext p boards boards b1 boards'); [reflexivity | | exact Hr1].
        symmetry. apply Ho2. exact Hp.
      * rewrite Forall_forall in Hr2 |- *. intros q Hq.
        assert (Hne : Planet.Key q <> Planet.Key p).
        { intros Heq. apply Hp. rewrite <- Heq.
          apply list_elem_of_In, in_map, list_elem_of_In. exact Hq. }
        apply (Replenished_ext q b1 boards boards' boards');
          [apply Ho1; exact Hne | reflexivity | apply Hr2; exact Hq].
Qed.

Lemma RunsTo_ret {A} (a : A) (P : A -> Prop) : P a -> RunsTo (mret a : Gen A) P.
Proof. intros HP. exists [], a. split; [exact HP|]. intros rest. reflexivity. Qed.

Lemma RunsTo_bind {A B} (c : Gen A) (k : A -> Gen B) (P : A -> Prop) (Q : B -> Prop) :
  RunsTo c P -> (forall a, P a -> RunsTo (k a) Q) -> RunsTo (c ≫= k) Q.
Proof.
  intros (pre1 & a & HP & H1) Hk. destruct (Hk a HP) as (pre2 & b & HQ & H2).
  exists (pre1 ++ pre2), b. split; [exact HQ|]. intros rest.
  unfold mbind, Gen_bind. rewrite <- app_assoc, H1. apply H2.
Qed.

Lemma RunsTo_Intn (n : Z) : 0 < n -> RunsTo (Intn n) (fun r => 0 <= r < n).
Proof.
  intros Hn. exists [0], 0. split; [lia|]. intros rest. unfold Intn.
  destruct (Z.leb_spec n 0); [lia|]. reflexivity.
Qed.

Lemma Runs_Float64 : Runs Float64.
Proof. exists [0], (Qmake 0 (2 ^ 53)). split; [exact I|]. intros rest. reflexivity. Qed.

Lemma Runs_Float32 : Runs Float32.
Proof. exists [0], (Qmake 0 (2 ^ 24)). split; [exact I|]. intros rest. reflexivity. Qed.

Lemma Runs_UnixNanoMod1000 : Runs UnixNanoMod1000.
Proof. exists [0], 0. split; [exact I|]. intros rest. reflexivity. Qed.

Lemma Runs_index {A} (s : list A) (i : Z) :
  0 <= i < Z.of_nat (length s) -> Runs (index s i).
Proof.
  intros Hi. unfold index. destruct (Z.ltb_spec i 0); [lia|].
  destruct (s !! Z.to_nat i) as [a|] eqn:Ha.
  - apply RunsTo_ret. exact I.
  - apply lookup_ge_None in Ha. lia.
Qed.

Lemma Runs_pickDestination (planets : list Planet.t) (originKey : string) :
  (exists q, q ∈ planets /\ Planet.Key q <> originKey) ->
  Runs (pickDestination planets originKey).
Proof.
  intros (q & Hq & Hne). apply list_elem_of_lookup in Hq as [i Hi].
  pose proof (lookup_lt_Some _ _ _ Hi) as Hlt.
  exists [Z.of_nat i], q. split; [exact I|]. intros rest.
  destruct planets as [|p0 ps]; [simpl in Hlt; lia|].
  cbn [pickDestination app].
  destruct (Z.leb_spec (Z.of_nat (length (p0 :: ps))) 0) as [H|_]; [simpl in H; lia|].
  rewrite Z.mod_small by lia. rewrite Nat2Z.id, Hi.
  rewrite bool_decide_eq_false_2 by exact Hne. reflexivity.
Qed.

Ltac runs_step :=
  first
    [ apply RunsTo_ret; exact I
    | eapply RunsTo_bind; [apply Runs_Float32 | intros ? _]
    | eapply RunsTo_bind; [apply Runs_Float64 | intros ? _]
    | eapply RunsTo_bind; [apply Runs_UnixNanoMod1000 | intros ? _]
    | eapply RunsTo_bind; [apply RunsTo_Intn; simpl; lia | intros ? ?] ].

Section Runs.

Variable u : Universe.t.
Hypothesis Hrun : Runnable u.

Lemma Runs_randomCommodity : Runs (randomCommodity u).
Proof.
  unfold randomCommodity. pose proof (run_commodities u Hrun) as Hc.
  eapply RunsTo_bind; [apply RunsTo_Intn|].
  - destruct (Universe.Commodities u); [contradiction | simpl; lia].
  - intros i Hi. apply Runs_index. exact Hi.
Qed.

Lemma Runs_pickCommodity (origin : Planet.t) : Runs (pickCommodity u origin).
Proof.
  unfold pickCommodity. destruct (Planet.Production origin) as [|k ks] eqn:Hp.
  - apply Runs_randomCommodity.
  - runs_step. destruct (Qltb _ _); [|apply Runs_randomCommodity].
    runs_step. eapply RunsTo_bind; [apply Runs_index; assumption|]. intros prodKey _.
    destruct (GetCommodity u prodKey); [runs_step | apply Runs_randomCommodity].
Qed.

Lemma Runs_scarcitySkip (sourceHeat : Q) : Runs (scarcitySkip sourceHeat).
Proof. unfold scarcitySkip. destruct (Qltb 1 sourceHeat); repeat runs_step. Qed.

Lemma Runs_pickDestination_from (origin : Planet.t) :
  origin ∈ Universe.Planets u ->
  Runs (pickDestination (Universe.Planets u) (Planet.Key origin)).
Proof. intros Hin. apply Runs_pickDestination. apply (run_elsewhere u Hrun). exact Hin. Qed.

Lemma Runs_cargoJob (m : MarketState.t) (origin : Planet.t) :
  origin ∈ Universe.Planets u -> Runs (cargoJob u m origin).
Proof.
  intros Hin. unfold cargoJob.
  eapply RunsTo_bind; [apply Runs_pickCommodity|]. intros comm _.
  eapply RunsTo_bind; [apply Runs_scarcitySkip|]. intros skip _.
  destruct skip; [runs_step|].
  eapply RunsTo_bind; [apply Runs_pickDestination_from; exact Hin|]. intros dest _.
  repeat runs_step.
Qed.

Lemma Runs_passengerJob (origin : Planet.t) :
  origin ∈ Universe.Planets u -> Runs (passengerJob u origin).
Proof.
  intros Hin. unfold passengerJob.
  eapply RunsTo_bind; [apply Runs_pickDestination_from; exact Hin|]. intros dest _.
  repeat runs_step.
Qed.

Lemma Runs_generateCargoJobs (m : MarketState.t) (origin : Planet.t) (count : nat) :
  origin ∈ Universe.Planets u ->
  forall boards, Runs (generateCargoJobs u m origin count boards).
Proof.
  intros Hin. induction count as [|count IH]; intros boards; cbn [generateCargoJobs].
  - runs_step.
  - eapply RunsTo_bind; [apply Runs_cargoJob; exact Hin|]. intros [j|] _; apply IH.
Qed.

Lemma Runs_generatePassengerJobs (origin : Planet.t) (count : nat) :
  origin ∈ Universe.Planets u ->
  forall boards, Runs (generatePassengerJobs u origin count boards).
Proof.
  intros Hin. induction count as [|count IH]; intros boards; cbn [generatePassengerJobs].
  - runs_step.
  - eapply RunsTo_bind; [apply Runs_passengerJob; exact Hin|]. intros j _. apply IH.
Qed.

Lemma origin_targets (origin : Planet.t) :
  origin ∈ Universe.Planets u ->
  fst (cargoTargets origin) <= snd (cargoTargets origin)
  /\ fst (passengerTargets origin) <= snd (passengerTargets origin).
Proof.
  intros Hin. pose proof (run_targets u Hrun) as H. rewrite Forall_forall in H.
  apply H. exact Hin.
Qed.

Lemma Runs_replenishCargo (m : MarketState.t) (origin : Planet.t) st :
  origin ∈ Universe.Planets u -> TargetsFit origin ->
  Runs (replenishCargo u m origin st).
Proof.
  intros Hin Hfit. destruct st as [boards upd]. unfold replenishCargo.
  apply TargetsFit_bounds in Hfit as (Hmn & Hmx & _ & _).
  destruct (origin_targets origin Hin) as [Hle _].
  destruct (cargoTargets origin) as [mn mx]. cbn [fst snd] in *.
  destruct (_ <? _); [|runs_step].
  rewrite sub_exact, add_exact
    by (unfold Int64.in_range, Int64.min_int, Int64.max_int; lia).
  eapply RunsTo_bind; [apply RunsTo_Intn; lia|]. intros r Hr.
  destruct (0 <? _); [|runs_step].
  eapply RunsTo_bind; [apply Runs_generateCargoJobs; exact Hin|]. intros b _. runs_step.
Qed.

Lemma Runs_replenishPassengers (origin : Planet.t) st :
  origin ∈ Universe.Planets u -> TargetsFit origin ->
  Runs (replenishPassengers u origin st).
Proof.
  intros Hin Hfit. destruct st as [boards upd]. unfold replenishPassengers.
  apply TargetsFit_bounds in Hfit as (_ & _ & Hmn & Hmx).
  destruct (origin_targets origin Hin) as [_ Hle].
  destruct (passengerTargets origin) as [mn mx]. cbn [fst snd] in *.
  destruct (_ <? _); [|runs_step].
  rewrite sub_exact, add_exact
    by (unfold Int64.in_range, Int64.min_int, Int64.max_int; lia).
  eapply RunsTo_bind; [apply RunsTo_Intn; lia|]. intros r Hr.
  destruct (0 <? _); [|runs_step].
  eapply RunsTo_bind; [apply Runs_generatePassengerJobs; exact Hin|]. intros b _. runs_step.
Qed.

Lemma Runs_replenishPlanets (m : MarketState.t) (planets : list Planet.t) :
  (forall p, p ∈ planets -> p ∈ Universe.Planets u) ->
  Forall TargetsFit planets ->
  forall st, Runs (replenishPlanets u m planets st).
Proof.
  induction planets as [|p rest IH]; intros Hsub Hfit st; cbn [replenishPlanets].
  - runs_step.
  - apply Forall_cons in Hfit as [Hp Hfit].
    assert (Hin : p ∈ Universe.Planets u) by (apply Hsub; left).
    eapply RunsTo_bind.
    + unfold replenishPlanet. eapply RunsTo_bind.
      * apply (Runs_replenishCargo m p st Hin Hp).
      * intros st1 _. apply (Runs_replenishPassengers p st1 Hin Hp).
    + intros st' _. apply IH; [|exact Hfit]. intros q Hq. apply Hsub. right. exact Hq.
Qed.

End Runs.

Lemma Runs_ReplenishMarket (w : World) :
  Runnable (CurrentUniverse w) ->
  Forall TargetsFit (Universe.Planets (CurrentUniverse w)) ->
  Runs (ReplenishMarket w).
Proof.
  intros Hrun Hfit. unfold ReplenishMarket.
  cbn [MarketTick CurrentUniverse AvailableContracts Market PlayerShip].
  eapply RunsTo_bind.
  - apply Runs_replenishPlanets; [exact Hrun | auto | exact Hfit].
  - intros st _. runs_step.
Qed.

(** C3, amended. In a universe whose location keys are distinct and whose
    board targets are of realistic magnitude, a replenishment returns on
    suitable draws whenever the generator can run (a commodity exists, every
    planet has a destination with another key, no minimum exceeds its
    maximum); and after any replenishment that returns, for every location:
    a count (cargo or passenger) that was at or above its minimum is
    unchanged; a passenger count that was below its minimum lies in
    [minimum, maximum]; a cargo count that was below its minimum has not
    decreased and is at most the maximum. *)
Theorem replenish_counts (w : World) :
  NoDup (map Planet.Key (Universe.Planets (CurrentUniverse w))) ->
  Forall TargetsFit (Universe.Planets (CurrentUniverse w)) ->
  (Runnable (CurrentUniverse w) ->
   exists tape updated w' tape',
     ReplenishMarket w tape = Done ((updated, w'), tape'))
  /\ (forall tape updated w' tape',
        ReplenishMarket w tape = Done ((updated, w'), tape') ->
        Forall (fun p => Replenished p (AvailableContracts w) (AvailableContracts w'))
               (Universe.Planets (CurrentUniverse w))).
Proof.
  intros Hnd Hfit. split.
  - intros Hrun.
    destruct (Runs_ReplenishMarket w Hrun Hfit) as (pre & [updated w'] & _ & Hdone).
    exists (pre ++ []), updated, w', []. apply Hdone.
  - intros tape updated w' tape' H.
    unfold ReplenishMarket in H. inv_bind H. destruct a as [b' u'].
    apply ret_Done in H. injection H as _ -> _.
    cbn [MarketTick CurrentUniverse AvailableContracts Market] in Hstep.
    apply replenishPlanets_spec in Hstep as [_ Hr]; [exact Hr | exact Hnd | exact Hfit].
Qed.

(** C3, refuted as stated: Prime wants exactly two cargo offers and has
    none; ore is scarce there, the first of the two cargo jobs is skipped by
    the scarcity check, and the replenishment ends with one cargo offer:
    changed, and outside [2, 2]. *)
Lemma replenish_leaves_cargo_below_minimum :
  cargoTargets ReplenishExample.prime = (2, 2)
  /\ countType "cargo" (board ReplenishExample.scarce "planet_prime") = 0
  /\ exists updated w' tape',
       ReplenishMarket ReplenishExample.scarce ReplenishExample.tape
       = Done ((updated, w'), tape')
       /\ countType "cargo" (board w' "planet_prime") = 1.
Proof.
  split; [reflexivity|]. split; [reflexivity|].
  eexists _, _, _. split; [vm_compute; reflexivity|]. vm_compute. reflexivity.
Qed.

Lemma replenish_example_keys :
  NoDup (map Planet.Key (Universe.Planets (CurrentUniverse ReplenishExample.scarce))).
Proof.
  cbn. apply NoDup_cons. split; [|apply NoDup_singleton].
  rewrite list_elem_of_singleton. discriminate.
Qed.

Lemma replenish_example_targets :
  Forall TargetsFit (Universe.Planets (CurrentUniverse ReplenishExample.scarce)).
Proof. repeat constructor; cbn; lia. Qed.

Lemma replenish_example_runnable :
  Runnable (CurrentUniverse ReplenishExample.scarce).
Proof.
  constructor.
  - discriminate.
  - intros p Hp. cbn in Hp. rewrite elem_of_cons, list_elem_of_singleton in Hp.
    destruct Hp as [->| ->].
    + exists ReplenishExample.beta. split; [cbn; right; left | discriminate].
    + exists ReplenishExample.prime. split; [cbn; left | discriminate].
  - repeat constructor; cbn; lia.
Qed.

Lemma replenish_counts_witness :
  (exists tape updated w' tape',
     ReplenishMarket ReplenishExample.scarce tape = Done ((updated, w'), tape'))
  /\ exists updated w' tape',
       ReplenishMarket ReplenishExample.scarce ReplenishExample.tape
       = Done ((updated, w'), tape')
       /\ Replenished ReplenishExample.prime
            (AvailableContracts ReplenishExample.scarce) (AvailableContracts w')
       /\ countType "passenger" (board w' "planet_prime") = 1.
Proof.
  destruct (replenish_counts ReplenishExample.scarce
              replenish_example_keys replenish_example_targets) as [Hruns H].
  split; [apply Hruns; exact replenish_example_runnable|].
  eexists _, _, _. split; [vm_compute; reflexivity|]. split; [|vm_compute; reflexivity].
  specialize (H ReplenishExample.tape _ _ _ eq_refl).
  apply Forall_cons in H as [H _]. exact H.
Defined.

Lemma offers_lookup_eq (b b' : gmap string (list Contract.t)) key :
  b' !! key = b !! key -> offers b' key = offers b key.
Proof. unfold offers. intros ->. reflexivity. Qed.

Lemma generateCargoJobs_extends u m origin count boards tape boards' tape' :
  generateCargoJobs u m origin count boards tape = Done (boards', tape') ->
  forall key, offers boards key `prefix_of` offers boards' key.
Proof.
  intros H key. apply generateCargoJobs_adds in H as (Hother & added & Hadd & _).
  destruct (decide (key = Planet.Key origin)) as [->|Hne].
  - exists added. exact Hadd.
  - rewrite (offers_lookup_eq boards boards' key) by (apply Hother; exact Hne).
    reflexivity.
Qed.

Lemma generatePassengerJobs_extends u origin count boards tape boards' tape' :
  generatePassengerJobs u origin count boards tape = Done (boards', tape') ->
  forall key, offers boards key `prefix_of` offers boards' key.
Proof.
  intros H key. apply generatePassengerJobs_adds in H as (Hother & added & Hadd & _).
  destruct (decide (key = Planet.Key origin)) as [->|Hne].
  - exists added. exact Hadd.
  - rewrite (offers_lookup_eq boards boards' key) by (apply Hother; exact Hne).
    reflexivity.
Qed.

Lemma replenishCargo_extends u m origin boards upd tape boards' upd' tape' :
  replenishCargo u m origin (boards, upd) tape = Done ((boards', upd'), tape') ->
  forall key, offers boards key `prefix_of` offers boards' key.
Proof.
  unfold replenishCargo. destruct (cargoTargets origin) as [mn mx].
  destruct (_ <? _).
  - intros H. inv_bind H. destruct (0 <? _).
    + inv_bind H. apply ret_Done in H. injection H as -> _ _.
      eapply generateCargoJobs_extends. eassumption.
    + apply ret_Done in H. injection H as -> _ _. reflexivity.
  - intros H. apply ret_Done in H. injection H as -> _ _. reflexivity.
Qed.

Lemma replenishPassengers_extends u origin boards upd tape boards' upd' tape' :
  replenishPassengers u origin (boards, upd) tape = Done ((boards', upd'), tape') ->
  forall key, offers boards key `prefix_of` offers boards' key.
Proof.
  unfold replenishPassengers. destruct (passengerTargets origin) as [mn mx].
  destruct (_ <? _).
  - intros H. inv_bind H. destruct (0 <? _).
    + inv_bind H. apply ret_Done in H. injection H as -> _ _.
      eapply generatePassengerJobs_extends. eassumption.
    + apply ret_Done in H. injection H as -> _ _. reflexivity.
  - intros H. apply ret_Done in H. injection H as -> _ _. reflexivity.
Qed.

Lemma replenishPlanets_extends u m (planets : list Planet.t) :
  forall boards upd tape boards' upd' tape',
    replenishPlanets u m planets (boards, upd) tape = Done ((boards', upd'), tape') ->
    forall key, offers boards key `prefix_of` offers boards' key.
Proof.
  induction planets as [|p rest IH]; intros boards upd tape boards' upd' tape' H key;
    cbn [replenishPlanets] in H.
  - apply ret_Done in H. injection H as -> _ _. reflexivity.
  - inv_bind H. destruct a as [b2 u2]. unfold replenishPlanet in Hstep.
    inv_bind Hstep. destruct a as [b1 u1].
    etransitivity; [eapply replenishCargo_extends; eassumption|].
    etransitivity; [eapply replenishPassengers_extends; eassumption|].
    eapply IH. eassumption.
Qed.

Lemma ReplenishMarket_extends (w : World) tape updated w' tape' :
  ReplenishMarket w tape = Done ((updated, w'), tape') ->
  PlayerShip w' = PlayerShip w
  /\ forall key, offers (AvailableContracts w) key `prefix_of` offers (AvailableContracts w') key.
Proof.
  intros H. unfold ReplenishMarket in H. inv_bind H. destruct a as [b' u'].
  apply ret_Done in H. injection H as _ -> _.
  cbn [MarketTick CurrentUniverse AvailableContracts Market PlayerShip] in *.
  split; [reflexivity|].
  eapply replenishPlanets_extends. eassumption.
Qed.

(** ** Capacity *)

Lemma Zsum_app (l1 l2 : list Z) : Zsum (l1 ++ l2) = Zsum l1 + Zsum l2.
Proof. induction l1; simpl; unfold Zsum in *; simpl; lia. Qed.

Lemma quantities_app ty (l1 l2 : list Contract.t) :
  Load.quantities ty (l1 ++ l2) = Load.quantities ty l1 + Load.quantities ty l2.
Proof. unfold Load.quantities. rewrite filter_app, map_app, Zsum_app. reflexivity. Qed.

Lemma quantities_cons ty c (l : list Contract.t) :
  Load.quantities ty (c :: l)
  = (if bool_decide (Contract.Type_ c = ty) then Contract.Quantity c else 0)
    + Load.quantities ty l.
Proof.
  unfold Load.quantities. rewrite filter_cons.
  case_bool_decide; case_decide; try contradiction; reflexivity.
Qed.

Lemma quantities_snoc ty (l : list Contract.t) c :
  Load.quantities ty (l ++ [c])
  = Load.quantities ty l
    + (if bool_decide (Contract.Type_ c = ty) then Contract.Quantity c else 0).
Proof.
  rewrite quantities_app, quantities_cons. unfold Load.quantities at 2. simpl. lia.
Qed.

Lemma quantities_nonneg ty (l : list Contract.t) :
  Forall (fun c => 0 <= Contract.Quantity c) l -> 0 <= Load.quantities ty l.
Proof.
  induction 1 as [|c l Hc Hl IH]; [reflexivity|].
  rewrite quantities_cons. case_bool_decide; lia.
Qed.

Lemma quantities_filter_le ty (P : Contract.t -> Prop) `{forall c, Decision (P c)}
    (l : list Contract.t) :
  Forall (fun c => 0 <= Contract.Quantity c) l ->
  Load.quantities ty (filter P l) <= Load.quantities ty l.
Proof.
  induction 1 as [|c l Hc Hl IH]; [reflexivity|].
  rewrite filter_cons. case_decide; rewrite !quantities_cons; case_bool_decide; lia.
Qed.

Lemma quantities_removeAt_le ty (i : nat) (l : list Contract.t) :
  Forall (fun c => 0 <= Contract.Quantity c) l ->
  Load.quantities ty (removeAt i l) <= Load.quantities ty l.
Proof.
  intros Hl. revert i. induction Hl as [|c l Hc Hl IH]; intros i.
  - destruct i; reflexivity.
  - destruct i as [|i].
    + unfold removeAt. simpl. rewrite drop_0, quantities_cons.
      case_bool_decide; lia.
    + change (removeAt (S i) (c :: l)) with (c :: removeAt i l).
      rewrite !quantities_cons. specialize (IH i). lia.
Qed.

Lemma currentLoad_acc (l : list Contract.t) (a b : Z) :
  Forall (fun c => (Contract.Type_ c = "cargo" \/ Contract.Type_ c = "passenger")
                   /\ 0 <= Contract.Quantity c) l ->
  0 <= a -> 0 <= b ->
  a + Load.quantities "cargo" l <= Int64.max_int ->
  b + Load.quantities "passenger" l <= Int64.max_int ->
  fold_left (fun acc ac =>
               if bool_decide (Contract.Type_ ac = "cargo")
               then (Int64.add (fst acc) (Contract.Quantity ac), snd acc)
               else (fst acc, Int64.add (snd acc) (Contract.Quantity ac)))
            l (a, b)
  = (a + Load.quantities "cargo" l, b + Load.quantities "passenger" l).
Proof.
  intros Hl. revert a b. induction Hl as [|c l [Hty Hq] Hl IH]; intros a b Ha Hb Hca Hpa.
  - unfold Load.quantities. simpl. f_equal; lia.
  - assert (Hnn : Forall (fun c => 0 <= Contract.Quantity c) l).
    { eapply Forall_impl; [exact Hl|]. intros ? [_ ?]. assumption. }
    pose proof (quantities_nonneg "cargo" l Hnn).
    pose proof (quantities_nonneg "passenger" l Hnn).
    rewrite !quantities_cons in *. cbn [fold_left fst snd].
    destruct Hty as [Hty|Hty]; rewrite Hty in *.
    + rewrite bool_decide_eq_true_2 in * by reflexivity.
      rewrite (bool_decide_eq_false_2 ("cargo" = "passenger")) in * by discriminate.
      rewrite (add_exact a (Contract.Quantity c)).
      2:{ unfold Int64.in_range, Int64.min_int, Int64.max_int in *. lia. }
      rewrite IH; [f_equal; lia | lia | lia | lia | lia].
    + rewrite (bool_decide_eq_false_2 ("passenger" = "cargo")) in * by discriminate.
      rewrite bool_decide_eq_true_2 in * by reflexivity.
      rewrite (add_exact b (Contract.Quantity c)).
      2:{ unfold Int64.in_range, Int64.min_int, Int64.max_int in *. lia. }
      rewrite IH; [f_equal; lia | lia | lia | lia | lia].
Qed.

Lemma findByID_In (id : string) (cs : list Contract.t) (i0 i : nat) (c : Contract.t) :
  findByID id cs i0 = Some (i, c) -> In c cs /\ Contract.ID c = id.
Proof.
  revert i0. induction cs as [|x cs IH]; intros i0; simpl; [discriminate|].
  case_bool_decide as Hx.
  - intros [= <- <-]. auto.
  - intros H. apply IH in H as [? ?]. auto.
Qed.

Section Capacity.

Variable w : World.
Hypothesis Hfits : ShipFits w.
Hypothesis Hin : Load.within (PlayerShip w).

Let ship := PlayerShip w.

Lemma aboard_nonneg :
  Forall (fun c => 0 <= Contract.Quantity c) (Ship.ActiveContracts ship).
Proof.
  eapply Forall_impl; [exact (fits_aboard w Hfits)|]. intros ? [_ ?]. assumption.
Qed.

Lemma currentLoad_exact :
  currentLoad (Ship.ActiveContracts ship) = (Load.cargo ship, Load.passengers ship).
Proof.
  destruct Hin as [Hc Hp]. destruct (fits_capacity w Hfits) as [Hcc Hpc].
  unfold currentLoad. rewrite currentLoad_acc.
  - reflexivity.
  - exact (fits_aboard w Hfits).
  - lia.
  - lia.
  - fold ship in Hc, Hcc. unfold Load.cargo in Hc. unfold Int64.max_int. lia.
  - fold ship in Hp, Hpc. unfold Load.passengers in Hp. unfold Int64.max_int. lia.
Qed.

Lemma offered_quantity (id : string) (i : nat) (target : Contract.t) :
  findByID id (board w (Ship.LocationKey ship)) 0 = Some (i, target) ->
  0 <= Contract.Quantity target <= 2 ^ 31.
Proof.
  intros Hfind. apply findByID_In in Hfind as [Hin' _]. unfold board in Hin'.
  destruct (AvailableContracts w !! Ship.LocationKey ship) as [cs|] eqn:Hcs;
    simpl in Hin'; [|contradiction].
  pose proof (fits_offers w Hfits _ _ Hcs) as Hall.
  rewrite Forall_forall in Hall. apply Hall. apply list_elem_of_In. exact Hin'.
Qed.

Lemma load_bounds :
  0 <= Load.cargo ship <= 2 ^ 62 /\ 0 <= Load.passengers ship <= 2 ^ 62.
Proof.
  destruct Hin as [Hc Hp]. destruct (fits_capacity w Hfits) as [Hcc Hpc].
  pose proof (quantities_nonneg "cargo" _ aboard_nonneg).
  pose proof (quantities_nonneg "passenger" _ aboard_nonneg).
  fold ship in Hc, Hp, Hcc, Hpc. unfold Load.cargo, Load.passengers in *. lia.
Qed.

Lemma accept_rejects (id : string) (i : nat) (target : Contract.t) :
  findByID id (board w (Ship.LocationKey ship)) 0 = Some (i, target) ->
  (Contract.Type_ target = "cargo"
   /\ Ship.CargoCapacity ship < Load.cargo ship + Contract.Quantity target)
  \/ (Contract.Type_ target = "passenger"
      /\ Ship.PassengerSlots ship < Load.passengers ship + Contract.Quantity target) ->
  exists msg,
    HandleAcceptContract (Some id) w = (RespError msg StatusConflict, w).
Proof.
  intros Hfind Hover. pose proof (offered_quantity _ _ _ Hfind) as Hq.
  pose proof load_bounds as [Hlc Hlp].
  unfold HandleAcceptContract. fold ship. rewrite Hfind, currentLoad_exact.
  rewrite !add_exact
    by (unfold Int64.in_range, Int64.min_int, Int64.max_int; lia).
  destruct Hover as [[Hty Hlt]|[Hty Hlt]]; rewrite Hty.
  - rewrite bool_decide_eq_true_2 by reflexivity.
    destruct (Z.ltb_spec (Ship.CargoCapacity ship)
                (Load.cargo ship + Contract.Quantity target)); [|lia].
    eexists. reflexivity.
  - rewrite (bool_decide_eq_false_2 ("passenger" = "cargo")) by discriminate.
    rewrite bool_decide_eq_true_2 by reflexivity.
    destruct (Z.ltb_spec (Ship.PassengerSlots ship)
                (Load.passengers ship + Contract.Quantity target)); [|lia].
    eexists. reflexivity.
Qed.

Lemma accept_within (body : option string) :
  Load.within (PlayerShip (snd (HandleAcceptContract body w))).
Proof.
  unfold HandleAcceptContract. destruct body as [id|]; [|exact Hin]. fold ship.
  destruct (findByID id (board w (Ship.LocationKey ship)) 0) as [[i target]|] eqn:Hfind;
    [|exact Hin].
  pose proof (offered_quantity _ _ _ Hfind) as Hq.
  pose proof load_bounds as [Hlc Hlp]. destruct Hin as [Hc Hp]. fold ship in Hc, Hp.
  rewrite currentLoad_exact.
  rewrite !add_exact
    by (unfold Int64.in_range, Int64.min_int, Int64.max_int; lia).
  assert (Hkeep : Load.within ship) by (split; assumption).
  destruct (bool_decide (Contract.Type_ target = "cargo")) eqn:Hcargo; cbn [andb];
    [destruct (Z.ltb_spec (Ship.CargoCapacity ship)
                 (Load.cargo ship + Contract.Quantity target)); [exact Hkeep|] |];
    (destruct (bool_decide (Contract.Type_ target = "passenger")) eqn:Hpax; cbn [andb];
     [destruct (Z.ltb_spec (Ship.PassengerSlots ship)
                  (Load.passengers ship + Contract.Quantity target)); [exact Hkeep|] |]);
    try apply bool_decide_eq_true in Hcargo; try apply bool_decide_eq_false in Hcargo;
    try apply bool_decide_eq_true in Hpax; try apply bool_decide_eq_false in Hpax;
    cbn [snd PlayerShip]; unfold Load.within, Load.cargo, Load.passengers in *;
    cbn [Ship.ActiveContracts Ship.CargoCapacity Ship.PassengerSlots];
    rewrite !quantities_snoc; repeat case_bool_decide; try congruence; lia.
Qed.

Lemma drop_within (body : option string) :
  Load.within (PlayerShip (snd (HandleDropContract body w))).
Proof.
  unfold HandleDropContract. destruct body as [id|]; [|exact Hin]. fold ship.
  destruct (findByID id (Ship.ActiveContracts ship) 0) as [[i c]|]; [|exact Hin].
  destruct Hin as [Hc Hp]. fold ship in Hc, Hp.
  cbn [snd setShip PlayerShip]. unfold Load.within, Load.cargo, Load.passengers in *.
  cbn [Ship.ActiveContracts Ship.CargoCapacity Ship.PassengerSlots].
  pose proof (quantities_removeAt_le "cargo" i _ aboard_nonneg).
  pose proof (quantities_removeAt_le "passenger" i _ aboard_nonneg).
  lia.
Qed.

Lemma travel_within (body : option string) :
  Load.within (PlayerShip (snd (HandleTravel body w))).
Proof.
  unfold HandleTravel. destruct body as [key|]; [|exact Hin]. fold ship.
  destruct (GetPlanet (CurrentUniverse w) key) as [dest|]; [|exact Hin].
  destruct (GetPlanet (CurrentUniverse w) (Ship.LocationKey ship)); [|exact Hin].
  destruct (CalculateCurrentBurn w); [|exact Hin].
  destruct (_ <? _); [exact Hin|]. rewrite deliver_spec.
  destruct Hin as [Hc Hp]. fold ship in Hc, Hp.
  cbn [snd PlayerShip]. unfold Load.within, Load.cargo, Load.passengers in *.
  cbn [Ship.ActiveContracts Ship.CargoCapacity Ship.PassengerSlots].
  unfold Delivery.remaining.
  pose proof (quantities_filter_le "cargo"
                (fun c => Contract.DestinationKey c <> Planet.Key dest) _ aboard_nonneg).
  pose proof (quantities_filter_le "passenger"
                (fun c => Contract.DestinationKey c <> Planet.Key dest) _ aboard_nonneg).
  lia.
Qed.

Lemma refuel_within : Load.within (PlayerShip (snd (HandleRefuel w))).
Proof.
  unfold HandleRefuel. fold ship.
  destruct (_ <=? _); [exact Hin|]. destruct (_ <? _); exact Hin.
Qed.

Lemma GetModule_In (u : Universe.t) (key : string) (m : ShipModule.t) :
  GetModule u key = Some m -> In m (Universe.ShipModules u).
Proof. unfold GetModule. intros H. apply find_some in H as [H _]. exact H. Qed.

Lemma buy_within (body : option string) :
  Load.within (PlayerShip (snd (HandleBuyModule body w))).
Proof.
  unfold HandleBuyModule. destruct body as [key|]; [|exact Hin]. fold ship.
  destruct (negb _); [exact Hin|]. destruct (_ <=? _); [exact Hin|].
  destruct (GetModule (CurrentUniverse w) key) as [m|] eqn:Hm; [|exact Hin].
  destruct (_ <? _); [exact Hin|].
  pose proof (fits_modules w Hfits) as Hmods. rewrite Forall_forall in Hmods.
  assert (Hv : 0 <= ShipModule.StatValue m <= 2 ^ 31).
  { apply Hmods, list_elem_of_In, (GetModule_In _ key). exact Hm. }
  pose proof load_bounds as [Hlc Hlp]. destruct Hin as [Hc Hp].
  destruct (fits_capacity w Hfits) as [Hcc Hpc]. fold ship in Hc, Hp, Hcc, Hpc.
  cbn [snd setShip PlayerShip]. unfold Load.within, Load.cargo, Load.passengers in *.
  cbn [Ship.ActiveContracts Ship.CargoCapacity Ship.PassengerSlots].
  rewrite !add_exact
    by (unfold Int64.in_range, Int64.min_int, Int64.max_int; lia).
  repeat case_bool_decide; lia.
Qed.

End Capacity.

Lemma ShipFits_crowded : ShipFits CapacityExample.crowded.
Proof.
  constructor.
  - repeat constructor; auto; simpl; lia.
  - intros location cs Hcs. unfold CapacityExample.crowded, CapacityExample.offers in Hcs.
    cbn [AvailableContracts Example.world] in Hcs.
    apply lookup_singleton_Some in Hcs as [_ <-]. repeat constructor; simpl; lia.
  - simpl. lia.
  - repeat constructor; simpl; lia.
Qed.



(** ** Ownership *)

Import Ownership.

Lemma removeAt_delete {A} (i : nat) (l : list A) : removeAt i l = delete i l.
Proof. unfold removeAt. symmetry. apply delete_take_drop. Qed.

Lemma removeAt_sublist {A} (i : nat) (l : list A) : removeAt i l `sublist_of` l.
Proof. rewrite removeAt_delete. apply sublist_delete. Qed.

Lemma ids_sublist (l1 l2 : list Contract.t) :
  l1 `sublist_of` l2 -> ids l1 `sublist_of` ids l2.
Proof. intros H. unfold ids. apply fmap_sublist. exact H. Qed.

Lemma findByID_lookup (id : string) (cs : list Contract.t) (i0 i : nat) (c : Contract.t) :
  findByID id cs i0 = Some (i, c) ->
  (i0 <= i)%nat /\ cs !! (i - i0)%nat = Some c /\ Contract.ID c = id.
Proof.
  revert i0. induction cs as [|x cs IH]; intros i0; cbn [findByID]; [discriminate|].
  case_bool_decide as Hx.
  - intros [= <- <-]. rewrite Nat.sub_diag. auto.
  - intros H. apply IH in H as (Hle & Hl & Hid).
    split; [lia|]. split; [|exact Hid].
    replace (i - i0)%nat with (S (i - S i0)) by lia. exact Hl.
Qed.

Lemma removed_id_gone (l : list Contract.t) (i : nat) (c : Contract.t) :
  NoDup (ids l) -> l !! i = Some c -> Contract.ID c ∉ ids (removeAt i l).
Proof.
  intros Hnd Hl. unfold removeAt.
  rewrite <- (take_drop_middle l i c Hl) in Hnd.
  unfold ids in *. rewrite fmap_app, fmap_cons in Hnd. rewrite fmap_app.
  apply NoDup_app in Hnd as (_ & Hdisj & Hnd). apply NoDup_cons in Hnd as [Hnot _].
  rewrite elem_of_app. intros [Hin|Hin].
  - apply (Hdisj _ Hin). left.
  - contradiction.
Qed.

(** Ownership only shrinks: the invariant is kept. *)
Lemma Distinct_shrink (w w' : World) :
  aboard w' `sublist_of` aboard w ->
  (forall key, offered w' key `sublist_of` offered w key) ->
  Distinct w -> Distinct w'.
Proof.
  intros Ha Hb [D1 D2 D3 D4].
  assert (Hia : forall id, id ∈ ids (aboard w') -> id ∈ ids (aboard w)).
  { intros id. apply sublist_subseteq, ids_sublist, Ha. }
  assert (Hib : forall key id, id ∈ ids (offered w' key) -> id ∈ ids (offered w key)).
  { intros key id. apply sublist_subseteq, ids_sublist, Hb. }
  constructor.
  - eapply sublist_NoDup; [exact D1 | apply ids_sublist, Ha].
  - intros key. eapply sublist_NoDup; [exact (D2 key) | apply ids_sublist, Hb].
  - intros k1 k2 id Hne H1 H2. apply (D3 k1 k2 id Hne); auto.
  - intros key id H1 H2. apply (D4 key id); auto.
Qed.

Lemma Distinct_Exclusive (w : World) : Distinct w -> Exclusive w.
Proof.
  intros [_ _ _ D4] c key Hc Ho. apply (D4 key (Contract.ID c)).
  - unfold ids. apply list_elem_of_fmap_2. exact Hc.
  - unfold ids. apply list_elem_of_fmap_2. exact Ho.
Qed.

Lemma offered_insert (w : World) (location key : string) (cs : list Contract.t)
    (u : Universe.t) (s : Ship.t) (m : MarketState.t) :
  offered (mkWorld u s (<[location := cs]> (AvailableContracts w)) m) key
  = if decide (location = key) then cs else offered w key.
Proof.
  unfold offered, offers. cbn [AvailableContracts]. rewrite lookup_insert.
  case_decide; reflexivity.
Qed.

Lemma accept_Distinct (body : option string) (w : World) :
  Distinct w -> Distinct (snd (HandleAcceptContract body w)).
Proof.
  intros HD. unfold HandleAcceptContract. destruct body as [id|]; [|exact HD].
  set (location := Ship.LocationKey (PlayerShip w)). clearbody location.
  destruct (findByID id (board w location) 0) as [[i target]|] eqn:Hfind; [|exact HD].
  destruct (currentLoad _) as [currentCargo currentPass].
  destruct (_ && _); [exact HD|]. destruct (_ && _); [exact HD|].
  cbn [snd]. apply findByID_lookup in Hfind as (_ & Hl & _).
  rewrite Nat.sub_0_r in Hl. change (board w location) with (offered w location) in *.
  destruct HD as [D1 D2 D3 D4].
  assert (Htarget : Contract.ID target ∈ ids (offered w location)).
  { unfold ids. apply list_elem_of_fmap_2. eapply list_elem_of_lookup_2. exact Hl. }
  constructor.
  - unfold aboard. cbn [PlayerShip Ship.ActiveContracts].
    unfold ids. rewrite fmap_app. apply NoDup_app. split; [exact D1|]. split.
    + intros x Hx Hin. apply list_elem_of_singleton in Hin. subst x.
      apply (D4 location _ Hx). exact Htarget.
    + apply NoDup_singleton.
  - intros key. rewrite offered_insert.
    destruct (decide (location = key)); [|apply D2].
    eapply sublist_NoDup; [exact (D2 location) | apply ids_sublist, removeAt_sublist].
  - intros k1 k2 x Hne. rewrite !offered_insert. intros H1 H2.
    apply (D3 k1 k2 x Hne).
    + destruct (decide (location = k1)) as [Heq|Heq]; [rewrite <- Heq|exact H1].
      revert H1. apply sublist_subseteq, ids_sublist, removeAt_sublist.
    + clear H1. destruct (decide (location = k2)) as [Heq|Heq]; [rewrite <- Heq|exact H2].
      revert H2. apply sublist_subseteq, ids_sublist, removeAt_sublist.
  - intros key x. unfold aboard. cbn [PlayerShip Ship.ActiveContracts].
    unfold ids at 1. rewrite fmap_app, elem_of_app, offered_insert.
    intros [Hx|Hx] Hin.
    + apply (D4 key x Hx).
      destruct (decide (location = key)) as [Heq|Heq]; [rewrite <- Heq|exact Hin].
      revert Hin. apply sublist_subseteq, ids_sublist, removeAt_sublist.
    + apply list_elem_of_singleton in Hx. subst x.
      destruct (decide (location = key)) as [Heq|Heq].
      * revert Hin. apply removed_id_gone; [apply D2 | exact Hl].
      * apply (D3 location key _ Heq Htarget). exact Hin.
Qed.

Lemma drop_Distinct (body : option string) (w : World) :
  Distinct w -> Distinct (snd (HandleDropContract body w)).
Proof.
  intros HD. unfold HandleDropContract. destruct body as [id|]; [|exact HD].
  destruct (findByID id _ 0) as [[i c]|]; [|exact HD].
  cbn [snd]. eapply Distinct_shrink; [| |exact HD].
  - unfold aboard. cbn [setShip PlayerShip Ship.ActiveContracts]. apply removeAt_sublist.
  - intros key. reflexivity.
Qed.

Lemma travel_Distinct (body : option string) (w : World) :
  Distinct w -> Distinct (snd (HandleTravel body w)).
Proof.
  intros HD. unfold HandleTravel. destruct body as [key|]; [|exact HD].
  destruct (GetPlanet _ key) as [dest|]; [|exact HD].
  destruct (GetPlanet _ (Ship.LocationKey _)); [|exact HD].
  destruct (CalculateCurrentBurn w); [|exact HD].
  destruct (_ <? _); [exact HD|]. rewrite deliver_spec.
  cbn [snd]. eapply Distinct_shrink; [| |exact HD].
  - unfold aboard. cbn [PlayerShip Ship.ActiveContracts].
    unfold Delivery.remaining. apply sublist_filter.
  - intros k. reflexivity.
Qed.

Lemma refuel_Distinct (w : World) : Distinct w -> Distinct (snd (HandleRefuel w)).
Proof.
  intros HD. unfold HandleRefuel. destruct (_ <=? _); [exact HD|].
  destruct (_ <? _); [exact HD|].
  cbn [snd]. eapply Distinct_shrink; [| |exact HD]; [reflexivity | intros k; reflexivity].
Qed.

Lemma buy_Distinct (body : option string) (w : World) :
  Distinct w -> Distinct (snd (HandleBuyModule body w)).
Proof.
  intros HD. unfold HandleBuyModule. destruct body as [key|]; [|exact HD].
  destruct (negb _); [exact HD|]. destruct (_ <=? _); [exact HD|].
  destruct (GetModule _ key); [|exact HD]. destruct (_ <? _); [exact HD|].
  cbn [snd]. eapply Distinct_shrink; [| |exact HD]; [reflexivity | intros k; reflexivity].
Qed.

(** C8, amended. In a state whose contract ids are pairwise distinct, no
    contract of the ship's active set is on a board, and every request
    served keeps the ids distinct: acceptance moves the contract from its
    board to the ship, drop and delivery remove it from the ship and nothing
    returns to a board.  A replenishment leaves the ship as it is and only
    appends contracts to boards. *)
Theorem ownership_exclusive_while_ids_distinct (w : World) :
  Distinct w ->
  Exclusive w
  /\ (forall r, Distinct (snd (serve r w)))
  /\ (forall tape updated w' tape',
        ReplenishMarket w tape = Done ((updated, w'), tape') ->
        PlayerShip w' = PlayerShip w
        /\ forall key, offered w key `prefix_of` offered w' key).
Proof.
  intros HD. split; [apply Distinct_Exclusive; exact HD|]. split.
  - intros [body|body|body|body| |body]; cbn [serve snd].
    + apply accept_Distinct; exact HD.
    + apply drop_Distinct; exact HD.
    + apply travel_Distinct; exact HD.
    + exact HD.
    + apply refuel_Distinct; exact HD.
    + apply buy_Distinct; exact HD.
  - intros tape updated w' tape'. apply ReplenishMarket_extends.
Qed.

(** C8, refuted as stated: ids are drawn at random and never checked.  From
    a fresh game, a replenishment offers passenger PAX-7-3 at Prime, the ship
    accepts it, and a second replenishment with the same draws offers an
    equal contract again: it is now both aboard and on the board. *)
Lemma replenish_can_reissue_a_held_contract :
  exists w1 w2 w3,
    replenished OwnershipExample.fresh OwnershipExample.tape = Some w1
    /\ aboard w1 = [] /\ offered w1 "planet_prime" = [OwnershipExample.passenger]
    /\ snd (HandleAcceptContract (Some "PAX-7-3") w1) = w2
    /\ aboard w2 = [OwnershipExample.passenger] /\ offered w2 "planet_prime" = []
    /\ replenished w2 OwnershipExample.tape = Some w3
    /\ aboard w3 = [OwnershipExample.passenger]
    /\ offered w3 "planet_prime" = [OwnershipExample.passenger]
    /\ ~ Exclusive w3.
Proof.
  eexists _, _, _.
  split; [vm_compute; reflexivity|]. split; [vm_compute; reflexivity|].
  split; [vm_compute; reflexivity|]. split; [vm_compute; reflexivity|].
  split; [vm_compute; reflexivity|]. split; [vm_compute; reflexivity|].
  split; [vm_compute; reflexivity|]. split; [vm_compute; reflexivity|].
  split; [vm_compute; reflexivity|].
  intros H. apply (H OwnershipExample.passenger "planet_prime"); vm_compute; constructor.
Qed.

Lemma offered_docked key :
  offered OwnershipExample.docked key
  = if decide (key = "planet_prime")
    then [Example.pax "PAX-4-4" "planet_beta" 125;
          Example.cargo "CRG-9-9" 5 "planet_beta" 70]
    else [].
Proof.
  unfold offered, offers, OwnershipExample.docked, Example.world.
  cbn [AvailableContracts]. case_decide as Hk.
  - subst key. rewrite lookup_singleton_eq. reflexivity.
  - rewrite lookup_singleton_ne by congruence. reflexivity.
Qed.

Lemma Distinct_docked : Distinct OwnershipExample.docked.
Proof.
  constructor.
  - apply NoDup_singleton.
  - intros key. rewrite offered_docked. case_decide; [|apply NoDup_nil_2].
    cbn. apply NoDup_cons. split; [|apply NoDup_singleton].
    rewrite list_elem_of_singleton. discriminate.
  - intros k1 k2 id Hne. rewrite !offered_docked.
    destruct (decide (k1 = "planet_prime")); destruct (decide (k2 = "planet_prime"));
      try congruence; cbn; rewrite ?elem_of_nil; tauto.
  - intros key id. rewrite offered_docked. cbn. rewrite list_elem_of_singleton.
    intros ->. case_decide; cbn; rewrite ?elem_of_cons, ?elem_of_nil;
    intuition discriminate.
Qed.

Lemma ownership_exclusive_while_ids_distinct_witness :
  Exclusive OwnershipExample.docked
  /\ Distinct (snd (serve (AcceptContract (Some "CRG-9-9")) OwnershipExample.docked))
  /\ aboard (snd (serve (AcceptContract (Some "CRG-9-9")) OwnershipExample.docked))
     = [Example.cargo "CRG-1-1" 10 "planet_beta" 100;
        Example.cargo "CRG-9-9" 5 "planet_beta" 70].
Proof.
  destruct (ownership_exclusive_while_ids_distinct OwnershipExample.docked Distinct_docked)
    as (He & Hs & _).
  split; [exact He|]. split; [apply Hs | vm_compute; reflexivity].
Defined.

(** * Further properties

    Beyond the specification's claims: what the handlers, the market and
    the hub do at their edges, and how their operations compose. *)

(** ** Replies and state *)

(** X1. Whatever the request, a reply that is not a ship (an error, a
    panic or a quote) leaves the world exactly as it was, and a ship reply
    is the ship the world now holds, as [HandleGetShip] would return it; the
    catalog is never changed by a request. *)
Theorem reply_matches_state (r : Request) (w : World) :
  match fst (serve r w) with
  | RespShip s =>
      HandleGetShip (snd (serve r w)) = s
      /\ CurrentUniverse (snd (serve r w)) = CurrentUniverse w
  | _ => snd (serve r w) = w
  end.
Proof.
  destruct r as [body|body|body|body| |body]; cbn [serve].
  - unfold HandleAcceptContract. destruct body as [id|]; cbn [fst snd]; [|reflexivity].
    destruct (findByID _ _ _) as [[i target]|]; cbn [fst snd]; [|reflexivity].
    destruct (currentLoad _) as [cc cp].
    destruct (_ && _); cbn [fst snd]; [reflexivity|].
    destruct (_ && _); cbn [fst snd]; [reflexivity|].
    split; reflexivity.
  - unfold HandleDropContract. destruct body as [id|]; cbn [fst snd]; [|reflexivity].
    destruct (findByID _ _ _) as [[i target]|]; cbn [fst snd]; [|reflexivity].
    split; reflexivity.
  - unfold HandleTravel. destruct body as [key|]; cbn [fst snd]; [|reflexivity].
    destruct (GetPlanet _ key) as [dest|]; cbn [fst snd]; [|reflexivity].
    destruct (GetPlanet _ (Ship.LocationKey _)) as [current|]; cbn [fst snd]; [|reflexivity].
    destruct (CalculateCurrentBurn w) as [burn|]; cbn [fst snd]; [|reflexivity].
    destruct (_ <? _); cbn [fst snd]; [reflexivity|].
    destruct (deliver _ _ _) as [[remaining payoutTotal] market']. cbn [fst snd].
    split; reflexivity.
  - cbn [fst snd]. destruct (HandleTravelQuote body w) eqn:E; try reflexivity.
    exfalso. unfold HandleTravelQuote in E.
    repeat match type of E with
           | match ?x with _ => _ end = _ => destruct x
           end; discriminate.
  - unfold HandleRefuel. destruct (_ <=? 0); cbn [fst snd]; [reflexivity|].
    destruct (_ <? _); cbn [fst snd]; [reflexivity|]. split; reflexivity.
  - unfold HandleBuyModule. destruct body as [key|]; cbn [fst snd]; [|reflexivity].
    destruct (negb _); cbn [fst snd]; [reflexivity|].
    destruct (_ <=? _); cbn [fst snd]; [reflexivity|].
    destruct (GetModule _ key) as [m|]; cbn [fst snd]; [|reflexivity].
    destruct (_ <? _); cbn [fst snd]; [reflexivity|]. split; reflexivity.
Qed.

(** ** Accepting and dropping contracts *)

Lemma findByID_None (id : string) (cs : list Contract.t) (i0 : nat) :
  findByID id cs i0 = None <-> id ∉ Contract.ID <$> cs.
Proof.
  revert i0. induction cs as [|c cs IH]; intros i0; cbn [findByID fmap list_fmap].
  - split; [intros _; apply not_elem_of_nil | reflexivity].
  - case_bool_decide as Hid.
    + split; [discriminate|]. intros Hn. exfalso. apply Hn. rewrite Hid. left.
    + rewrite IH. rewrite not_elem_of_cons. split; [intros; split; congruence | tauto].
Qed.

Lemma findByID_first (id : string) (cs : list Contract.t) (i0 i : nat) (c : Contract.t) :
  findByID id cs i0 = Some (i, c) ->
  (i0 <= i)%nat /\ firstWithID id cs (i - i0) c.
Proof.
  revert i0. induction cs as [|c0 cs IH]; intros i0; cbn [findByID]; [discriminate|].
  case_bool_decide as Hid.
  - intros [= <- <-]. split; [lia|]. rewrite Nat.sub_diag.
    split; [reflexivity|]. split; [exact Hid|]. intros j c' Hj. lia.
  - intros H. apply IH in H as (Hle & Hl & Hc & Hmin). split; [lia|].
    replace (i - i0)%nat with (S (i - S i0)) by lia.
    split; [exact Hl|]. split; [exact Hc|].
    intros [|j] c' Hj; cbn.
    + intros [= <-]. exact Hid.
    + apply Hmin. lia.
Qed.

(** X2. [HandleAcceptContract] never panics.  Its only errors for a
    well-formed body are 404 and 409; it replies 404 exactly when no
    contract listed by [HandleGetContracts] has the id, and any error
    leaves the world unchanged.  On success the contract taken is the first
    listed one with the id: it is appended to the ship's active contracts,
    the ship is otherwise unchanged, the listing loses exactly that entry
    and no other board changes. *)
Theorem accept_takes_first_listed (id : string) (w : World) :
  let ship := PlayerShip w in
  let listed := HandleGetContracts w in
  match HandleAcceptContract (Some id) w with
  | (RespShip ship', w') =>
      exists i target,
        firstWithID id listed i target
        /\ ship' = withActiveContracts ship (Ship.ActiveContracts ship ++ [target])
        /\ HandleGetShip w' = ship'
        /\ HandleGetContracts w' = delete i listed
        /\ (forall other, other <> Ship.LocationKey ship ->
              AvailableContracts w' !! other = AvailableContracts w !! other)
  | (RespError msg code, w') =>
      w' = w
      /\ (code = StatusNotFound \/ code = StatusConflict)
      /\ (code = StatusNotFound <-> id ∉ Contract.ID <$> listed)
  | _ => False
  end.
Proof.
  intros ship listed. unfold HandleAcceptContract.
  fold ship. unfold listed, HandleGetContracts. cbv zeta. fold ship.
  destruct (findByID id (board w (Ship.LocationKey ship)) 0) as [[i target]|] eqn:Hfind.
  - pose proof Hfind as Hin. apply findByID_first in Hin as [_ Hfirst].
    rewrite Nat.sub_0_r in Hfirst.
    assert (Hlisted : ~ (id ∉ Contract.ID <$> board w (Ship.LocationKey ship))).
    { intros Hn. apply (findByID_None id _ 0%nat) in Hn. congruence. }
    destruct (currentLoad _) as [cc cp].
    destruct (_ && _);
      [split; [reflexivity|]; split; [right; reflexivity|];
       split; [discriminate | tauto]|].
    destruct (_ && _);
      [split; [reflexivity|]; split; [right; reflexivity|];
       split; [discriminate | tauto]|].
    exists i, target. split; [exact Hfirst|]. split; [reflexivity|].
    split; [reflexivity|]. split.
    + unfold board. cbn [AvailableContracts PlayerShip Ship.LocationKey].
      rewrite lookup_insert_eq. cbn. apply removeAt_delete.
    + intros other Hne. cbn [AvailableContracts]. apply lookup_insert_ne. congruence.
  - split; [reflexivity|]. split; [left; reflexivity|].
    split; [intros _|reflexivity].
    apply (findByID_None id _ 0%nat). exact Hfind.
Qed.

Lemma accept_takes_first_listed_witness :
  exists ship' w',
    HandleAcceptContract (Some "CRG-9-9") OwnershipExample.docked = (RespShip ship', w')
    /\ firstWithID "CRG-9-9" (HandleGetContracts OwnershipExample.docked) 1
         (Example.cargo "CRG-9-9" 5 "planet_beta" 70)
    /\ (Contract.ID <$> Ship.ActiveContracts ship') = ["CRG-1-1"; "CRG-9-9"]
    /\ (Contract.ID <$> HandleGetContracts w') = ["PAX-4-4"].
Proof.
  pose proof (accept_takes_first_listed "CRG-9-9" OwnershipExample.docked) as H.
  cbv zeta in H.
  destruct (HandleAcceptContract (Some "CRG-9-9") OwnershipExample.docked)
    as [reply w'] eqn:E.
  destruct reply as [ship'| | |]; try (vm_compute in E; discriminate).
  exists ship', w'. split; [reflexivity|].
  destruct H as (i & target & Hfirst & Hship & _ & Hlist & _).
  assert (Hi : i = 1%nat /\ target = Example.cargo "CRG-9-9" 5 "planet_beta" 70).
  { destruct Hfirst as (Hl & Hid & _).
    destruct i as [|[|[|i]]]; vm_compute in Hl; try discriminate;
      injection Hl as <-; try discriminate. split; reflexivity. }
  destruct Hi as [-> ->].
  split; [exact Hfirst|]. split; [rewrite Hship; reflexivity|].
  rewrite Hlist. reflexivity.
Defined.

(** X3. [HandleDropContract] never panics.  It replies 404, changing
    nothing, exactly when no active contract has the id; otherwise it
    removes the first active contract with the id and nothing else: credits,
    fuel, boards and market heat stay as they were (no refund, no penalty,
    and the contract does not go back to a board). *)
Theorem drop_removes_first_match (id : string) (w : World) :
  let ship := PlayerShip w in
  let active := Ship.ActiveContracts ship in
  match HandleDropContract (Some id) w with
  | (RespShip ship', w') =>
      exists i c,
        firstWithID id active i c
        /\ ship' = withActiveContracts ship (delete i active)
        /\ w' = setShip w ship'
  | (RespError msg code, w') =>
      w' = w /\ code = StatusNotFound /\ id ∉ Contract.ID <$> active
  | _ => False
  end.
Proof.
  intros ship active. unfold HandleDropContract. fold ship. fold active.
  destruct (findByID id active 0) as [[i c]|] eqn:Hfind.
  - apply findByID_first in Hfind as [_ Hfirst]. rewrite Nat.sub_0_r in Hfirst.
    exists i, c. split; [exact Hfirst|]. rewrite <- removeAt_delete. split; reflexivity.
  - split; [reflexivity|]. split; [reflexivity|].
    apply (findByID_None id _ 0%nat). exact Hfind.
Qed.

Lemma findByID_app (id : string) (l l' : list Contract.t) (i0 : nat) :
  id ∉ Contract.ID <$> l ->
  findByID id (l ++ l') i0 = findByID id l' (i0 + length l).
Proof.
  revert i0. induction l as [|c l IH]; intros i0 Hn; cbn [app findByID length].
  - f_equal. lia.
  - rewrite fmap_cons in Hn. apply not_elem_of_cons in Hn as [Hne Hn].
    rewrite bool_decide_eq_false_2 by congruence.
    rewrite IH by exact Hn. f_equal. lia.
Qed.

Lemma removeAt_last {A} (l : list A) (x : A) : removeAt (length l) (l ++ [x]) = l.
Proof.
  unfold removeAt. rewrite take_app_length.
  rewrite drop_app_ge by lia.
  replace (S (length l) - length l)%nat with 1%nat by lia.
  cbn. apply app_nil_r.
Qed.

(** X4. Accepting a contract whose id is not yet aboard and dropping it
    again gives back the ship exactly as it was; the contract is lost (the
    board stays one offer shorter) and the source heat raised by the
    acceptance stays raised. *)
Theorem accept_then_drop_restores_ship (id : string) (w : World)
    (ship1 : Ship.t) (w1 : World) :
  HandleAcceptContract (Some id) w = (RespShip ship1, w1) ->
  id ∉ Contract.ID <$> Ship.ActiveContracts (PlayerShip w) ->
  HandleDropContract (Some id) w1 = (RespShip (PlayerShip w), setShip w1 (PlayerShip w))
  /\ S (length (HandleGetContracts (setShip w1 (PlayerShip w))))
     = length (HandleGetContracts w)
  /\ Market (setShip w1 (PlayerShip w)) = Market w1.
Proof.
  intros Hacc Hfresh. unfold HandleAcceptContract in Hacc.
  destruct (findByID id (board w (Ship.LocationKey (PlayerShip w))) 0)
    as [[i target]|] eqn:Hfind; [|discriminate].
  apply findByID_first in Hfind as (_ & Hl & Hid & _). rewrite Nat.sub_0_r in Hl.
  destruct (currentLoad _) as [cc cp].
  destruct (_ && _); [discriminate|]. destruct (_ && _); [discriminate|].
  injection Hacc as <- <-.
  split; [|split; [|reflexivity]].
  - unfold HandleDropContract. cbn [PlayerShip Ship.ActiveContracts].
    rewrite findByID_app by exact Hfresh. cbn [findByID].
    rewrite bool_decide_eq_true_2 by exact Hid.
    cbn [Nat.add]. rewrite removeAt_last.
    unfold setShip. cbn. destruct (PlayerShip w). reflexivity.
  - unfold HandleGetContracts, setShip, board.
    cbn [PlayerShip AvailableContracts Ship.LocationKey].
    destruct (PlayerShip w) eqn:Hs. cbn [Ship.LocationKey] in *.
    rewrite lookup_insert_eq.
    lazymatch goal with
    | |- context [default [] (Some ?l)] => change (default [] (Some l)) with l
    end.
    unfold board in Hl. rewrite removeAt_delete.
    rewrite length_delete by (exists target; exact Hl).
    apply lookup_lt_Some in Hl. lia.
Qed.

Lemma accept_then_drop_restores_ship_witness :
  exists ship1 w1 w2,
    HandleAcceptContract (Some "PAX-4-4") OwnershipExample.docked = (RespShip ship1, w1)
    /\ HandleDropContract (Some "PAX-4-4") w1
       = (RespShip (PlayerShip OwnershipExample.docked), w2)
    /\ (Contract.ID <$> HandleGetContracts OwnershipExample.docked) = ["PAX-4-4"; "CRG-9-9"]
    /\ (Contract.ID <$> HandleGetContracts w2) = ["CRG-9-9"].
Proof.
  destruct (HandleAcceptContract (Some "PAX-4-4") OwnershipExample.docked)
    as [reply w1] eqn:H.
  destruct reply as [ship1| | |]; try (vm_compute in H; discriminate).
  exists ship1, w1, (setShip w1 (PlayerShip OwnershipExample.docked)).
  split; [reflexivity|].
  destruct (accept_then_drop_restores_ship "PAX-4-4" OwnershipExample.docked ship1 w1 H)
    as (Hdrop & _ & _).
  { apply (bool_decide_unpack _). vm_compute. exact I. }
  split; [exact Hdrop|]. split; [reflexivity|].
  vm_compute in H. injection H as _ <-. vm_compute. reflexivity.
Defined.

Lemma addHeat_spec (heat : gmap string (gmap string Q)) (p c : string) (q : Q) :
  (forall p' c', (p', c') <> (p, c) ->
     heatIn (addHeat heat p c q) p' c' = heatIn heat p' c')
  /\ match heat !! p with
     | None => addHeat heat p c q = heat
     | Some inner =>
         heatIn (addHeat heat p c q) p c = Some (default 0 (inner !! c) + q)%Q
     end.
Proof.
  unfold addHeat, heatIn. destruct (heat !! p) as [inner|] eqn:Hp.
  - split.
    + intros p' c' Hne. destruct (decide (p' = p)) as [->|Hpp].
      * rewrite lookup_insert_eq, Hp. apply lookup_insert_ne. congruence.
      * rewrite lookup_insert_ne by congruence. reflexivity.
    + rewrite lookup_insert_eq. apply lookup_insert_eq.
  - split; reflexivity.
Qed.



(** ** Destinations, quotes and arrivals *)

Lemma GetPlanet_None (u : Universe.t) (key : string) :
  GetPlanet u key = None <-> key ∉ Planet.Key <$> Universe.Planets u.
Proof.
  unfold GetPlanet. induction (Universe.Planets u) as [|p ps IH]; cbn [find fmap list_fmap].
  - split; [intros _; apply not_elem_of_nil | reflexivity].
  - case_bool_decide as Hk.
    + split; [discriminate|]. intros Hn. exfalso. apply Hn. rewrite Hk. left.
    + rewrite IH, not_elem_of_cons. split; [intros; split; congruence | tauto].
Qed.

(** X6. [HandleTravel] and [HandleTravelQuote] reply 404 "Destination
    invalid" exactly for the keys that no planet listed by
    [HandleGetPlanets] has, whatever the ship's own location. *)
Theorem unknown_destination_is_not_found (key : string) (w : World) :
  (key ∉ Planet.Key <$> HandleGetPlanets w
   <-> HandleTravel (Some key) w = (RespError "Destination invalid" StatusNotFound, w))
  /\ (key ∉ Planet.Key <$> HandleGetPlanets w
      <-> HandleTravelQuote (Some key) w = RespError "Destination invalid" StatusNotFound).
Proof.
  unfold HandleGetPlanets. rewrite <- GetPlanet_None.
  unfold HandleTravel, HandleTravelQuote.
  destruct (GetPlanet (CurrentUniverse w) key) as [dest|].
  - split; (split; [discriminate|]).
    + destruct (GetPlanet _ _); [|discriminate].
      destruct (CalculateCurrentBurn w); [|discriminate].
      destruct (_ <? _); [discriminate|].
      destruct (deliver _ _ _) as [[? ?] ?]. discriminate.
    + destruct (GetPlanet _ _); [|discriminate].
      destruct (CalculateCurrentBurn w); discriminate.
  - split; split; reflexivity.
Qed.

(** X7. The quote predicts the journey.  If [HandleTravelQuote] returns a
    quote, its fuel cost is distance times burn rate (in 64-bit
    arithmetic); when it says the ship can afford the trip, [HandleTravel]
    with the same body succeeds, arrives at the requested planet and leaves
    exactly the fuel minus the quoted cost; when it says it cannot,
    [HandleTravel] replies 402 and changes nothing.  If the quote is an
    error or a panic, [HandleTravel] gives the same reply and changes
    nothing. *)
Theorem quote_predicts_travel (body : option string) (w : World) :
  match HandleTravelQuote body w with
  | RespQuote q =>
      FuelCost q = Int64.mul (Distance q) (BurnRate q)
      /\ CalculateCurrentBurn w = Some (BurnRate q)
      /\ if CanAfford q
         then exists ship' w',
                HandleTravel body w = (RespShip ship', w')
                /\ Ship.Fuel ship' = Int64.sub (Ship.Fuel (PlayerShip w)) (FuelCost q)
                /\ Some (Ship.LocationKey ship') = body
         else HandleTravel body w
              = (RespError "Insufficient Fuel for current mass" StatusPaymentRequired, w)
  | reply => HandleTravel body w = (reply, w)
  end.
Proof.
  unfold HandleTravelQuote, HandleTravel.
  destruct body as [key|]; [|reflexivity].
  destruct (GetPlanet _ key) as [dest|] eqn:Hdest; [|reflexivity].
  destruct (GetPlanet _ (Ship.LocationKey _)) as [current|]; [|reflexivity].
  destruct (CalculateCurrentBurn w) as [burn|]; [|reflexivity].
  cbn [FuelCost Distance BurnRate CanAfford].
  split; [reflexivity|]. split; [reflexivity|].
  set (fuelNeeded := Int64.mul _ burn).
  destruct (Z.leb_spec fuelNeeded (Ship.Fuel (PlayerShip w))) as [Hle|Hgt].
  - destruct (Z.ltb_spec (Ship.Fuel (PlayerShip w)) fuelNeeded) as [?|_]; [lia|].
    destruct (deliver _ _ _) as [[remaining payoutTotal] market'].
    eexists _, _. split; [reflexivity|]. cbn [Ship.Fuel Ship.LocationKey].
    split; [reflexivity|]. f_equal. eapply GetPlanet_Key. exact Hdest.
  - destruct (Z.ltb_spec (Ship.Fuel (PlayerShip w)) fuelNeeded) as [_|?]; [|lia].
    reflexivity.
Qed.

Lemma quote_predicts_travel_witness :
  exists ship' w',
    HandleTravelQuote (Some "planet_beta") Example.loaded
    = RespQuote (mkQuote 5 500 true 100)
    /\ HandleTravel (Some "planet_beta") Example.loaded = (RespShip ship', w')
    /\ Ship.Fuel ship' = 100.
Proof.
  pose proof (quote_predicts_travel (Some "planet_beta") Example.loaded) as H.
  change (HandleTravelQuote (Some "planet_beta") Example.loaded)
    with (RespQuote (mkQuote 5 500 true 100)) in H.
  cbn [CanAfford FuelCost] in H.
  destruct H as (_ & _ & ship' & w' & Ht & Hf & _).
  exists ship', w'. split; [reflexivity|]. split; [exact Ht|]. rewrite Hf. reflexivity.
Defined.

Lemma CalculateDistance_same (p : list Z) : CalculateDistance p p = 0.
Proof.
  destruct p as [|x [|y rest]]; try reflexivity.
  unfold CalculateDistance, Int64.sub. rewrite !Z.sub_diag. reflexivity.
Qed.

(** X8. A journey between planets with the same coordinates, in
    particular to the planet the ship is on, covers distance 0 and costs no
    fuel whatever the burn rate: it succeeds with any non-negative fuel
    level, contracts for the place of arrival are delivered as on any
    arrival, and the quote for it is distance 0, cost 0, affordable. *)
Theorem travel_over_no_distance_is_free (w : World) (key : string)
    (dest current : Planet.t) :
  let u := CurrentUniverse w in
  let ship := PlayerShip w in
  GetPlanet u key = Some dest ->
  GetPlanet u (Ship.LocationKey ship) = Some current ->
  Planet.Coordinates dest = Planet.Coordinates current ->
  Ship.BurnDamping ship <> 0 ->
  0 <= Ship.Fuel ship <= Int64.max_int ->
  exists ship' w' burn,
    HandleTravel (Some key) w = (RespShip ship', w')
    /\ Ship.Fuel ship' = Ship.Fuel ship
    /\ Ship.LocationKey ship' = key
    /\ Ship.ActiveContracts ship'
       = Delivery.remaining key (Ship.ActiveContracts ship)
    /\ HandleTravelQuote (Some key) w = RespQuote (mkQuote 0 0 true burn).
Proof.
  intros u ship Hdest Hcur Hco Hd Hf.
  destruct (CalculateCurrentBurn_floor w Hd) as (burn & Hburn & _).
  pose proof (GetPlanet_Key _ _ _ Hdest) as Hk.
  unfold HandleTravel, HandleTravelQuote. fold u. fold ship.
  rewrite Hdest, Hcur, Hburn, Hco, CalculateDistance_same.
  change (Int64.mul 0 burn) with 0.
  destruct (Z.ltb_spec (Ship.Fuel ship) 0) as [?|_]; [lia|].
  destruct (Z.leb_spec 0 (Ship.Fuel ship)) as [_|?]; [|lia].
  rewrite Hk, deliver_spec.
  eexists _, _, burn. split; [reflexivity|]. cbn [Ship.Fuel Ship.LocationKey Ship.ActiveContracts].
  split; [|repeat split].
  unfold Int64.sub. rewrite Z.sub_0_r. apply wrap_in_range.
  unfold Int64.in_range, Int64.min_int, Int64.max_int in *. lia.
Qed.

Lemma travel_over_no_distance_is_free_witness :
  exists ship' w' burn,
    HandleTravel (Some "planet_prime") Example.loaded = (RespShip ship', w')
    /\ Ship.Fuel ship' = 600
    /\ Ship.LocationKey ship' = "planet_prime"
    /\ Ship.ActiveContracts ship'
       = Delivery.remaining "planet_prime" Example.aboard
    /\ HandleTravelQuote (Some "planet_prime") Example.loaded
       = RespQuote (mkQuote 0 0 true burn).
Proof.
  apply (travel_over_no_distance_is_free Example.loaded "planet_prime"
           Example.alpha Example.alpha); try reflexivity.
  - discriminate.
  - vm_compute. split; discriminate.
Defined.

Lemma delivered_remaining (key : string) (cs : list Contract.t) :
  Delivery.delivered key (Delivery.remaining key cs) = []
  /\ Delivery.remaining key (Delivery.remaining key cs) = Delivery.remaining key cs.
Proof.
  unfold Delivery.delivered, Delivery.remaining. induction cs as [|c cs [IH1 IH2]].
  - split; reflexivity.
  - rewrite (filter_cons (fun c => Contract.DestinationKey c <> key)).
    destruct (decide (Contract.DestinationKey c <> key)) as [Hne|Heq].
    + rewrite !filter_cons. rewrite decide_False by (intros E; exact (Hne E)).
      rewrite decide_True by exact Hne. rewrite IH1, IH2. split; reflexivity.
    + split; assumption.
Qed.

(** X9. After a successful journey no contract for the place of arrival
    is left aboard, and asking to travel there again changes nothing: the
    same ship comes back, no credits are paid a second time and no heat is
    recorded again (fuel and credits being 64-bit values, fuel not
    negative). *)
Theorem arriving_twice_pays_once (key : string) (w : World) (ship1 : Ship.t) (w1 : World) :
  HandleTravel (Some key) w = (RespShip ship1, w1) ->
  0 <= Ship.Fuel ship1 <= Int64.max_int ->
  Int64.in_range (Ship.Credits ship1) ->
  Forall (fun c => Contract.DestinationKey c <> key) (Ship.ActiveContracts ship1)
  /\ HandleTravel (Some key) w1 = (RespShip ship1, w1).
Proof.
  intros Htravel Hfuel Hcred. unfold HandleTravel in Htravel.
  destruct (GetPlanet (CurrentUniverse w) key) as [dest|] eqn:Hdest; [|discriminate].
  destruct (GetPlanet _ (Ship.LocationKey _)) as [current|]; [|discriminate].
  destruct (CalculateCurrentBurn w) as [burn|] eqn:Hburn; [|discriminate].
  destruct (_ <? _); [discriminate|].
  pose proof (GetPlanet_Key _ _ _ Hdest) as Hk.
  rewrite Hk, deliver_spec in Htravel. injection Htravel as <- <-.
  split.
  { cbn [Ship.ActiveContracts]. unfold Delivery.remaining. apply Forall_forall. intros c Hc.
    apply list_elem_of_filter in Hc as [Hc _]. exact Hc. }
  assert (Hd : Ship.BurnDamping (PlayerShip w) <> 0).
  { intros E. unfold CalculateCurrentBurn, Int64.div in Hburn. rewrite E in Hburn.
    discriminate. }
  set (ship1 := Ship.mk _ _ _ _ _ _ _ _ _ _ _ _ _) in *.
  set (w1 := mkWorld _ _ _ _).
  destruct (CalculateCurrentBurn_floor w1 Hd) as (burn1 & Hburn1 & _).
  unfold HandleTravel. cbn [CurrentUniverse PlayerShip w1].
  change (Ship.LocationKey ship1) with key.
  rewrite Hdest, CalculateDistance_same.
  change (CalculateCurrentBurn (mkWorld (CurrentUniverse w) ship1 (AvailableContracts w)
            (Delivery.recorded
               (Delivery.delivered key (Ship.ActiveContracts (PlayerShip w))) (Market w))))
    with (CalculateCurrentBurn w1).
  rewrite Hburn1. change (Int64.mul 0 burn1) with 0.
  destruct (Z.ltb_spec (Ship.Fuel ship1) 0) as [?|_]; [lia|].
  rewrite Hk, deliver_spec. cbn [Ship.ActiveContracts ship1 Market].
  destruct (delivered_remaining key (Ship.ActiveContracts (PlayerShip w))) as [-> ->].
  cbn [fold_left Delivery.recorded].
  assert (Hc' : Int64.add (Ship.Credits ship1) 0 = Ship.Credits ship1).
  { unfold Int64.add. rewrite Z.add_0_r. apply wrap_in_range. exact Hcred. }
  assert (Hf' : Int64.sub (Ship.Fuel ship1) 0 = Ship.Fuel ship1).
  { unfold Int64.sub. rewrite Z.sub_0_r. apply wrap_in_range.
    unfold Int64.in_range, Int64.min_int, Int64.max_int in *. lia. }
  rewrite Hc', Hf'. reflexivity.
Qed.

Lemma arriving_twice_pays_once_witness :
  exists ship1 w1,
    HandleTravel (Some "planet_beta") Example.loaded = (RespShip ship1, w1)
    /\ Ship.Credits ship1 = 255
    /\ HandleTravel (Some "planet_beta") w1 = (RespShip ship1, w1).
Proof.
  destruct (HandleTravel (Some "planet_beta") Example.loaded) as [reply w1] eqn:H.
  destruct reply as [ship1| | |]; try (vm_compute in H; discriminate).
  exists ship1, w1. split; [reflexivity|].
  assert (Hs : ship1 = Example.shipWith "planet_beta" 255 100
                         [Example.cargo "CRG-2-2" 5 "planet_prime" 40]).
  { vm_compute in H. injection H as <- _. reflexivity. }
  split; [rewrite Hs; reflexivity|].
  apply (arriving_twice_pays_once "planet_beta" Example.loaded ship1 w1 H);
    rewrite Hs; vm_compute; split; discriminate.
Defined.

Lemma deliveredQuantity_cons (item : string) (c : Contract.t) (cs : list Contract.t) :
  deliveredQuantity item (c :: cs)
  = (if bool_decide (Contract.ItemKey c = item) then Contract.Quantity c else 0)
    + deliveredQuantity item cs.
Proof.
  unfold deliveredQuantity. rewrite filter_cons.
  case_bool_decide; [rewrite decide_True by assumption | rewrite decide_False by assumption];
    reflexivity.
Qed.

Lemma deliveredQuantity_absent (item : string) (cs : list Contract.t) :
  item ∉ Contract.ItemKey <$> cs -> deliveredQuantity item cs = 0.
Proof.
  induction cs as [|c cs IH]; intros Hn; [reflexivity|].
  rewrite fmap_cons in Hn. apply not_elem_of_cons in Hn as [Hne Hn].
  rewrite deliveredQuantity_cons, bool_decide_eq_false_2 by congruence.
  rewrite IH by exact Hn. reflexivity.
Qed.

Lemma recorded_spec (key : string) (cs : list Contract.t) :
  Forall (fun c => Contract.DestinationKey c = key) cs ->
  forall m : MarketState.t,
    let m' := Delivery.recorded cs m in
    MarketState.SourceHeat m' = MarketState.SourceHeat m
    /\ (forall pKey cKey, pKey <> key ->
          heatIn (MarketState.DestHeat m') pKey cKey
          = heatIn (MarketState.DestHeat m) pKey cKey)
    /\ match MarketState.DestHeat m !! key with
       | None => m' = m
       | Some inner =>
           forall item,
             if decide (item ∈ Contract.ItemKey <$> cs)
             then exists h,
                    heatIn (MarketState.DestHeat m') key item = Some h
                    /\ (h == default 0 (inner !! item)
                             + inject_Z (deliveredQuantity item cs) * (2 # 100))%Q
             else heatIn (MarketState.DestHeat m') key item = inner !! item
       end.
Proof.
  induction 1 as [|c cs Hc Hcs IH]; intros m; cbn [Delivery.recorded fold_left].
  - split; [reflexivity|]. split; [reflexivity|].
    destruct (MarketState.DestHeat m !! key) as [inner|] eqn:Hk; [|reflexivity].
    intros item. rewrite decide_False by apply not_elem_of_nil.
    unfold heatIn. rewrite Hk. reflexivity.
  - fold (Delivery.recorded cs
            (RecordDelivery m (Contract.DestinationKey c) (Contract.ItemKey c)
               (Contract.Quantity c))).
    rewrite Hc.
    set (q := (inject_Z (Contract.Quantity c) * (2 # 100))%Q).
    set (m1 := RecordDelivery m key (Contract.ItemKey c) (Contract.Quantity c)).
    destruct (IH m1) as (HS & Hother & Hkey). cbv zeta in HS, Hother, Hkey.
    destruct (addHeat_spec (MarketState.DestHeat m) key (Contract.ItemKey c) q)
      as [Hframe Hhit].
    assert (HD1 : MarketState.DestHeat m1
                  = addHeat (MarketState.DestHeat m) key (Contract.ItemKey c) q)
      by reflexivity.
    split; [rewrite HS; reflexivity|]. split.
    { intros pKey cKey Hne. rewrite Hother by exact Hne. rewrite HD1.
      apply Hframe. congruence. }
    destruct (MarketState.DestHeat m !! key) as [inner|] eqn:Hk.
    + assert (Hk1 : MarketState.DestHeat m1 !! key
                    = Some (<[Contract.ItemKey c := (default 0 (inner !! Contract.ItemKey c) + q)%Q]> inner)).
      { rewrite HD1. unfold addHeat. rewrite Hk. apply lookup_insert_eq. }
      rewrite Hk1 in Hkey. intros item. specialize (Hkey item).
      rewrite deliveredQuantity_cons.
      destruct (decide (item = Contract.ItemKey c)) as [->|Hne].
      * rewrite decide_True by (rewrite fmap_cons; left).
        rewrite bool_decide_eq_true_2 by reflexivity.
        rewrite lookup_insert_eq in Hkey. cbn [default from_option] in Hkey.
        destruct (decide (Contract.ItemKey c ∈ Contract.ItemKey <$> cs)) as [Hin|Hnot].
        -- destruct Hkey as (h & Hh & Heq). exists h. split; [exact Hh|].
           rewrite Heq. unfold q. rewrite inject_Z_plus. unfold Datatypes.id. ring.
        -- eexists. split; [exact Hkey|].
           rewrite (deliveredQuantity_absent _ _ Hnot). unfold q.
           rewrite Z.add_0_r. reflexivity.
      * rewrite bool_decide_eq_false_2 by congruence.
        rewrite lookup_insert_ne in Hkey by congruence. rewrite Z.add_0_l.
        destruct (decide (item ∈ Contract.ItemKey <$> cs)) as [Hin|Hnot].
        -- rewrite decide_True by (rewrite fmap_cons; right; exact Hin). exact Hkey.
        -- rewrite decide_False; [exact Hkey|].
           rewrite fmap_cons, not_elem_of_cons. tauto.
    + assert (Hm1 : m1 = m).
      { unfold m1, RecordDelivery. change (inject_Z _ * _)%Q with q. rewrite Hhit.
        destruct m. reflexivity. }
      rewrite Hm1 in Hkey |- *. rewrite Hk in Hkey. exact Hkey.
Qed.



(** ** Refuelling and modules *)

(** X11. A successful refuel leaves the tank at [MaxFuel], and the next
    refuel request is answered 400 "Tank is already full" without any
    change; a refused refuel changes nothing. *)
Theorem refuel_fills_the_tank_once (w : World) :
  match HandleRefuel w with
  | (RespShip ship', w') =>
      Ship.Fuel ship' = Ship.MaxFuel (PlayerShip w)
      /\ Ship.MaxFuel ship' = Ship.MaxFuel (PlayerShip w)
      /\ HandleRefuel w' = (RespError "Tank is already full" StatusBadRequest, w')
  | (_, w') => w' = w
  end.
Proof.
  unfold HandleRefuel at 1.
  destruct (_ <=? 0); [reflexivity|].
  destruct (_ <? _); [reflexivity|].
  cbn [Ship.Fuel Ship.MaxFuel]. split; [reflexivity|]. split; [reflexivity|].
  unfold HandleRefuel, setShip. cbn [PlayerShip Ship.Fuel Ship.MaxFuel].
  unfold Int64.sub. rewrite Z.sub_diag. reflexivity.
Qed.

Lemma GetModule_Key (u : Universe.t) (key : string) (m : ShipModule.t) :
  GetModule u key = Some m -> ShipModule.Key m = key.
Proof.
  unfold GetModule. intros H. apply find_some in H as [_ H].
  apply bool_decide_eq_true in H. exact H.
Qed.

(** X12. [HandleBuyModule] never panics and an error changes nothing.
    A purchase that succeeds installs a module that [HandleGetModules]
    lists (so nothing can be bought away from planet_prime), with the
    requested key and a price the ship could pay; the module is appended to
    the installed ones, its price is subtracted, and contracts and fuel are
    untouched. *)
Theorem buy_installs_a_listed_module (key : string) (w : World) :
  let ship := PlayerShip w in
  match HandleBuyModule (Some key) w with
  | (RespShip ship', w') =>
      exists m,
        m ∈ HandleGetModules w
        /\ ShipModule.Key m = key
        /\ ShipModule.Cost m <= Ship.Credits ship
        /\ Ship.InstalledModules ship' = Ship.InstalledModules ship ++ [m]
        /\ Ship.Credits ship' = Int64.sub (Ship.Credits ship) (ShipModule.Cost m)
        /\ Ship.ActiveContracts ship' = Ship.ActiveContracts ship
        /\ Ship.Fuel ship' = Ship.Fuel ship
        /\ w' = setShip w ship'
  | (RespError _ _, w') => w' = w
  | _ => False
  end.
Proof.
  intros ship. unfold HandleBuyModule, HandleGetModules. fold ship.
  destruct (negb _); [reflexivity|].
  destruct (_ <=? _); [reflexivity|].
  destruct (GetModule _ key) as [m|] eqn:Hm; [|reflexivity].
  destruct (Z.ltb_spec (Ship.Credits ship) (ShipModule.Cost m)) as [Hlt|Hge]; [reflexivity|].
  exists m. split.
  { apply list_elem_of_In. eapply GetModule_In. exact Hm. }
  split; [eapply GetModule_Key; exact Hm|].
  split; [exact Hge|]. repeat split; reflexivity.
Qed.

Lemma buy_installs_a_listed_module_witness :
  exists ship' w',
    HandleBuyModule (Some "mod_cargo_bay") ShopExample.rich = (RespShip ship', w')
    /\ Example.bay ∈ HandleGetModules ShopExample.rich
    /\ Ship.InstalledModules ship' = [Example.bay]
    /\ Ship.Credits ship' = 400.
Proof.
  pose proof (buy_installs_a_listed_module "mod_cargo_bay" ShopExample.rich) as H.
  cbv zeta in H.
  destruct (HandleBuyModule (Some "mod_cargo_bay") ShopExample.rich) as [reply w'] eqn:E.
  destruct reply as [ship'| | |]; try (vm_compute in E; discriminate).
  exists ship', w'. split; [reflexivity|].
  destruct H as (m & Hin & Hkey & _ & Hinst & Hcred & _).
  assert (Hm : m = Example.bay).
  { change (HandleGetModules ShopExample.rich) with [Example.bay] in Hin.
    apply list_elem_of_singleton in Hin. exact Hin. }
  subst m. split; [exact Hin|]. split; [exact Hinst|]. rewrite Hcred. reflexivity.
Defined.

Lemma modules_step (r : Request) (w : World) :
  let w' := snd (serve r w) in
  Ship.MaxModuleSlots (PlayerShip w') = Ship.MaxModuleSlots (PlayerShip w)
  /\ (Ship.InstalledModules (PlayerShip w') = Ship.InstalledModules (PlayerShip w)
      \/ (Z.of_nat (length (Ship.InstalledModules (PlayerShip w)))
            < Ship.MaxModuleSlots (PlayerShip w)
          /\ exists m, Ship.InstalledModules (PlayerShip w')
                       = Ship.InstalledModules (PlayerShip w) ++ [m])).
Proof.
  destruct r as [body|body|body|body| |body]; cbn [serve].
  - unfold HandleAcceptContract. destruct body as [id|]; cbn [fst snd]; [|auto].
    destruct (findByID _ _ _) as [[i target]|]; cbn [fst snd]; [|auto].
    destruct (currentLoad _) as [cc cp].
    destruct (_ && _); cbn [fst snd]; [auto|].
    destruct (_ && _); cbn [fst snd]; auto.
  - unfold HandleDropContract. destruct body as [id|]; cbn [fst snd]; [|auto].
    destruct (findByID _ _ _) as [[i target]|]; cbn [fst snd]; auto.
  - unfold HandleTravel. destruct body as [key|]; cbn [fst snd]; [|auto].
    destruct (GetPlanet _ key) as [dest|]; cbn [fst snd]; [|auto].
    destruct (GetPlanet _ (Ship.LocationKey _)) as [current|]; cbn [fst snd]; [|auto].
    destruct (CalculateCurrentBurn w) as [burn|]; cbn [fst snd]; [|auto].
    destruct (_ <? _); cbn [fst snd]; [auto|].
    destruct (deliver _ _ _) as [[remaining payoutTotal] market']. cbn [fst snd]. auto.
  - cbn [snd]. auto.
  - unfold HandleRefuel. destruct (_ <=? 0); cbn [fst snd]; [auto|].
    destruct (_ <? _); cbn [fst snd]; auto.
  - unfold HandleBuyModule. destruct body as [key|]; cbn [fst snd]; [|auto].
    destruct (negb _); cbn [fst snd]; [auto|].
    destruct (Z.leb_spec (Ship.MaxModuleSlots (PlayerShip w))
                (Z.of_nat (length (Ship.InstalledModules (PlayerShip w)))));
      cbn [fst snd]; [auto|].
    destruct (GetModule _ key) as [m|]; cbn [fst snd]; [|auto].
    destruct (_ <? _); cbn [fst snd]; [auto|].
    split; [reflexivity|]. right. split; [assumption|]. exists m. reflexivity.
Qed.

(** X13. No sequence of requests installs more modules than the ship has
    slots: if the installed modules fit in [MaxModuleSlots] they still do
    after any requests, the number of slots never changes, and modules are
    only ever added at the end of the list, never removed. *)
Theorem module_slots_never_exceeded (rs : list Request) (w : World) :
  Z.of_nat (length (Ship.InstalledModules (PlayerShip w)))
    <= Ship.MaxModuleSlots (PlayerShip w) ->
  let w' := serveAll rs w in
  Z.of_nat (length (Ship.InstalledModules (PlayerShip w')))
    <= Ship.MaxModuleSlots (PlayerShip w')
  /\ Ship.MaxModuleSlots (PlayerShip w') = Ship.MaxModuleSlots (PlayerShip w)
  /\ Ship.InstalledModules (PlayerShip w) `prefix_of` Ship.InstalledModules (PlayerShip w').
Proof.
  revert w. induction rs as [|r rs IH]; intros w Hinv; cbn.
  - split; [exact Hinv|]. split; reflexivity.
  - pose proof (modules_step r w) as [Hmax Hstep]. cbv zeta in Hmax, Hstep.
    unfold serveAll in IH. cbn in IH.
    destruct Hstep as [Heq | [Hlt [m Heq]]].
    + specialize (IH (snd (serve r w))). rewrite Heq, Hmax in IH.
      specialize (IH Hinv). exact IH.
    + specialize (IH (snd (serve r w))). rewrite Heq, Hmax in IH.
      rewrite length_app in IH. cbn [length] in IH.
      destruct IH as (H1 & H2 & H3); [lia|].
      split; [exact H1|]. split; [exact H2|].
      etransitivity; [|exact H3]. apply prefix_app_r. reflexivity.
Qed.

Lemma module_slots_never_exceeded_witness :
  let w' := serveAll (replicate 3 (BuyModule (Some "mod_cargo_bay"))) ShopExample.rich in
  Z.of_nat (length (Ship.InstalledModules (PlayerShip w')))
    <= Ship.MaxModuleSlots (PlayerShip w')
  /\ Ship.InstalledModules (PlayerShip w') = [Example.bay; Example.bay].
Proof.
  cbv zeta. split.
  - apply (module_slots_never_exceeded
             (replicate 3 (BuyModule (Some "mod_cargo_bay")))
             ShopExample.rich).
    simpl. lia.
  - vm_compute. reflexivity.
Defined.

(** X14. Neither refuelling nor buying a module overdraws the account.
    With a 64-bit non-negative balance, a refuel at a non-negative price (a
    full tank costing a 64-bit amount) and a purchase from a catalog without
    negative prices leave a balance between zero and the old balance. *)
Theorem purchases_never_overdraw (w : World) :
  let ship := PlayerShip w in
  let u := CurrentUniverse w in
  let price := GameBalance.FuelCostPerUnit (Universe.BalanceConfig u) in
  0 <= Ship.Credits ship <= Int64.max_int ->
  (0 <= price ->
   0 <= Ship.Fuel ship <= Ship.MaxFuel ship ->
   Ship.MaxFuel ship <= Int64.max_int ->
   Ship.MaxFuel ship * price <= Int64.max_int ->
   0 <= Ship.Credits (PlayerShip (snd (HandleRefuel w))) <= Ship.Credits ship)
  /\ (Forall (fun m => 0 <= ShipModule.Cost m) (Universe.ShipModules u) ->
      forall body,
        0 <= Ship.Credits (PlayerShip (snd (HandleBuyModule body w))) <= Ship.Credits ship).
Proof.
  intros ship u price Hc. split.
  - intros Hp Hf Hmx Hmax. unfold HandleRefuel. fold ship. fold u. fold price.
    rewrite sub_exact
      by (unfold Int64.in_range, Int64.min_int, Int64.max_int in *; lia).
    destruct (Z.leb_spec (Ship.MaxFuel ship - Ship.Fuel ship) 0) as [_|Hpos];
      cbn [snd]; [fold ship; lia|].
    set (q := Z.quot (Ship.MaxFuel ship - Ship.Fuel ship) 100).
    assert (Hq : 0 <= q <= Ship.MaxFuel ship).
    { unfold q. split; [apply Z.quot_pos; lia|].
      transitivity (Ship.MaxFuel ship - Ship.Fuel ship); [|lia].
      apply Z.quot_le_upper_bound; lia. }
    assert (Hcost : Int64.mul q price = q * price).
    { apply wrap_in_range.
      unfold Int64.in_range, Int64.min_int, Int64.max_int in *. nia. }
    rewrite Hcost.
    destruct (Z.ltb_spec (Ship.Credits ship) (q * price)) as [_|Hge];
      cbn [snd]; [fold ship; lia|].
    unfold setShip. cbn [PlayerShip Ship.Credits].
    rewrite sub_exact
      by (unfold Int64.in_range, Int64.min_int, Int64.max_int in *; nia).
    nia.
  - intros Hcat body. unfold HandleBuyModule. fold ship. fold u.
    destruct body as [key|]; cbn [snd]; [|fold ship; lia].
    destruct (negb _); cbn [snd]; [fold ship; lia|].
    destruct (_ <=? _); cbn [snd]; [fold ship; lia|].
    destruct (GetModule u key) as [m|] eqn:Hm; cbn [snd]; [|fold ship; lia].
    apply GetModule_In in Hm. rewrite Forall_forall in Hcat.
    apply list_elem_of_In in Hm. specialize (Hcat m Hm).
    destruct (Z.ltb_spec (Ship.Credits ship) (ShipModule.Cost m)) as [_|Hge];
      cbn [snd]; [fold ship; lia|].
    unfold setShip. cbn [PlayerShip Ship.Credits].
    rewrite sub_exact
      by (unfold Int64.in_range, Int64.min_int, Int64.max_int in *; lia).
    lia.
Qed.

Lemma purchases_never_overdraw_witness :
  let w := ShopExample.modest in
  Ship.Credits (PlayerShip (snd (HandleRefuel w))) = 100
  /\ 0 <= Ship.Credits (PlayerShip (snd (HandleRefuel w))) <= 150
  /\ 0 <= Ship.Credits (PlayerShip (snd (HandleBuyModule (Some "mod_cargo_bay") w))) <= 150.
Proof.
  cbv zeta.
  pose proof (purchases_never_overdraw ShopExample.modest) as H.
  cbv zeta in H. destruct H as [Hr Hb]; [vm_compute; split; discriminate|].
  split; [reflexivity|]. split.
  - apply Hr; vm_compute; try split; discriminate.
  - apply Hb. repeat constructor. vm_compute. discriminate.
Defined.

(** ** Distance as a rounding *)



(** ** Heat over time *)

Section Cooling.

Local Open Scope Q_scope.

Lemma tickHeat_step_above (h : Q) : 1 <= h -> tickHeat h == Qmax 1 (h - recoveryRate).
Proof.
  intros Hh. unfold recoveryRate.
  destruct (tickHeat_cases h) as [[Hgt ->]|[[Hlt _]|[Heq ->]]].
  - reflexivity.
  - lra.
  - destruct (Q.max_spec 1 (h - (5 # 100))) as [[? ->]|[? ->]]; lra.
Qed.

Lemma tickHeat_step_below (h : Q) : h <= 1 -> tickHeat h == Qmin 1 (h + recoveryRate).
Proof.
  intros Hh. unfold recoveryRate.
  destruct (tickHeat_cases h) as [[Hgt _]|[[Hlt ->]|[Heq ->]]].
  - lra.
  - reflexivity.
  - destruct (Q.min_spec 1 (h + (5 # 100))) as [[? ->]|[? ->]]; lra.
Qed.

Lemma tickHeat_iter_above (n : nat) :
  forall h, 1 <= h ->
    Nat.iter n tickHeat h == Qmax 1 (h - inject_Z (Z.of_nat n) * recoveryRate).
Proof.
  induction n as [|n IH]; intros h Hh.
  - cbn [Nat.iter nat_rect]. change (inject_Z (Z.of_nat 0)) with 0.
    destruct (Q.max_spec 1 (h - 0 * recoveryRate)) as [[? ->]|[? ->]]; lra.
  - rewrite Nat.iter_succ_r.
    pose proof (tickHeat_step_above h Hh) as Hs.
    destruct (tickHeat_side h) as [[Hlo _] _]; [exact Hh|].
    rewrite (IH (tickHeat h) Hlo).
    rewrite Nat2Z.inj_succ. unfold Z.succ. rewrite inject_Z_plus.
    change (inject_Z 1) with 1.
    assert (0 <= inject_Z (Z.of_nat n)).
    { change 0 with (inject_Z 0). rewrite <- Zle_Qle. lia. }
    unfold recoveryRate in *.
    destruct (Q.max_spec 1 (h - (5 # 100))) as [[? E1]|[? E1]]; rewrite E1 in Hs;
      destruct (Q.max_spec 1 (tickHeat h - inject_Z (Z.of_nat n) * (5 # 100)))
        as [[? ->]|[? ->]];
      destruct (Q.max_spec 1 (h - (inject_Z (Z.of_nat n) + 1) * (5 # 100)))
        as [[? ->]|[? ->]]; lra.
Qed.

Lemma tickHeat_iter_below (n : nat) :
  forall h, h <= 1 ->
    Nat.iter n tickHeat h == Qmin 1 (h + inject_Z (Z.of_nat n) * recoveryRate).
Proof.
  induction n as [|n IH]; intros h Hh.
  - cbn [Nat.iter nat_rect]. change (inject_Z (Z.of_nat 0)) with 0.
    destruct (Q.min_spec 1 (h + 0 * recoveryRate)) as [[? ->]|[? ->]]; lra.
  - rewrite Nat.iter_succ_r.
    pose proof (tickHeat_step_below h Hh) as Hs.
    destruct (tickHeat_side h) as [_ [_ Hhi]]; [exact Hh|].
    rewrite (IH (tickHeat h) Hhi).
    rewrite Nat2Z.inj_succ. unfold Z.succ. rewrite inject_Z_plus.
    change (inject_Z 1) with 1.
    assert (0 <= inject_Z (Z.of_nat n)).
    { change 0 with (inject_Z 0). rewrite <- Zle_Qle. lia. }
    unfold recoveryRate in *.
    destruct (Q.min_spec 1 (h + (5 # 100))) as [[? E1]|[? E1]]; rewrite E1 in Hs;
      destruct (Q.min_spec 1 (tickHeat h + inject_Z (Z.of_nat n) * (5 # 100)))
        as [[? ->]|[? ->]];
      destruct (Q.min_spec 1 (h + (inject_Z (Z.of_nat n) + 1) * (5 # 100)))
        as [[? ->]|[? ->]]; lra.
Qed.



End Cooling.

(** ** Start-up and reload *)

Lemma initPlanet_fold (k : string) (cs : list Commodity.t) :
  forall (inner : gmap string Q) (S D : gmap string (gmap string Q)),
    fold_left
      (fun m c =>
         MarketState.mk
           (setHeat (MarketState.SourceHeat m) k (Commodity.Key c) 1)
           (setHeat (MarketState.DestHeat m) k (Commodity.Key c) 1))
      cs (MarketState.mk (<[k := inner]> S) (<[k := inner]> D))
    = MarketState.mk
        (<[k := fold_left (fun inner c => <[Commodity.Key c := 1%Q]> inner) cs inner]> S)
        (<[k := fold_left (fun inner c => <[Commodity.Key c := 1%Q]> inner) cs inner]> D).
Proof.
  induction cs as [|c cs IH]; intros inner S D; cbn [fold_left]; [reflexivity|].
  cbn [MarketState.SourceHeat MarketState.DestHeat]. unfold setHeat.
  rewrite !alter_insert_eq. apply IH.
Qed.

Lemma initPlanet_heat (cs : list Commodity.t) (m : MarketState.t) (p : Planet.t) :
  initPlanet cs m p
  = MarketState.mk (<[Planet.Key p := neutralHeat cs]> (MarketState.SourceHeat m))
                   (<[Planet.Key p := neutralHeat cs]> (MarketState.DestHeat m)).
Proof. unfold initPlanet, neutralHeat. apply initPlanet_fold. Qed.

Lemma neutralHeat_fold (cs : list Commodity.t) (inner : gmap string Q) (cKey : string) :
  fold_left (fun inner c => <[Commodity.Key c := 1%Q]> inner) cs inner !! cKey
  = if bool_decide (cKey ∈ Commodity.Key <$> cs) then Some 1%Q else inner !! cKey.
Proof.
  revert inner. induction cs as [|c cs IH]; intros inner; cbn [fold_left fmap list_fmap].
  - rewrite bool_decide_eq_false_2 by apply not_elem_of_nil. reflexivity.
  - rewrite IH. destruct (decide (cKey ∈ Commodity.Key <$> cs)) as [Hin|Hnot].
    + rewrite !bool_decide_eq_true_2; [reflexivity | right; exact Hin | exact Hin].
    + rewrite (bool_decide_eq_false_2 _ Hnot).
      destruct (decide (cKey = Commodity.Key c)) as [->|Hne].
      * rewrite lookup_insert_eq, bool_decide_eq_true_2 by left. reflexivity.
      * rewrite lookup_insert_ne by congruence.
        rewrite bool_decide_eq_false_2; [reflexivity|].
        rewrite not_elem_of_cons. tauto.
Qed.

Lemma neutralHeat_lookup (cs : list Commodity.t) (cKey : string) :
  neutralHeat cs !! cKey
  = if bool_decide (cKey ∈ Commodity.Key <$> cs) then Some 1%Q else None.
Proof. unfold neutralHeat. rewrite neutralHeat_fold, lookup_empty. reflexivity. Qed.

Lemma initPlanets_heat (cs : list Commodity.t) (ps : list Planet.t) :
  forall (m : MarketState.t) (pKey : string),
    let m' := fold_left (initPlanet cs) ps m in
    (MarketState.SourceHeat m' !! pKey
     = if bool_decide (pKey ∈ Planet.Key <$> ps) then Some (neutralHeat cs)
       else MarketState.SourceHeat m !! pKey)
    /\ (MarketState.DestHeat m' !! pKey
        = if bool_decide (pKey ∈ Planet.Key <$> ps) then Some (neutralHeat cs)
          else MarketState.DestHeat m !! pKey).
Proof.
  induction ps as [|p ps IH]; intros m pKey; cbn [fold_left fmap list_fmap].
  - rewrite bool_decide_eq_false_2 by apply not_elem_of_nil. split; reflexivity.
  - cbv zeta in IH. destruct (IH (initPlanet cs m p) pKey) as [-> ->].
    rewrite initPlanet_heat. cbn [MarketState.SourceHeat MarketState.DestHeat].
    destruct (decide (pKey ∈ Planet.Key <$> ps)) as [Hin|Hnot].
    + rewrite !bool_decide_eq_true_2; [split; reflexivity | right; exact Hin | exact Hin].
    + rewrite (bool_decide_eq_false_2 _ Hnot).
      destruct (decide (pKey = Planet.Key p)) as [->|Hne].
      * rewrite !lookup_insert_eq, bool_decide_eq_true_2 by left. split; reflexivity.
      * rewrite !lookup_insert_ne by congruence.
        rewrite bool_decide_eq_false_2; [split; reflexivity|].
        rewrite not_elem_of_cons. tauto.
Qed.

Lemma stored_InitMarket (k : HeatMap) (w : World) (pKey cKey : string) :
  stored k (InitMarket w) pKey cKey
  = if bool_decide (pKey ∈ Planet.Key <$> Universe.Planets (CurrentUniverse w))
    then (if bool_decide (cKey ∈ Commodity.Key <$> Universe.Commodities (CurrentUniverse w))
          then Some 1%Q else None)
    else stored k w pKey cKey.
Proof.
  unfold stored, heatMap, InitMarket. cbn [Market].
  destruct (initPlanets_heat (Universe.Commodities (CurrentUniverse w))
              (Universe.Planets (CurrentUniverse w)) (Market w) pKey) as [HS HD].
  cbv zeta in HS, HD.
  destruct k; [rewrite HS | rewrite HD]; case_bool_decide; try reflexivity;
    apply neutralHeat_lookup.
Qed.

Lemma tickHeat_neutral (n : nat) : Nat.iter n tickHeat 1%Q = 1%Q.
Proof.
  induction n as [|n IH]; [reflexivity|].
  change (Nat.iter (S n) tickHeat 1%Q) with (tickHeat (Nat.iter n tickHeat 1%Q)).
  rewrite IH. reflexivity.
Qed.

(** X17. [InitMarket] makes the market neutral for the catalog: for every
    planet and commodity of the catalog both heats are 1.0, and they stay
    1.0 through any number of ticks.  For a planet of the catalog every
    other item loses its entry; heat stored for a key that is no planet of
    the catalog is left as it was. *)
Theorem init_market_is_neutral (k : HeatMap) (w : World) (pKey cKey : string) :
  let u := CurrentUniverse w in
  (pKey ∈ Planet.Key <$> Universe.Planets u ->
     (cKey ∈ Commodity.Key <$> Universe.Commodities u ->
        forall n, stored k (Nat.iter n MarketTick (InitMarket w)) pKey cKey = Some 1%Q)
     /\ (cKey ∉ Commodity.Key <$> Universe.Commodities u ->
           stored k (InitMarket w) pKey cKey = None))
  /\ (pKey ∉ Planet.Key <$> Universe.Planets u ->
        stored k (InitMarket w) pKey cKey = stored k w pKey cKey).
Proof.
  intros u. split; [intros Hp; split|].
  - intros Hc n. rewrite stored_MarketTick_iter, stored_InitMarket.
    fold u. rewrite !bool_decide_eq_true_2 by assumption.
    cbn [fmap option_fmap option_map]. rewrite tickHeat_neutral. reflexivity.
  - intros Hc. rewrite stored_InitMarket. fold u.
    rewrite bool_decide_eq_true_2, bool_decide_eq_false_2 by assumption. reflexivity.
  - intros Hp. rewrite stored_InitMarket. fold u.
    rewrite bool_decide_eq_false_2 by assumption. reflexivity.
Qed.

Lemma init_market_is_neutral_witness :
  (forall n, stored SourceHeat (Nat.iter n MarketTick (InitMarket HeatExample.hot))
               "planet_prime" "ore" = Some 1%Q)
  /\ stored DestHeat (InitMarket HeatExample.hot) "planet_prime" "passenger" = None
  /\ stored SourceHeat (InitMarket HeatExample.hot) "deep_space" "ore"
     = stored SourceHeat HeatExample.hot "deep_space" "ore".
Proof.
  assert (Hp : "planet_prime"
               ∈ Planet.Key <$> Universe.Planets (CurrentUniverse HeatExample.hot)).
  { apply (bool_decide_unpack _). vm_compute. exact I. }
  split; [|split].
  - apply (proj1 (init_market_is_neutral SourceHeat HeatExample.hot "planet_prime" "ore")).
    + exact Hp.
    + apply (bool_decide_unpack _). vm_compute. exact I.
  - apply (proj1 (init_market_is_neutral DestHeat HeatExample.hot
                    "planet_prime" "passenger")).
    + exact Hp.
    + apply (bool_decide_unpack _). vm_compute. exact I.
  - apply (proj2 (init_market_is_neutral SourceHeat HeatExample.hot "deep_space" "ore")).
    apply (bool_decide_unpack _). vm_compute. exact I.
Defined.

(** X18. [LoadConfig] never touches the job boards.  When the file cannot
    be read or parsed it returns the error and changes nothing.  Otherwise
    it installs the new catalog and resets the heat of every planet and
    commodity of that catalog to 1.0; a ship without a location becomes the
    new-game ship, a ship with a location is kept as it is; either way the
    ship has a location afterwards, so no later load, successful or not,
    changes the ship again. *)
Theorem reload_keeps_a_located_ship (parsed : option Universe.t) (w : World) :
  let w' := snd (LoadConfig parsed w) in
  AvailableContracts w' = AvailableContracts w
  /\ match parsed with
     | None => LoadConfig parsed w = (false, w)
     | Some newUni =>
         fst (LoadConfig parsed w) = true
         /\ CurrentUniverse w' = newUni
         /\ PlayerShip w'
            = (if bool_decide (Ship.LocationKey (PlayerShip w) = "")
               then newGameShip newUni else PlayerShip w)
         /\ Ship.LocationKey (PlayerShip w') <> ""
         /\ (forall again,
               PlayerShip (snd (LoadConfig again w')) = PlayerShip w')
         /\ forall k pKey cKey,
              pKey ∈ Planet.Key <$> Universe.Planets newUni ->
              cKey ∈ Commodity.Key <$> Universe.Commodities newUni ->
              stored k w' pKey cKey = Some 1%Q
     end.
Proof.
  destruct parsed as [newUni|]; cbn [LoadConfig]; [|split; reflexivity].
  assert (Hheat : forall (ship : Ship.t) k pKey cKey,
             pKey ∈ Planet.Key <$> Universe.Planets newUni ->
             cKey ∈ Commodity.Key <$> Universe.Commodities newUni ->
             stored k (setShip (InitMarket (mkWorld newUni (PlayerShip w)
                                              (AvailableContracts w) (Market w))) ship)
                    pKey cKey = Some 1%Q).
  { intros ship k pKey cKey Hp Hc.
    change (stored k (InitMarket (mkWorld newUni (PlayerShip w)
                                    (AvailableContracts w) (Market w))) pKey cKey
            = Some 1%Q).
    rewrite stored_InitMarket. cbn [CurrentUniverse].
    rewrite !bool_decide_eq_true_2 by assumption. reflexivity. }
  cbn [InitMarket PlayerShip CurrentUniverse AvailableContracts].
  assert (Hloc : forall w0 : World,
             Ship.LocationKey (PlayerShip w0) <> "" ->
             forall again, PlayerShip (snd (LoadConfig again w0)) = PlayerShip w0).
  { intros w0 Hne [u2|]; cbn [LoadConfig snd]; [|reflexivity].
    cbn [InitMarket PlayerShip]. rewrite bool_decide_eq_false_2 by exact Hne.
    reflexivity. }
  case_bool_decide as Hfresh; cbn [fst snd setShip PlayerShip CurrentUniverse AvailableContracts].
  - split; [reflexivity|]. split; [reflexivity|]. split; [reflexivity|].
    split; [reflexivity|]. split; [discriminate|].
    split; [apply Hloc; discriminate|]. apply Hheat.
  - split; [reflexivity|]. split; [reflexivity|]. split; [reflexivity|].
    split; [reflexivity|]. split; [exact Hfresh|].
    split; [apply Hloc; exact Hfresh|].
    intros k pKey cKey Hp Hc.
    pose proof (Hheat (PlayerShip w) k pKey cKey Hp Hc) as Hh. exact Hh.
Qed.

(** X19. A new game always starts at "planet_prime", whether or not the
    catalog has such a planet.  If it has none, every travel request and
    every quote for a known destination panics on the nil current
    planet. *)
Theorem new_game_without_planet_prime_cannot_travel
    (newUni : Universe.t) (w : World) (key : string) :
  Ship.LocationKey (PlayerShip w) = "" ->
  GetPlanet newUni "planet_prime" = None ->
  is_Some (GetPlanet newUni key) ->
  let w' := snd (LoadConfig (Some newUni) w) in
  HandleTravel (Some key) w' = (RespPanic, w')
  /\ HandleTravelQuote (Some key) w' = RespPanic.
Proof.
  intros Hfresh Hprime [dest Hdest]. cbn [LoadConfig].
  cbn [InitMarket PlayerShip]. rewrite bool_decide_eq_true_2 by exact Hfresh.
  cbn [snd]. unfold HandleTravel, HandleTravelQuote, setShip.
  cbn [CurrentUniverse PlayerShip Ship.LocationKey InitMarket].
  rewrite Hdest, Hprime. split; reflexivity.
Qed.

Lemma new_game_without_planet_prime_cannot_travel_witness :
  let w' := snd (LoadConfig (Some BootExample.universe) BootExample.zero) in
  Ship.LocationKey (PlayerShip w') = "planet_prime"
  /\ HandleTravel (Some "planet_beta") w' = (RespPanic, w')
  /\ HandleTravelQuote (Some "planet_beta") w' = RespPanic.
Proof.
  split; [reflexivity|].
  apply (new_game_without_planet_prime_cannot_travel
           BootExample.universe BootExample.zero "planet_beta").
  - reflexivity.
  - reflexivity.
  - eexists. reflexivity.
Defined.

(** ** What replenishment adds *)

Lemma index_Done {A} (s : list A) (i : Z) (tape : list Z) (a : A) (tape' : list Z) :
  index s i tape = Done (a, tape') -> a ∈ s.
Proof.
  unfold index. destruct (i <? 0); [discriminate|].
  destruct (s !! Z.to_nat i) as [x|] eqn:Hx; [|discriminate].
  intros H. apply ret_Done in H. injection H as -> _.
  eapply list_elem_of_lookup_2. exact Hx.
Qed.

Lemma pickDestination_Done (planets : list Planet.t) (originKey : string) (tape : list Z) :
  forall dest tape',
    pickDestination planets originKey tape = Done (dest, tape') ->
    dest ∈ planets /\ Planet.Key dest <> originKey.
Proof.
  induction tape as [|x rest IH]; intros dest tape'; cbn [pickDestination].
  - destruct (_ <=? 0); discriminate.
  - destruct (_ <=? 0); [discriminate|].
    destruct (planets !! _) as [d|] eqn:Hd; [|discriminate].
    case_bool_decide as Hk.
    + apply IH.
    + intros [= <- _]. split; [|exact Hk]. eapply list_elem_of_lookup_2. exact Hd.
Qed.

Lemma randomCommodity_Done (u : Universe.t) (tape : list Z) comm tape' :
  randomCommodity u tape = Done (comm, tape') -> comm ∈ Universe.Commodities u.
Proof.
  unfold randomCommodity. intros H. inv_bind H. eapply index_Done. exact H.
Qed.

Lemma GetCommodity_In (u : Universe.t) (key : string) (c : Commodity.t) :
  GetCommodity u key = Some c -> c ∈ Universe.Commodities u.
Proof.
  unfold GetCommodity. intros H. apply find_some in H as [H _].
  apply list_elem_of_In. exact H.
Qed.

Lemma pickCommodity_Done (u : Universe.t) (origin : Planet.t) (tape : list Z) comm tape' :
  pickCommodity u origin tape = Done (comm, tape') -> comm ∈ Universe.Commodities u.
Proof.
  unfold pickCommodity. destruct (Planet.Production origin) as [|k ks].
  - apply randomCommodity_Done.
  - intros H. inv_bind H. destruct (Qltb a (8 # 10)).
    + inv_bind H. inv_bind H.
      destruct (GetCommodity u a1) as [c|] eqn:Hc.
      * apply ret_Done in H. injection H as <- _. eapply GetCommodity_In. exact Hc.
      * eapply randomCommodity_Done. exact H.
    + eapply randomCommodity_Done. exact H.
Qed.

Lemma UnixNanoMod1000_Done (tape : list Z) (t : Z) (tape' : list Z) :
  UnixNanoMod1000 tape = Done (t, tape') -> 0 <= t < 1000.
Proof.
  unfold UnixNanoMod1000. intros H. inv_bind H. apply ret_Done in H.
  injection H as -> _. apply Z.mod_pos_bound. lia.
Qed.

Lemma cargoJob_generated u m origin tape j tape' :
  cargoJob u m origin tape = Done (Some j, tape') ->
  GeneratedAt u (Planet.Key origin) j.
Proof.
  unfold cargoJob. intros H. inv_bind H. apply pickCommodity_Done in Hstep.
  inv_bind H. destruct a0.
  - apply ret_Done in H. discriminate.
  - inv_bind H. apply pickDestination_Done in Hstep1 as [Hd Hne].
    inv_bind H. apply Intn_Done in Hstep1 as [_ Hr].
    inv_bind H. apply Intn_Done in Hstep1 as [_ Hn].
    inv_bind H. apply UnixNanoMod1000_Done in Hstep1.
    apply ret_Done in H. injection H as -> _.
    unfold GeneratedAt. cbn [Contract.OriginKey Contract.DestinationKey Contract.Type_
      Contract.ID Contract.Quantity Contract.ItemKey Contract.ItemName
      Contract.MassPerUnit].
    split; [reflexivity|]. split; [exact Hne|].
    split; [apply list_elem_of_fmap_2; exact Hd|].
    left. split; [reflexivity|]. split; [eexists _, _; eauto|]. split.
    + rewrite add_exact
        by (unfold Int64.in_range, Int64.min_int, Int64.max_int; lia). lia.
    + exists a. auto.
Qed.

Lemma passengerJob_generated u origin tape j tape' :
  passengerJob u origin tape = Done (j, tape') ->
  GeneratedAt u (Planet.Key origin) j.
Proof.
  unfold passengerJob. intros H. inv_bind H.
  apply pickDestination_Done in Hstep as [Hd Hne].
  inv_bind H. apply Intn_Done in Hstep as [_ Hn].
  inv_bind H. apply UnixNanoMod1000_Done in Hstep.
  apply ret_Done in H. injection H as -> _.
  unfold GeneratedAt. cbn [Contract.OriginKey Contract.DestinationKey Contract.Type_
    Contract.ID Contract.Quantity Contract.ItemKey Contract.ItemName
    Contract.MassPerUnit].
  split; [reflexivity|]. split; [exact Hne|].
  split; [apply list_elem_of_fmap_2; exact Hd|].
  right. split; [reflexivity|]. split; [eexists _, _; eauto|]. auto.
Qed.

Lemma appended_nil u key b : appended u key b b [].
Proof. split; [reflexivity|]. split; [symmetry; apply app_nil_r | constructor]. Qed.

Lemma appended_step u key b j b' added :
  GeneratedAt u key j ->
  appended u key (appendJob b key j) b' added ->
  appended u key b b' (j :: added).
Proof.
  intros Hj (Ho & Ha & Hg). split; [|split].
  - intros other Hne. rewrite Ho by exact Hne. apply lookup_appendJob_ne. exact Hne.
  - rewrite Ha, offers_appendJob, <- app_assoc. reflexivity.
  - constructor; assumption.
Qed.

Lemma generateCargoJobs_generated u m origin (count : nat) :
  forall boards tape boards' tape',
    generateCargoJobs u m origin count boards tape = Done (boards', tape') ->
    exists added,
      appended u (Planet.Key origin) boards boards' added
      /\ (length added <= count)%nat
      /\ Forall (fun c => Contract.Type_ c = "cargo") added.
Proof.
  induction count as [|count IH]; intros boards tape boards' tape' H;
    cbn [generateCargoJobs] in H.
  - apply ret_Done in H. injection H as -> _. exists [].
    split; [apply appended_nil|]. split; [cbn; lia | constructor].
  - inv_bind H. destruct a as [j|].
    + apply IH in H as (added & Happ & Hlen & Hty). exists (j :: added).
      split; [|split; [cbn; lia|]].
      * eapply appended_step; [|exact Happ]. eapply cargoJob_generated. exact Hstep.
      * constructor; [|exact Hty]. eapply cargoJob_type. exact Hstep.
    + apply IH in H as (added & Happ & Hlen & Hty). exists added.
      split; [exact Happ|]. split; [lia | exact Hty].
Qed.

Lemma generatePassengerJobs_generated u origin (count : nat) :
  forall boards tape boards' tape',
    generatePassengerJobs u origin count boards tape = Done (boards', tape') ->
    exists added,
      appended u (Planet.Key origin) boards boards' added
      /\ length added = count
      /\ Forall (fun c => Contract.Type_ c = "passenger") added.
Proof.
  induction count as [|count IH]; intros boards tape boards' tape' H;
    cbn [generatePassengerJobs] in H.
  - apply ret_Done in H. injection H as -> _. exists [].
    split; [apply appended_nil|]. split; [reflexivity | constructor].
  - inv_bind H. apply IH in H as (added & Happ & Hlen & Hty). exists (a :: added).
    split; [|split; [cbn; lia|]].
    + eapply appended_step; [|exact Happ]. eapply passengerJob_generated. exact Hstep.
    + constructor; [|exact Hty]. eapply passengerJob_type. exact Hstep.
Qed.

Lemma replenishCargo_generated u m origin boards upd tape boards' upd' tape' :
  replenishCargo u m origin (boards, upd) tape = Done ((boards', upd'), tape') ->
  (boards' = boards /\ upd' = upd)
  \/ (upd' = upd ++ [Planet.Key origin]
      /\ exists added,
           appended u (Planet.Key origin) boards boards' added
           /\ Forall (fun c => Contract.Type_ c = "cargo") added).
Proof.
  unfold replenishCargo. destruct (cargoTargets origin) as [mn mx].
  destruct (_ <? mn).
  - intros H. inv_bind H. destruct (0 <? _).
    + inv_bind H. apply ret_Done in H. injection H as -> -> _.
      apply generateCargoJobs_generated in Hstep0 as (added & Happ & _ & Hty).
      right. split; [reflexivity|]. exists added. auto.
    + apply ret_Done in H. injection H as -> -> _. left. auto.
  - intros H. apply ret_Done in H. injection H as -> -> _. left. auto.
Qed.

Lemma replenishPassengers_generated u origin boards upd tape boards' upd' tape' :
  replenishPassengers u origin (boards, upd) tape = Done ((boards', upd'), tape') ->
  (boards' = boards /\ upd' = upd)
  \/ (upd' = (if bool_decide (Planet.Key origin ∈ upd) then upd
              else upd ++ [Planet.Key origin])
      /\ exists added,
           appended u (Planet.Key origin) boards boards' added
           /\ Forall (fun c => Contract.Type_ c = "passenger") added).
Proof.
  unfold replenishPassengers. destruct (passengerTargets origin) as [mn mx].
  destruct (_ <? mn).
  - intros H. inv_bind H. destruct (0 <? _).
    + inv_bind H. apply ret_Done in H. injection H as -> -> _.
      apply generatePassengerJobs_generated in Hstep0 as (added & Happ & _ & Hty).
      right. split; [reflexivity|]. exists added. auto.
    + apply ret_Done in H. injection H as -> -> _. left. auto.
  - intros H. apply ret_Done in H. injection H as -> -> _. left. auto.
Qed.

Lemma appended_trans u key b b1 b2 a1 a2 :
  appended u key b b1 a1 -> appended u key b1 b2 a2 -> appended u key b b2 (a1 ++ a2).
Proof.
  intros (Ho1 & Ha1 & Hg1) (Ho2 & Ha2 & Hg2). split; [|split].
  - intros other Hne. rewrite Ho2, Ho1 by exact Hne. reflexivity.
  - rewrite Ha2, Ha1, app_assoc. reflexivity.
  - apply Forall_app. auto.
Qed.

Lemma appended_offers u key b b' added (k : string) :
  appended u key b b' added ->
  exists more, offers b' k = offers b k ++ more /\ Forall (GeneratedAt u k) more.
Proof.
  intros (Ho & Ha & Hg). destruct (decide (k = key)) as [->|Hne].
  - exists added. auto.
  - exists []. split; [|constructor]. rewrite app_nil_r.
    apply offers_lookup_eq. apply Ho. exact Hne.
Qed.

Lemma replenishPlanet_generated u m origin boards upd tape boards' upd' tape' :
  replenishPlanet u m origin (boards, upd) tape = Done ((boards', upd'), tape') ->
  (exists added, appended u (Planet.Key origin) boards boards' added)
  /\ (upd' = upd \/ upd' = upd ++ [Planet.Key origin])
  /\ (Planet.Key origin ∉ upd' -> boards' = boards).
Proof.
  unfold replenishPlanet. intros H. inv_bind H. destruct a as [b1 u1].
  apply replenishCargo_generated in Hstep. apply replenishPassengers_generated in H.
  destruct Hstep as [[-> ->] | (-> & a1 & Ha1 & _)];
    destruct H as [[-> ->] | (-> & a2 & Ha2 & _)].
  - split; [exists []; apply appended_nil|]. split; [left; reflexivity | reflexivity].
  - split; [exists a2; exact Ha2|]. case_bool_decide as Hin.
    + split; [left; reflexivity|]. intros Hn. contradiction.
    + split; [right; reflexivity|]. intros Hn. exfalso. apply Hn.
      apply elem_of_app. right. apply list_elem_of_singleton. reflexivity.
  - split; [exists a1; exact Ha1|]. split; [right; reflexivity|].
    intros Hn. exfalso. apply Hn.
    apply elem_of_app. right. apply list_elem_of_singleton. reflexivity.
  - split; [exists (a1 ++ a2); eapply appended_trans; eassumption|].
    rewrite bool_decide_eq_true_2
      by (apply elem_of_app; right; apply list_elem_of_singleton; reflexivity).
    split; [right; reflexivity|].
    intros Hn. exfalso. apply Hn.
    apply elem_of_app. right. apply list_elem_of_singleton. reflexivity.
Qed.

Lemma replenishPlanets_generated u m (planets : list Planet.t) :
  forall boards upd tape boards' upd' tape',
    replenishPlanets u m planets (boards, upd) tape = Done ((boards', upd'), tape') ->
    (forall key, exists added,
        offers boards' key = offers boards key ++ added
        /\ Forall (GeneratedAt u key) added)
    /\ upd `prefix_of` upd'
    /\ (forall k, k ∈ upd' -> k ∈ upd \/ k ∈ Planet.Key <$> planets)
    /\ (forall k, k ∉ upd' -> boards' !! k = boards !! k)
    /\ (NoDup (Planet.Key <$> planets) -> NoDup upd ->
        (forall k, k ∈ upd -> k ∉ Planet.Key <$> planets) -> NoDup upd').
Proof.
  induction planets as [|p rest IH]; intros boards upd tape boards' upd' tape' H;
    cbn [replenishPlanets] in H.
  - apply ret_Done in H. injection H as -> -> _.
    split; [intros key; exists []; split; [symmetry; apply app_nil_r | constructor]|].
    split; [reflexivity|]. split; [auto|]. split; [reflexivity|]. auto.
  - inv_bind H. destruct a as [b1 u1].
    apply replenishPlanet_generated in Hstep as ([a1 Ha1] & Hu1 & Hsame1).
    apply IH in H as (Hoff & Hpre & Hkeys & Hframe & Hnd).
    assert (Hpre1 : upd `prefix_of` u1).
    { destruct Hu1 as [-> | ->]; [reflexivity | apply prefix_app_r; reflexivity]. }
    split; [|split; [|split; [|split]]].
    + intros key. destruct (Hoff key) as (more & Hm & Hg).
      destruct (appended_offers u _ _ _ _ key Ha1) as (first & Hf & Hgf).
      exists (first ++ more). rewrite Hm, Hf, app_assoc.
      split; [reflexivity | apply Forall_app; auto].
    + etransitivity; eassumption.
    + intros k Hk. rewrite fmap_cons. destruct (Hkeys k Hk) as [Hin|Hin].
      * destruct Hu1 as [-> | ->]; [left; exact Hin|].
        apply elem_of_app in Hin as [Hin|Hin]; [left; exact Hin|].
        apply list_elem_of_singleton in Hin as ->. right. left.
      * right. right. exact Hin.
    + intros k Hk. rewrite Hframe by exact Hk.
      assert (Hk1 : k ∉ u1).
      { intros Hin. apply Hk. destruct Hpre as [l ->]. apply elem_of_app. left. exact Hin. }
      destruct (decide (k = Planet.Key p)) as [->|Hne].
      * rewrite (Hsame1 Hk1). reflexivity.
      * destruct Ha1 as (Ho & _ & _). apply Ho. exact Hne.
    + rewrite fmap_cons. intros Hndp Hndu Hfresh.
      apply NoDup_cons in Hndp as [Hp Hndp]. apply Hnd; [exact Hndp| |].
      * destruct Hu1 as [-> | ->]; [exact Hndu|].
        apply NoDup_app. split; [exact Hndu|]. split; [|apply NoDup_singleton].
        intros k Hk Hk'. apply list_elem_of_singleton in Hk' as ->.
        apply (Hfresh _ Hk). left.
      * intros k Hk Hin. destruct Hu1 as [-> | ->].
        -- apply (Hfresh k Hk). right. exact Hin.
        -- apply elem_of_app in Hk as [Hk|Hk].
           ++ apply (Hfresh k Hk). right. exact Hin.
           ++ apply list_elem_of_singleton in Hk as ->. contradiction.
Qed.

(** X20. A replenishment that returns only appends to the boards: every
    board afterwards is the board before followed by generated offers, each
    of which starts at that board's planet, goes to a different planet of
    the catalog, and is either cargo (5 to 25 units of a commodity of the
    catalog, with its name and mass, under an id CRG-n-t) or one passenger
    (under an id PAX-n-t), with n below 99999 and t below 1000.  The ship
    and the catalog are untouched and the heat is the heat after one
    tick. *)
Theorem replenish_appends_generated_offers (w : World) (tape : list Z)
    (updated : list string) (w' : World) (tape' : list Z) :
  ReplenishMarket w tape = Done ((updated, w'), tape') ->
  let u := CurrentUniverse w in
  CurrentUniverse w' = u
  /\ PlayerShip w' = PlayerShip w
  /\ Market w' = Market (MarketTick w)
  /\ forall key, exists added,
       offers (AvailableContracts w') key = offers (AvailableContracts w) key ++ added
       /\ Forall (GeneratedAt u key) added.
Proof.
  unfold ReplenishMarket. intros H. inv_bind H. destruct a as [boards' upd'].
  apply ret_Done in H. injection H as -> -> _.
  apply replenishPlanets_generated in Hstep as (Hoff & _).
  cbn [CurrentUniverse PlayerShip Market AvailableContracts fst snd MarketTick] in *.
  repeat split; try reflexivity. exact Hoff.
Qed.

Lemma replenish_appends_generated_offers_witness :
  exists updated w' tape',
    ReplenishMarket CalmExample.calm CalmExample.tape = Done ((updated, w'), tape')
    /\ PlayerShip w' = PlayerShip CalmExample.calm
    /\ exists added,
         offers (AvailableContracts w') "planet_prime"
         = offers (AvailableContracts CalmExample.calm) "planet_prime" ++ added
         /\ Forall (GeneratedAt ReplenishExample.universe "planet_prime") added
         /\ length added = 3%nat.
Proof.
  destruct (ReplenishMarket CalmExample.calm CalmExample.tape)
    as [[[updated w'] tape']| |] eqn:H;
    [|vm_compute in H; discriminate..].
  exists updated, w', tape'. split; [reflexivity|].
  destruct (replenish_appends_generated_offers _ _ _ _ _ H) as (_ & Hship & _ & Hoff).
  split; [exact Hship|].
  destruct (Hoff "planet_prime") as (added & Hadd & Hgen).
  exists added. split; [exact Hadd|]. split; [exact Hgen|].
  vm_compute in H. injection H as _ <- _.
  apply (f_equal length) in Hadd. vm_compute in Hadd. symmetry. exact Hadd.
Defined.

(** X21. The keys [ReplenishMarket] returns are keys of planets of the
    catalog, and every board whose key is not returned is unchanged: when
    no key is returned no board has changed.  When planet keys are distinct
    no key is returned twice. *)
Theorem updated_planets_are_the_changed_boards (w : World) (tape : list Z)
    (updated : list string) (w' : World) (tape' : list Z) :
  ReplenishMarket w tape = Done ((updated, w'), tape') ->
  let planets := Universe.Planets (CurrentUniverse w) in
  (forall k, k ∈ updated -> k ∈ Planet.Key <$> planets)
  /\ (forall k, k ∉ updated -> AvailableContracts w' !! k = AvailableContracts w !! k)
  /\ (updated = [] -> AvailableContracts w' = AvailableContracts w)
  /\ (NoDup (Planet.Key <$> planets) -> NoDup updated).
Proof.
  unfold ReplenishMarket. intros H. inv_bind H. destruct a as [boards' upd'].
  apply ret_Done in H. injection H as -> -> _.
  apply replenishPlanets_generated in Hstep as (_ & _ & Hkeys & Hframe & Hnd).
  cbn [CurrentUniverse PlayerShip Market AvailableContracts fst snd MarketTick] in *.
  split; [|split; [|split]].
  - intros k Hk. destruct (Hkeys k Hk) as [Hin|Hin]; [|exact Hin].
    apply elem_of_nil in Hin. destruct Hin.
  - exact Hframe.
  - intros ->. apply map_eq. intros k. apply Hframe. apply not_elem_of_nil.
  - intros Hndp. apply Hnd; [exact Hndp | apply NoDup_nil_2|].
    intros k Hk. apply elem_of_nil in Hk. destruct Hk.
Qed.

Lemma updated_planets_are_the_changed_boards_witness :
  exists updated w' tape',
    ReplenishMarket CalmExample.calm CalmExample.tape = Done ((updated, w'), tape')
    /\ updated = ["planet_prime"]
    /\ AvailableContracts w' !! "planet_beta"
       = AvailableContracts CalmExample.calm !! "planet_beta"
    /\ NoDup updated.
Proof.
  destruct (ReplenishMarket CalmExample.calm CalmExample.tape)
    as [[[updated w'] tape']| |] eqn:H;
    [|vm_compute in H; discriminate..].
  exists updated, w', tape'. split; [reflexivity|].
  destruct (updated_planets_are_the_changed_boards _ _ _ _ _ H)
    as (_ & Hframe & _ & Hnd).
  assert (Hu : updated = ["planet_prime"]).
  { vm_compute in H. injection H as <- _ _. reflexivity. }
  split; [exact Hu|]. split.
  - apply Hframe. rewrite Hu. intros Hin. apply list_elem_of_singleton in Hin. discriminate.
  - apply Hnd. exact replenish_example_keys.
Defined.

Lemma Float64_below_one (tape : list Z) (r : Q) (tape' : list Z) :
  Float64 tape = Done (r, tape') -> (0 <= r /\ r <= 1)%Q.
Proof.
  unfold Float64. intros H. inv_bind H. apply ret_Done in H. injection H as -> _.
  pose proof (Z.mod_pos_bound a (2 ^ 53) ltac:(lia)) as Hm.
  unfold Qle. cbn [Qnum Qden]. split; [lia|].
  change (Z.pos (2 ^ 53)) with (2 ^ 53). lia.
Qed.

Lemma scarcitySkip_calm (h : Q) (tape : list Z) (b : bool) (tape' : list Z) :
  (h <= 3 # 2)%Q -> scarcitySkip h tape = Done (b, tape') -> b = false.
Proof.
  intros Hh. unfold scarcitySkip. destruct (Qltb 1 h) eqn:Hlt.
  - intros H. inv_bind H. apply ret_Done in H. injection H as -> _.
    apply Float64_below_one in Hstep as [H0 H1]. apply Qltb_lt in Hlt.
    apply Qltb_ge.
    assert (a * h <= 1 * h)%Q by (apply Qmult_le_compat_r; [exact H1 | lra]).
    lra.
  - intros H. apply ret_Done in H. injection H as -> _. reflexivity.
Qed.

Lemma cargoJob_calm u m origin tape r tape' :
  calmAt u (MarketState.SourceHeat m) (Planet.Key origin) ->
  cargoJob u m origin tape = Done (r, tape') -> exists j, r = Some j.
Proof.
  intros Hcalm. unfold cargoJob. intros H. inv_bind H.
  apply pickCommodity_Done in Hstep. inv_bind H.
  apply scarcitySkip_calm in Hstep0; [|apply Hcalm; exact Hstep]. subst a0.
  inv_bind H. inv_bind H. inv_bind H. inv_bind H.
  apply ret_Done in H. injection H as -> _. eauto.
Qed.

Lemma generateCargoJobs_calm u m origin (count : nat) :
  calmAt u (MarketState.SourceHeat m) (Planet.Key origin) ->
  forall boards tape boards' tape',
    generateCargoJobs u m origin count boards tape = Done (boards', tape') ->
    exists added,
      appended u (Planet.Key origin) boards boards' added
      /\ length added = count
      /\ Forall (fun c => Contract.Type_ c = "cargo") added.
Proof.
  intros Hcalm.
  induction count as [|count IH]; intros boards tape boards' tape' H;
    cbn [generateCargoJobs] in H.
  - apply ret_Done in H. injection H as -> _. exists [].
    split; [apply appended_nil|]. split; [reflexivity | constructor].
  - inv_bind H. destruct (cargoJob_calm _ _ _ _ _ _ Hcalm Hstep) as [j ->].
    apply IH in H as (added & Happ & Hlen & Hty). exists (j :: added).
    split; [|split; [cbn; lia|]].
    + eapply appended_step; [|exact Happ]. eapply cargoJob_generated. exact Hstep.
    + constructor; [|exact Hty]. eapply cargoJob_type. exact Hstep.
Qed.

Lemma replenishCargo_calm u m origin boards upd tape boards' upd' tape' :
  TargetsFit origin ->
  calmAt u (MarketState.SourceHeat m) (Planet.Key origin) ->
  replenishCargo u m origin (boards, upd) tape = Done ((boards', upd'), tape') ->
  cargoToppedUp origin boards boards'.
Proof.
  intros Hfit Hcalm H Hlow. cbv zeta in Hlow.
  apply TargetsFit_bounds in Hfit as (Hmn & Hmx & _ & _).
  unfold replenishCargo in H.
  destruct (cargoTargets origin) as [mn mx] eqn:Ht. cbn [fst snd] in *.
  fold (offers boards (Planet.Key origin)) in H.
  pose proof (countType_nonneg "cargo" (offers boards (Planet.Key origin))) as Hc.
  set (count := countType "cargo" (offers boards (Planet.Key origin))) in *.
  destruct (Z.ltb_spec count mn) as [_|?]; [|lia].
  inv_bind H.
  rewrite sub_exact, add_exact in Hstep
    by (unfold Int64.in_range, Int64.min_int, Int64.max_int; lia).
  apply Intn_Done in Hstep as [Hn Hr].
  rewrite add_exact in H
    by (unfold Int64.in_range, Int64.min_int, Int64.max_int; lia).
  rewrite sub_exact in H
    by (unfold Int64.in_range, Int64.min_int, Int64.max_int; lia).
  destruct (Z.ltb_spec 0 (a + mn - count)) as [_|?]; [|lia].
  inv_bind H. apply ret_Done in H. injection H as -> _ _.
  apply (generateCargoJobs_calm _ _ _ _ Hcalm) in Hstep
    as (added & (_ & Hadd & _) & Hlen & Hty).
  rewrite Hadd, countType_app, (countType_same "cargo" added Hty), Hlen.
  fold count. lia.
Qed.

Lemma replenishPlanet_calm u m origin boards upd tape boards' upd' tape' :
  TargetsFit origin ->
  calmAt u (MarketState.SourceHeat m) (Planet.Key origin) ->
  replenishPlanet u m origin (boards, upd) tape = Done ((boards', upd'), tape') ->
  cargoToppedUp origin boards boards'.
Proof.
  intros Hfit Hcalm H. unfold replenishPlanet in H. inv_bind H. destruct a as [b1 u1].
  apply (replenishCargo_calm _ _ _ _ _ _ _ _ _ Hfit Hcalm) in Hstep.
  apply replenishPassengers_generated in H.
  destruct H as [[-> ->] | (_ & added & (_ & Hadd & _) & Hty)]; [exact Hstep|].
  unfold cargoToppedUp in *. cbv zeta in *.
  rewrite Hadd, countType_app.
  rewrite (countType_other "cargo" "passenger" added) by (discriminate || assumption).
  rewrite Z.add_0_r. exact Hstep.
Qed.

Lemma replenishPlanets_frame u m (planets : list Planet.t) :
  forall boards upd tape boards' upd' tape',
    replenishPlanets u m planets (boards, upd) tape = Done ((boards', upd'), tape') ->
    forall other, other ∉ Planet.Key <$> planets -> boards' !! other = boards !! other.
Proof.
  induction planets as [|p rest IH]; intros boards upd tape boards' upd' tape' H other Hn;
    cbn [replenishPlanets] in H.
  - apply ret_Done in H. injection H as -> _ _. reflexivity.
  - rewrite fmap_cons in Hn. apply not_elem_of_cons in Hn as [Hne Hn].
    inv_bind H. destruct a as [b1 u1].
    apply replenishPlanet_generated in Hstep as ([a1 (Ho & _ & _)] & _ & _).
    rewrite (IH _ _ _ _ _ _ H other Hn). apply Ho. exact Hne.
Qed.

Lemma replenishPlanets_each u m
    (R : Planet.t -> gmap string (list Contract.t) -> gmap string (list Contract.t) -> Prop)
    (planets : list Planet.t) :
  (forall p b1 b2 b1' b2',
      b1 !! Planet.Key p = b2 !! Planet.Key p ->
      b1' !! Planet.Key p = b2' !! Planet.Key p -> R p b1 b1' -> R p b2 b2') ->
  (forall p boards upd tape boards' upd' tape',
      p ∈ planets ->
      replenishPlanet u m p (boards, upd) tape = Done ((boards', upd'), tape') ->
      R p boards boards') ->
  NoDup (Planet.Key <$> planets) ->
  forall boards upd tape boards' upd' tape',
    replenishPlanets u m planets (boards, upd) tape = Done ((boards', upd'), tape') ->
    forall p, p ∈ planets -> R p boards boards'.
Proof.
  intros Hext. induction planets as [|q rest IH];
    intros Hstep Hnd boards upd tape boards' upd' tape' H p Hp.
  - apply elem_of_nil in Hp. destruct Hp.
  - cbn [replenishPlanets] in H. rewrite fmap_cons in Hnd.
    apply NoDup_cons in Hnd as [Hq Hnd].
    inv_bind H. destruct a as [b1 u1].
    pose proof (replenishPlanets_frame _ _ _ _ _ _ _ _ _ H) as Hframe.
    pose proof Hstep0 as Hgen.
    apply replenishPlanet_generated in Hgen as ([a1 (Ho & _ & _)] & _ & _).
    apply elem_of_cons in Hp as [->|Hp].
    + apply (Hext q boards boards b1 boards'); [reflexivity | |].
      * symmetry. apply Hframe. exact Hq.
      * eapply Hstep; [left | exact Hstep0].
    + assert (Hne : Planet.Key p <> Planet.Key q).
      { intros Heq. apply Hq. rewrite <- Heq. apply list_elem_of_fmap_2. exact Hp. }
      apply (Hext p b1 boards boards' boards'); [apply Ho; exact Hne | reflexivity |].
      eapply (IH (fun p0 b upd0 t b' upd0' t' Hin => Hstep p0 b upd0 t b' upd0' t'
                      (list_elem_of_further _ _ _ Hin)) Hnd); eassumption.
Qed.

Lemma heatAt_tickAll (heat : gmap string (gmap string Q)) (pKey cKey : string) :
  (heatAt heat pKey cKey <= 3 # 2 -> heatAt (tickAll heat) pKey cKey <= 3 # 2)%Q.
Proof.
  unfold heatAt, tickAll. rewrite lookup_fmap.
  destruct (heat !! pKey) as [inner|]; cbn [fmap option_fmap option_map]; [|auto].
  rewrite lookup_fmap.
  destruct (inner !! cKey) as [h|]; cbn [fmap option_fmap option_map default from_option];
    [|auto].
  unfold Datatypes.id. intros Hh.
  destruct (tickHeat_side h) as [Hhi Hlo].
  destruct (Qlt_le_dec h 1) as [Hlt|Hge].
  - destruct Hlo as [_ Hle]; [lra|]. lra.
  - destruct Hhi as [_ Hle]; [exact Hge|]. lra.
Qed.

(** X22. The scarcity check cannot skip a job while the source heat is at
    most 1.5.  Hence, with distinct planet keys and board targets of
    realistic size, a planet where no commodity of the catalog has source
    heat above 1.5 gets its cargo board filled by a replenishment: a cargo
    count below the minimum ends between the minimum and the maximum. *)
Theorem cargo_minimum_met_unless_scarce (w : World) (p : Planet.t) (tape : list Z)
    (updated : list string) (w' : World) (tape' : list Z) :
  let u := CurrentUniverse w in
  NoDup (Planet.Key <$> Universe.Planets u) ->
  Forall TargetsFit (Universe.Planets u) ->
  p ∈ Universe.Planets u ->
  calmAt u (MarketState.SourceHeat (Market w)) (Planet.Key p) ->
  ReplenishMarket w tape = Done ((updated, w'), tape') ->
  let before := countType "cargo" (offers (AvailableContracts w) (Planet.Key p)) in
  let after := countType "cargo" (offers (AvailableContracts w') (Planet.Key p)) in
  before < fst (cargoTargets p) ->
  fst (cargoTargets p) <= after <= snd (cargoTargets p).
Proof.
  intros u Hnd Hfit Hp Hcalm H. unfold ReplenishMarket in H. inv_bind H.
  destruct a as [boards' upd']. apply ret_Done in H. injection H as _ -> _.
  cbn [CurrentUniverse AvailableContracts Market MarketTick fst] in *.
  refine (replenishPlanets_each _ _ (fun q b b' => q = p -> cargoToppedUp q b b') _
            _ _ Hnd _ _ _ _ _ _ Hstep p Hp eq_refl).
  - unfold cargoToppedUp, offers. intros q b1 b2 b1' b2' -> ->. tauto.
  - intros q boards upd0 tape0 boards0 upd1 tape1 Hq Hrun ->.
    eapply replenishPlanet_calm; [| |exact Hrun].
    + rewrite Forall_forall in Hfit. apply Hfit. exact Hq.
    + intros comm Hcomm. cbn [MarketState.SourceHeat].
      apply heatAt_tickAll. apply Hcalm. exact Hcomm.
Qed.

Lemma calm_example_is_calm :
  calmAt ReplenishExample.universe (MarketState.SourceHeat (Market CalmExample.calm))
         "planet_prime".
Proof.
  intros comm Hin. cbn in Hin. apply list_elem_of_singleton in Hin as ->.
  vm_compute. discriminate.
Qed.

Lemma cargo_minimum_met_unless_scarce_witness :
  exists updated w' tape',
    ReplenishMarket CalmExample.calm CalmExample.tape = Done ((updated, w'), tape')
    /\ countType "cargo" (offers (AvailableContracts CalmExample.calm) "planet_prime") = 0
    /\ 2 <= countType "cargo" (offers (AvailableContracts w') "planet_prime") <= 2.
Proof.
  destruct (ReplenishMarket CalmExample.calm CalmExample.tape)
    as [[[updated w'] tape']| |] eqn:H;
    [|vm_compute in H; discriminate..].
  exists updated, w', tape'. split; [reflexivity|]. split; [reflexivity|].
  apply (cargo_minimum_met_unless_scarce CalmExample.calm ReplenishExample.prime
           CalmExample.tape updated w' tape').
  - exact replenish_example_keys.
  - exact replenish_example_targets.
  - left.
  - exact calm_example_is_calm.
  - exact H.
  - vm_compute. reflexivity.
Defined.

(** ** The hub over time *)

Lemma tracked_open (h : Hub.t) : tracked h -> HubSpec.registered_open h.
Proof.
  intros [Hq Ho] client Hin. destruct (Hq client Hin) as [ch Hch].
  exists ch. split; [exact Hch|]. apply (Ho client ch Hch). exact Hin.
Qed.

Lemma tracked_NewHub : tracked NewHub.
Proof.
  split.
  - intros client Hin. cbn in Hin. apply elem_of_empty in Hin. destruct Hin.
  - intros client ch Hch. cbn in Hch. rewrite lookup_empty in Hch. discriminate.
Qed.

Lemma tracked_Connect (client : nat) (h : Hub.t) :
  tracked h -> exists h', Hub.ServeWs client h = Some h' /\ tracked h'.
Proof.
  intros [Hq Ho]. eexists. split; [reflexivity|]. split.
  - intros c Hin. cbn [Hub.clients Hub.chans] in *.
    destruct (decide (c = client)) as [->|Hne].
    + rewrite lookup_insert_eq. eauto.
    + rewrite lookup_insert_ne by congruence. apply Hq.
      rewrite elem_of_union, elem_of_singleton in Hin. tauto.
  - intros c ch. cbn [Hub.clients Hub.chans].
    destruct (decide (c = client)) as [->|Hne].
    + rewrite lookup_insert_eq. intros [= <-]. cbn.
      rewrite elem_of_union, elem_of_singleton. tauto.
    + rewrite lookup_insert_ne by congruence. intros Hch.
      rewrite elem_of_union, elem_of_singleton. rewrite <- (Ho c ch Hch). tauto.
Qed.

Lemma tracked_Disconnect (client : nat) (h : Hub.t) :
  tracked h -> exists h', Hub.Run (Hub.Unregister client) h = Some h' /\ tracked h'.
Proof.
  intros [Hq Ho]. cbn [Hub.Run]. case_bool_decide as Hreg.
  - destruct (Hq client Hreg) as [ch Hch]. rewrite Hch.
    pose proof (proj1 (Ho client ch Hch) Hreg) as Hopen.
    unfold Hub.close. rewrite Hopen. eexists. split; [reflexivity|]. split.
    + intros c Hin. cbn [Hub.clients Hub.chans] in *.
      rewrite elem_of_difference, elem_of_singleton in Hin. destruct Hin as [Hin Hne].
      rewrite lookup_insert_ne by congruence. apply Hq. exact Hin.
    + intros c ch'. cbn [Hub.clients Hub.chans].
      rewrite elem_of_difference, elem_of_singleton.
      destruct (decide (c = client)) as [->|Hne].
      * rewrite lookup_insert_eq. intros [= <-]. cbn. split; [tauto | discriminate].
      * rewrite lookup_insert_ne by congruence. intros Hch'.
        rewrite <- (Ho c ch' Hch'). tauto.
  - eexists. split; [reflexivity|]. split; assumption.
Qed.

Lemma tracked_Publish (message : list Byte.byte) (h : Hub.t) :
  tracked h ->
  exists h',
    Hub.Run (Hub.Broadcast message) h = Some h'
    /\ tracked h'
    /\ (forall client ch, client ∈ Hub.clients h -> Hub.chans h !! client = Some ch ->
          if decide (HubSpec.has_space ch)
          then client ∈ Hub.clients h'
               /\ Hub.chans h' !! client = Some (HubSpec.received message ch)
          else (client ∉ Hub.clients h')
               /\ Hub.chans h' !! client = Some (HubSpec.shut ch))
    /\ (forall other, other ∉ Hub.clients h ->
          (other ∉ Hub.clients h') /\ Hub.chans h' !! other = Hub.chans h !! other).
Proof.
  intros Ht. pose proof Ht as [Hq Ho]. cbn [Hub.Run].
  destruct (offerAll_spec message (elements (Hub.clients h)) (NoDup_elements _) h)
    as (h' & Hrun & Hrest & Hcs).
  { intros client Hin. apply (tracked_open h Ht). apply elem_of_elements. exact Hin. }
  assert (Hreg : forall client ch, client ∈ Hub.clients h -> Hub.chans h !! client = Some ch ->
          if decide (HubSpec.has_space ch)
          then client ∈ Hub.clients h'
               /\ Hub.chans h' !! client = Some (HubSpec.received message ch)
          else (client ∉ Hub.clients h')
               /\ Hub.chans h' !! client = Some (HubSpec.shut ch)).
  { intros client ch Hin Hch.
    destruct (Hcs client ch) as [Ha Hb]; [apply elem_of_elements; exact Hin | exact Hch |].
    destruct (decide (HubSpec.has_space ch)) as [Hs|Hs].
    - destruct (Ha Hs) as [P Q]. split; [tauto | exact Q].
    - exact (Hb Hs). }
  assert (Hout : forall other, other ∉ Hub.clients h ->
            (other ∉ Hub.clients h') /\ Hub.chans h' !! other = Hub.chans h !! other).
  { intros other Hnot. destruct (Hrest other) as [E1 E2].
    { rewrite elem_of_elements. exact Hnot. }
    split; [tauto | exact E1]. }
  exists h'. split; [exact Hrun|]. split; [|split; [exact Hreg | exact Hout]].
  split.
  - intros client Hin'. destruct (decide (client ∈ Hub.clients h)) as [Hin|Hnot].
    + destruct (Hq client Hin) as [ch Hch]. specialize (Hreg client ch Hin Hch).
      destruct (decide (HubSpec.has_space ch)); destruct Hreg as [_ ->]; eauto.
    + destruct (Hout client Hnot) as [Hgone _]. contradiction.
  - intros client ch' Hch'. destruct (decide (client ∈ Hub.clients h)) as [Hin|Hnot].
    + destruct (Hq client Hin) as [ch Hch]. specialize (Hreg client ch Hin Hch).
      destruct (decide (HubSpec.has_space ch)); destruct Hreg as [Hm Hc];
        rewrite Hc in Hch'; injection Hch' as <-; cbn; split; try tauto; discriminate.
    + destruct (Hout client Hnot) as [Hgone Hsame]. rewrite Hsame in Hch'.
      rewrite <- (Ho client ch' Hch'). tauto.
Qed.

Lemma tracked_step (i : HubInput) (h : Hub.t) :
  tracked h -> exists h', hubStep i h = Some h' /\ tracked h'.
Proof.
  intros Ht. destruct i as [c|c|m]; cbn [hubStep].
  - apply tracked_Connect. exact Ht.
  - apply tracked_Disconnect. exact Ht.
  - destruct (tracked_Publish m h Ht) as (h' & Hrun & Ht' & _). eauto.
Qed.

Lemma tracked_run (inputs : list HubInput) (h : Hub.t) :
  tracked h -> exists h', hubRun inputs h = Some h' /\ tracked h'.
Proof.
  revert h. induction inputs as [|i rest IH]; intros h Ht; cbn [hubRun].
  - eauto.
  - destruct (tracked_step i h Ht) as (h1 & -> & Ht1). apply IH. exact Ht1.
Qed.

(** X23. Started from [NewHub], the hub's loop never panics, whatever
    connections, disconnections and broadcasts reach it and in whatever
    order (a client dropped by a broadcast may still send its unregister, a
    client may unregister twice): it never closes a queue twice and never
    sends on a closed queue.  At every point each registered client owns an
    open queue and each queue of a client no longer registered is closed. *)
Theorem hub_never_panics (inputs : list HubInput) :
  exists h,
    hubRun inputs NewHub = Some h
    /\ (forall client, client ∈ Hub.clients h ->
          exists ch, Hub.chans h !! client = Some ch /\ Hub.closed ch = false)
    /\ (forall client ch, Hub.chans h !! client = Some ch ->
          client ∉ Hub.clients h -> Hub.closed ch = true).
Proof.
  destruct (tracked_run inputs NewHub tracked_NewHub) as (h & Hrun & Ht).
  exists h. split; [exact Hrun|]. split.
  - apply tracked_open. exact Ht.
  - intros client ch Hch Hnot. destruct Ht as [_ Ho].
    specialize (Ho client ch Hch). destruct (Hub.closed ch); [reflexivity|].
    exfalso. apply Hnot. apply Ho. reflexivity.
Qed.

Lemma publish_to_absent (ms : list (list Byte.byte)) (h : Hub.t) (client : nat) :
  tracked h -> client ∉ Hub.clients h ->
  exists h',
    hubRun (Publish <$> ms) h = Some h'
    /\ tracked h'
    /\ (client ∉ Hub.clients h')
    /\ Hub.chans h' !! client = Hub.chans h !! client.
Proof.
  revert h. induction ms as [|m ms IH]; intros h Ht Hnot; cbn [fmap list_fmap hubRun hubStep].
  - eauto.
  - destruct (tracked_Publish m h Ht) as (h1 & -> & Ht1 & _ & Hout).
    destruct (Hout client Hnot) as [Hnot1 Hsame].
    destruct (IH h1 Ht1 Hnot1) as (h' & Hrun & Ht' & Hn' & Hc').
    exists h'. rewrite Hc', Hsame. auto.
Qed.

(** X24. A registered client whose queue is not drained receives
    broadcasts in order for as long as they fit.  With room for r more
    messages, after m <= r broadcasts it is still registered and its queue
    is the old one followed by the m messages; after more than r it has been
    dropped: its queue is closed and holds the old messages followed by the
    first r broadcasts only. *)
Theorem undrained_queue_fills_then_drops (ms : list (list Byte.byte)) :
  forall (h : Hub.t) (client : nat) (ch : Hub.Chan),
    tracked h ->
    client ∈ Hub.clients h ->
    Hub.chans h !! client = Some ch ->
    let room := (Hub.cap ch - length (Hub.buf ch))%nat in
    exists h',
      hubRun (Publish <$> ms) h = Some h'
      /\ if decide (length ms <= room)%nat
         then client ∈ Hub.clients h'
              /\ Hub.chans h' !! client
                 = Some (Hub.mkChan (Hub.buf ch ++ ms) false (Hub.cap ch))
         else (client ∉ Hub.clients h')
              /\ Hub.chans h' !! client
                 = Some (Hub.mkChan (Hub.buf ch ++ take room ms) true (Hub.cap ch)).
Proof.
  induction ms as [|m ms IH]; intros h client ch Ht Hin Hch room;
    cbn [fmap list_fmap hubRun hubStep].
  - exists h. split; [reflexivity|]. rewrite decide_True by (cbn; lia).
    rewrite app_nil_r. split; [exact Hin|]. rewrite Hch.
    pose proof (proj1 (proj2 Ht client ch Hch) Hin) as Hopen.
    destruct ch. cbn in Hopen. rewrite Hopen. reflexivity.
  - destruct (tracked_Publish m h Ht) as (h1 & -> & Ht1 & Hreg & _).
    specialize (Hreg client ch Hin Hch).
    destruct (decide (HubSpec.has_space ch)) as [Hs|Hs]; unfold HubSpec.has_space in Hs.
    + destruct Hreg as [Hin1 Hch1].
      destruct (IH h1 client _ Ht1 Hin1 Hch1) as (h' & Hrun & Hres).
      exists h'. split; [exact Hrun|].
      cbn [HubSpec.received Hub.buf Hub.cap] in Hres. rewrite length_app in Hres.
      cbn [length] in *. fold room in Hres.
      destruct (decide (length ms <= Hub.cap ch - (length (Hub.buf ch) + 1))%nat) as [Hle|Hgt].
      * rewrite decide_True by (unfold room; lia).
        rewrite <- app_assoc in Hres. exact Hres.
      * rewrite decide_False by (unfold room; lia).
        rewrite <- app_assoc in Hres. cbn [app] in Hres.
        replace room with (S (Hub.cap ch - (length (Hub.buf ch) + 1))) by (unfold room; lia).
        cbn [take]. exact Hres.
    + destruct Hreg as [Hnot1 Hch1].
      destruct (publish_to_absent ms h1 client Ht1 Hnot1) as (h' & Hrun & _ & Hn' & Hc').
      exists h'. split; [exact Hrun|]. cbn [length].
      rewrite decide_False by (unfold room; lia).
      replace room with 0%nat by (unfold room; lia).
      cbn [take]. rewrite app_nil_r. split; [exact Hn'|].
      rewrite Hc', Hch1. reflexivity.
Qed.

Lemma undrained_queue_fills_then_drops_witness :
  exists h1 h2,
    hubRun (Publish <$> replicate 255 HubExample.hello) HubExample.hub = Some h1
    /\ 2%nat ∈ Hub.clients h1
    /\ hubRun (Publish <$> replicate 256 HubExample.hello) HubExample.hub = Some h2
    /\ (2%nat ∉ Hub.clients h2)
    /\ Hub.chans h2 !! 2%nat
       = Some (Hub.mkChan (replicate 256 HubExample.hello) true 256).
Proof.
  assert (Ht : tracked HubExample.hub).
  { split.
    - intros client Hin. unfold HubExample.hub in *. cbn [Hub.clients Hub.chans] in *.
      rewrite !elem_of_union, !elem_of_singleton in Hin.
      destruct Hin as [[[->| ->]| ->]| ->]; eexists; reflexivity.
    - intros client ch Hch. unfold HubExample.hub in *. cbn [Hub.clients Hub.chans] in *.
      rewrite !elem_of_union, !elem_of_singleton.
      destruct (decide (client = 1%nat)) as [->|N1];
        [vm_compute in Hch; injection Hch as <-; cbn; tauto|].
      destruct (decide (client = 2%nat)) as [->|N2];
        [vm_compute in Hch; injection Hch as <-; cbn; tauto|].
      destruct (decide (client = 3%nat)) as [->|N3];
        [vm_compute in Hch; injection Hch as <-; cbn; tauto|].
      destruct (decide (client = 4%nat)) as [->|N4];
        [vm_compute in Hch; injection Hch as <-; cbn; tauto|].
      rewrite !lookup_insert_ne in Hch by congruence.
      rewrite lookup_singleton_ne in Hch by congruence. discriminate. }
  assert (Hin : 2%nat ∈ Hub.clients HubExample.hub).
  { unfold HubExample.hub. cbn [Hub.clients]. rewrite !elem_of_union, !elem_of_singleton. auto. }
  assert (Hch : Hub.chans HubExample.hub !! 2%nat = Some HubExample.busy) by reflexivity.
  destruct (undrained_queue_fills_then_drops (replicate 255 HubExample.hello)
              HubExample.hub 2%nat HubExample.busy Ht Hin Hch) as (h1 & Hr1 & Hres1).
  destruct (undrained_queue_fills_then_drops (replicate 256 HubExample.hello)
              HubExample.hub 2%nat HubExample.busy Ht Hin Hch) as (h2 & Hr2 & Hres2).
  rewrite decide_True in Hres1 by (rewrite length_replicate; cbn; lia).
  rewrite decide_False in Hres2 by (rewrite length_replicate; cbn; lia).
  exists h1, h2. destruct Hres1 as [Hin1 _]. destruct Hres2 as [Hn2 Hc2].
  split; [exact Hr1|]. split; [exact Hin1|]. split; [exact Hr2|]. split; [exact Hn2|].
  rewrite Hc2. reflexivity.
Defined.

(** ** Burn rate and mass *)

(** X25. On states whose masses are 64-bit values, the ship burns exactly
    max(100, BaseBurnRate) per unit of distance when it carries nothing and
    half its tank (the integer half), and with a positive damping the burn
    rate never decreases when the total mass grows: of two states of the
    same ship, the heavier one burns at least as much. *)
Theorem burn_rate_grows_with_mass (w w' : World) :
  BurnFits w ->
  (Ship.ActiveContracts (PlayerShip w) = [] ->
   Ship.Fuel (PlayerShip w) = Z.quot (Ship.MaxFuel (PlayerShip w)) 2 ->
   CalculateCurrentBurn w = Some (Z.max 100 (Ship.BaseBurnRate (PlayerShip w))))
  /\ (BurnFits w' ->
      0 < Ship.BurnDamping (PlayerShip w) ->
      Ship.BurnDamping (PlayerShip w') = Ship.BurnDamping (PlayerShip w) ->
      Ship.BaseBurnRate (PlayerShip w') = Ship.BaseBurnRate (PlayerShip w) ->
      Spec.referenceMass w' = Spec.referenceMass w ->
      Spec.totalMass w <= Spec.totalMass w' ->
      exists burn burn',
        CalculateCurrentBurn w = Some burn
        /\ CalculateCurrentBurn w' = Some burn'
        /\ burn <= burn').
Proof.
  intros Hfit. split.
  - intros Hempty Hhalf. rewrite (CalculateCurrentBurn_exact w Hfit).
    unfold Spec.currentBurnRate, Spec.totalMass, Spec.referenceMass,
      Spec.cargoMass, Spec.passengerMass.
    rewrite Hempty, Hhalf. cbn [filter list_filter map Zsum foldr].
    replace (_ - _) with 0 by ring.
    rewrite Z.quot_0_l by (apply (fits_damping w Hfit)).
    rewrite Z.add_0_r. reflexivity.
  - intros Hfit' Hd Hd' Hb' Href Hmass.
    rewrite (CalculateCurrentBurn_exact w Hfit), (CalculateCurrentBurn_exact w' Hfit').
    eexists _, _. split; [reflexivity|]. split; [reflexivity|].
    unfold Spec.currentBurnRate. rewrite Hd', Hb', Href.
    apply Z.max_le_compat_l. apply Z.add_le_mono_l.
    apply Z.quot_le_mono; lia.
Qed.

Lemma burn_rate_grows_with_mass_witness :
  CalculateCurrentBurn Example.halfFuel = Some 100
  /\ exists burn burn',
       CalculateCurrentBurn Example.halfFuel = Some burn
       /\ CalculateCurrentBurn Example.loaded = Some burn'
       /\ burn <= burn'.
Proof.
  assert (Hhalf : BurnFits Example.halfFuel).
  { constructor; simpl; try apply Forall_nil; try (vm_compute; intuition discriminate). }
  destruct (burn_rate_grows_with_mass Example.halfFuel Example.loaded Hhalf)
    as [Href Hmono].
  split.
  - apply Href; reflexivity.
  - apply Hmono; try reflexivity.
    + exact BurnFits_loaded.
    + vm_compute. discriminate.
Defined.

(** ** Ownership across a reload *)

(** X26. [LoadConfig] keeps contract ownership exclusive: if contract ids
    are pairwise distinct before a load, successful or not, they are
    afterwards, and no contract is both aboard and on a board. *)
Theorem reload_preserves_ownership (parsed : option Universe.t) (w : World) :
  Distinct w ->
  Distinct (snd (LoadConfig parsed w)) /\ Exclusive (snd (LoadConfig parsed w)).
Proof.
  intros Hd.
  assert (Hd' : Distinct (snd (LoadConfig parsed w))).
  { apply (Distinct_shrink w); [| |exact Hd].
    - destruct parsed as [newUni|]; cbn [LoadConfig snd]; [|reflexivity].
      cbn [InitMarket PlayerShip]. case_bool_decide; cbn [snd].
      + unfold aboard, setShip. cbn [PlayerShip Ship.ActiveContracts].
        apply sublist_nil_l.
      + reflexivity.
    - intros key. destruct parsed as [newUni|]; cbn [LoadConfig snd]; [|reflexivity].
      cbn [InitMarket PlayerShip]. case_bool_decide; reflexivity. }
  split; [exact Hd'|]. apply Distinct_Exclusive. exact Hd'.
Qed.

Lemma reload_preserves_ownership_witness :
  Distinct (snd (LoadConfig (Some BootExample.universe) OwnershipExample.docked))
  /\ Exclusive (snd (LoadConfig (Some BootExample.universe) OwnershipExample.docked)).
Proof.
  apply (reload_preserves_ownership (Some BootExample.universe) OwnershipExample.docked).
  exact Distinct_docked.
Defined.

(** ** A catalog with one planet *)

Lemma passengerJob_needs_elsewhere u origin tape r :
  (forall q, q ∈ Universe.Planets u -> Planet.Key q = Planet.Key origin) ->
  passengerJob u origin tape <> Done r.
Proof.
  intros Hsame H. destruct r as [j tape']. unfold passengerJob in H. inv_bind H.
  apply pickDestination_Done in Hstep as [Hin Hne]. apply Hne, Hsame, Hin.
Qed.

Lemma generatePassengerJobs_needs_elsewhere u origin (count : nat) boards tape r :
  (forall q, q ∈ Universe.Planets u -> Planet.Key q = Planet.Key origin) ->
  (0 < count)%nat ->
  generatePassengerJobs u origin count boards tape <> Done r.
Proof.
  intros Hsame Hpos H. destruct count as [|count]; [lia|].
  cbn [generatePassengerJobs] in H. destruct r as [b tape']. inv_bind H.
  eapply passengerJob_needs_elsewhere; eassumption.
Qed.

Lemma replenishPassengers_needs_elsewhere u origin boards upd tape r :
  (forall q, q ∈ Universe.Planets u -> Planet.Key q = Planet.Key origin) ->
  TargetsFit origin ->
  countType "passenger" (offers boards (Planet.Key origin)) < fst (passengerTargets origin) ->
  replenishPassengers u origin (boards, upd) tape <> Done r.
Proof.
  intros Hsame Hfit Hlow H. apply TargetsFit_bounds in Hfit as (_ & _ & Hmn & Hmx).
  unfold replenishPassengers in H.
  destruct (passengerTargets origin) as [mn mx] eqn:Ht. cbn [fst snd] in *.
  fold (offers boards (Planet.Key origin)) in H.
  pose proof (countType_nonneg "passenger" (offers boards (Planet.Key origin))) as Hc.
  set (count := countType "passenger" (offers boards (Planet.Key origin))) in *.
  destruct (Z.ltb_spec count mn) as [_|?]; [|lia].
  destruct r as [st tape']. inv_bind H.
  rewrite sub_exact, add_exact in Hstep
    by (unfold Int64.in_range, Int64.min_int, Int64.max_int; lia).
  apply Intn_Done in Hstep as [Hn Hr].
  rewrite add_exact in H
    by (unfold Int64.in_range, Int64.min_int, Int64.max_int; lia).
  rewrite sub_exact in H
    by (unfold Int64.in_range, Int64.min_int, Int64.max_int; lia).
  destruct (Z.ltb_spec 0 (a + mn - count)) as [_|?]; [|lia].
  inv_bind H.
  eapply (generatePassengerJobs_needs_elsewhere u origin); [exact Hsame | | exact Hstep].
  lia.
Qed.

(** X27. With a single planet in the catalog, a replenishment that finds
    that planet's passenger board below its minimum never returns: the loop
    that draws a destination different from the origin has no planet to
    stop at, whatever the random draws (if the run does not panic
    before). *)
Theorem single_planet_replenishment_never_returns (w : World) (p : Planet.t) :
  Universe.Planets (CurrentUniverse w) = [p] ->
  TargetsFit p ->
  countType "passenger" (offers (AvailableContracts w) (Planet.Key p))
    < fst (passengerTargets p) ->
  forall tape r, ReplenishMarket w tape <> Done r.
Proof.
  intros Hone Hfit Hlow tape r H. unfold ReplenishMarket in H.
  destruct r as [res tape']. inv_bind H. clear H.
  cbn [CurrentUniverse AvailableContracts Market MarketTick] in Hstep.
  rewrite Hone in Hstep. cbn [replenishPlanets] in Hstep.
  destruct a as [b2 u2]. inv_bind Hstep. clear Hstep.
  unfold replenishPlanet in Hstep0. destruct a as [b1 u1]. inv_bind Hstep0.
  destruct a as [b0 u0].
  pose proof Hstep as Hcargo. apply replenishCargo_generated in Hcargo.
  eapply (replenishPassengers_needs_elsewhere (CurrentUniverse w) p b0 u0);
    [| exact Hfit | | exact Hstep0].
  - intros q Hq. rewrite Hone in Hq. apply list_elem_of_singleton in Hq as ->.
    reflexivity.
  - destruct Hcargo as [[-> _] | (_ & added & (_ & Hadd & _) & Hty)]; [exact Hlow|].
    rewrite Hadd, countType_app.
    rewrite (countType_other "passenger" "cargo" added) by (discriminate || assumption).
    lia.
Qed.

Lemma single_planet_replenishment_never_returns_witness :
  (forall tape r, ReplenishMarket LonelyExample.lonely tape <> Done r)
  /\ ReplenishMarket LonelyExample.lonely (replicate 1000 0) = Exhausted.
Proof.
  split; [|vm_compute; reflexivity].
  apply (single_planet_replenishment_never_returns LonelyExample.lonely
           OwnershipExample.prime).
  - reflexivity.
  - repeat constructor; vm_compute; discriminate.
  - vm_compute. reflexivity.
Defined.
